(** * Hyperschedule API server: the versioned course store and its diff engine

    A shallow embedding of [hyperschedule/server.py]: the course code of
    the error messages ([format_course_code]), record deduplication and
    indexing, the single-step snapshot diff ([compute_update]), the replay
    of the retained update history ([compute_diff]), the bounded history
    kept by [update_course_data], and the request handlers [do_GET] and
    [do_PUT].

    Python exceptions are modelled by the [result] monad; the module-level
    dictionaries [course_data] and [INITIAL_COURSE_DATA] by explicit state,
    including the fact that both names can denote the same object. *)

From stdpp Require Import gmap strings list fin_maps fin_sets sorting pretty.
From Stdlib Require Import ZArith Ascii.

Open Scope Z_scope.

Set Default Proof Using "Type".

(** ** Exceptions *)

Inductive result (E A : Type) : Type :=
  | Ok (a : A)
  | Raise (e : E).
Arguments Ok {E A} a.
Arguments Raise {E A} e.

#[global] Instance result_ret {E} : MRet (result E) := λ A a, Ok a.
#[global] Instance result_bind {E} : MBind (result E) := λ A B f m,
  match m with
  | Ok a => f a
  | Raise e => Raise e
  end.

(** [assert b] in Python: continue when [b] holds, raise otherwise. *)
Definition assert {E} (e : E) (b : bool) : result E unit :=
  if b then Ok () else Raise e.

(** A [for] loop whose body may raise: the first exception stops it. *)
Fixpoint for_each {E S X} (body : S → X → result E S) (xs : list X) (s : S)
  : result E S :=
  match xs with
  | [] => Ok s
  | x :: xs' => s' ← body s x; for_each body xs' s'
  end.

(** ** A concrete value type: JSON scalars *)

Inductive json : Type :=
  | JNull
  | JBool (b : bool)
  | JInt (n : Z)
  | JStr (s : string).

#[global] Instance json_eq_dec : EqDecision json.
Proof. solve_decision. Defined.

#[global] Instance json_countable : Countable json.
Proof.
  refine (inj_countable'
    (λ v, match v with
          | JNull => inl ()
          | JBool b => inr (inl b)
          | JInt n => inr (inr (inl n))
          | JStr s => inr (inr (inr s))
          end)
    (λ x, match x with
          | inl _ => JNull
          | inr (inl b) => JBool b
          | inr (inr (inl n)) => JInt n
          | inr (inr (inr s)) => JStr s
          end) _).
  by intros [].
Defined.

(** Python truthiness on these values. *)
Definition json_truthy (v : json) : bool :=
  match v with
  | JNull => false
  | JBool b => b
  | JInt n => negb (n =? 0)
  | JStr s => negb (bool_decide (s = ""))
  end.

(** [str(v)], as the field [{}] of [str.format] renders a value. *)
Definition json_str (v : json) : string :=
  match v with
  | JNull => "None"
  | JBool true => "True"
  | JBool false => "False"
  | JInt n => pretty n
  | JStr s => s
  end.

Fixpoint zeros (n : nat) : string :=
  match n with
  | O => ""
  | S n' => String "0"%char (zeros n')
  end.

(** An integer under the format [0<width>d]: the sign comes first and the
    zeros fill up to the width; nothing is cut off. *)
Definition zero_padded (width : nat) (n : Z) : string :=
  let digits := pretty (Z.abs n) in
  let sign := if (n <? 0)%Z then "-" else "" in
  sign +:+ zeros (width - String.length sign - String.length digits)%nat +:+ digits.

(** The two exceptions of a field [{:0<width>d}] whose value is not an
    integer. *)
Inductive format_error : Type :=
  | NotAnInteger       (* ValueError: unknown format code 'd' for a string *)
  | NoFormatSpec.      (* TypeError: unsupported format string for None *)

(** A value under the field [{:0<width>d}]: booleans are integers, a string
    is a [ValueError] and [None] a [TypeError]. *)
Definition json_format_d (width : nat) (v : json) : result format_error string :=
  match v with
  | JInt n => Ok (zero_padded width n)
  | JBool b => Ok (zero_padded width (if b then 1%Z else 0%Z))
  | JStr _ => Raise NotAnInteger
  | JNull => Raise NoFormatSpec
  end.

(** JSON values as the scraper delivers them.  They are compared ([!=] in
    [compute_update]), tested for truth (the suffix check of
    [deduplicate_course_keys]), built from the letters of
    [string.ascii_uppercase] and printed by [format_course_code]; Python's
    [==] on them is modelled by Leibniz equality.  [truthy] is Python
    truthiness, [VStr] the value of a string, [py_str] is [str] and
    [format_d] the rendering under [{:0<width>d}]. *)
Class JsonValue (Value : Type) : Type := {
  value_eq_dec :: EqDecision Value;
  value_countable :: @Countable Value value_eq_dec;
  truthy : Value → bool;
  VStr : string → Value;
  py_str : Value → string;
  format_d : nat → Value → result format_error string;
}.

#[global] Instance json_value : JsonValue json :=
  {| truthy := json_truthy; VStr := JStr; py_str := json_str;
     format_d := json_format_d |}.

Section Server.

Context {Value : Type} `{!JsonValue Value}.

(** A course is a JSON object: attribute name to value. *)
Abbreviation Course := (gmap string Value).

(** Modelled from the spec: [libcourse] is not part of the sources at hand.
    The identity attributes are the five that [format_course_code] prints
    (department, numeric code, code suffix, school, section). *)
Definition COURSE_INDEX_ATTRS : list string :=
  ["department"; "courseNumber"; "courseCodeSuffix"; "school"; "section"].

(** The tracked attributes, [libcourse.COURSE_ATTRS]: a fixed list that the
    sources at hand do not show; the development is parametric in it. *)
Variable COURSE_ATTRS : list string.

(** An identity key.  [libcourse.course_to_index_key] serialises the list of
    the identity attributes' values; the list itself stands for that
    serialisation. *)
Abbreviation Key := (list Value).

(** The [ScrapeError]s of this module; the first two carry the course whose
    formatted code the message prints. *)
Inductive scrape_error : Type :=
  | DuplicateWithSuffix (course : Course)
    (* "duplicate course with suffix: <format_course_code(course)>" *)
  | MoreThanOneMatching (course : Course)
    (* "more than one course matching <format_course_code(course)>" *)
  | FetchFailed.
    (* "timed out", "error in portal scraper" *)

Inductive error : Type :=
  | KeyError
  | AssertionError
  | TypeError
  | ValueError
  | ScrapeError (e : scrape_error).

Abbreviation res := (result error).

(** [d[k]] on a dictionary: [KeyError] when the key is missing. *)
Definition getitem {K A} `{Countable K} (d : gmap K A) (k : K) : res A :=
  match d !! k with
  | Some v => Ok v
  | None => Raise KeyError
  end.

(** Modelled from the spec: the deterministic encoding of the identity
    tuple ([libcourse.course_to_index_key], missing from the sources): the
    values of the identity attributes, in order. *)
Fixpoint read_attrs (course : Course) (attrs : list string) : res (list Value) :=
  match attrs with
  | [] => Ok []
  | a :: rest =>
      v ← getitem course a;
      vs ← read_attrs course rest;
      Ok (v :: vs)
  end.

Definition course_to_index_key (course : Course) : res Key :=
  read_attrs course COURSE_INDEX_ATTRS.

(** Modelled from the spec: [reconstructFromKey]
    ([libcourse.course_from_index_key], missing from the sources): the
    record holding the identity attributes only. *)
Definition course_from_index_key (key : Key) : Course :=
  list_to_map (zip COURSE_INDEX_ATTRS key).

(** ** Single-step diff: [compute_update] *)

(** An Update Record as [compute_update] builds it: two lists of keys and a
    dictionary from key to the list of changed attributes. *)
Record update : Type := Update {
  u_added : list Key;
  u_removed : list Key;
  u_modified : gmap Key (list string);
}.

#[global] Instance update_eq_dec : EqDecision update.
Proof. solve_decision. Defined.

(** The inner loop over [COURSE_ATTRS]: the attributes on which the two
    courses differ, in the order of [COURSE_ATTRS]. *)
Fixpoint changed_attrs (old_course new_course : Course) (attrs : list string)
  : res (list string) :=
  match attrs with
  | [] => Ok []
  | attr :: rest =>
      o ← getitem old_course attr;
      n ← getitem new_course attr;
      more ← changed_attrs old_course new_course rest;
      Ok (if decide (o = n) then more else attr :: more)
  end.

Definition compute_update_step (old_courses_index new_courses_index : gmap Key Course)
    (modified_keys_and_attrs : gmap Key (list string)) (key : Key)
  : res (gmap Key (list string)) :=
  old_course ← getitem old_courses_index key;
  new_course ← getitem new_courses_index key;
  attrs ← changed_attrs old_course new_course COURSE_ATTRS;
  Ok (match attrs with
      | [] => modified_keys_and_attrs
      | _ :: _ => <[key := attrs]> modified_keys_and_attrs
      end).

(** Python iterates sets in an unspecified order; we use the order of
    [elements]. *)
Definition compute_update (old_courses_index new_courses_index : gmap Key Course)
  : res update :=
  let old_courses_keys : gset Key := dom old_courses_index in
  let new_courses_keys : gset Key := dom new_courses_index in
  let maybe_modified_keys := new_courses_keys ∩ old_courses_keys in
  modified_keys_and_attrs ←
    for_each (compute_update_step old_courses_index new_courses_index)
             (elements maybe_modified_keys) ∅;
  Ok {| u_added := elements (new_courses_keys ∖ old_courses_keys);
        u_removed := elements (old_courses_keys ∖ new_courses_keys);
        u_modified := modified_keys_and_attrs |}.

(** ** The store: the dictionary behind [course_data]

    [None] renders Python's [None] for the first five entries;
    [INITIAL_COURSE_DATA] has no ["malformed"] entry at all, so for that
    one [None] means that the key is missing. *)
Record course_data_t : Type := CourseData {
  current : option (list Course);
  index : option (gmap Key Course);
  initial_timestamp : option Z;
  updates : list (Z * update);
  timestamp : option Z;
  malformed : option (list Value);
}.

(** ** Replay of the history: [compute_diff] *)

(** The three accumulators of [compute_diff]. *)
Record accum : Type := Accum {
  added : gset Key;
  removed : gset Key;
  modified : gmap Key (gset string);
}.

Definition empty_accum : accum :=
  {| added := ∅; removed := ∅; modified := ∅ |}.

(** Body of [for key, attrs in update["modified"].items()]. *)
Definition replay_modified (acc : accum) (item : Key * list string) : res accum :=
  let '(key, attrs) := item in
  assert AssertionError (bool_decide (key ∉ removed acc));;
  let modified1 :=
    if decide (key ∈ dom (modified acc)) then modified acc
    else <[key := ∅]> (modified acc) in
  so_far ← getitem modified1 key;
  Ok {| added := added acc;
        removed := removed acc;
        modified := <[key := so_far ∪ list_to_set attrs]> modified1 |}.

(** Body of [for key in update["added"]]. *)
Definition replay_added (acc : accum) (key : Key) : res accum :=
  assert AssertionError
    (bool_decide (key ∉ dom (modified acc)) && bool_decide (key ∉ added acc));;
  if decide (key ∈ removed acc) then
    Ok {| added := added acc;
          removed := removed acc ∖ {[key]};
          modified := <[key := list_to_set COURSE_ATTRS]> (modified acc) |}
  else
    Ok {| added := added acc ∪ {[key]};
          removed := removed acc;
          modified := modified acc |}.

(** Body of [for key in update["removed"]]. *)
Definition replay_removed (acc : accum) (key : Key) : res accum :=
  assert AssertionError (bool_decide (key ∉ removed acc));;
  let modified1 :=
    if decide (key ∈ dom (modified acc)) then delete key (modified acc)
    else modified acc in
  if decide (key ∈ added acc) then
    Ok {| added := added acc ∖ {[key]};
          removed := removed acc;
          modified := modified1 |}
  else
    Ok {| added := added acc;
          removed := removed acc ∪ {[key]};
          modified := modified1 |}.

(** Body of [for timestamp, update in course_data["updates"]]. *)
Definition replay_update (since : Z) (acc : accum) (entry : Z * update) : res accum :=
  let '(timestamp, update) := entry in
  if decide (timestamp > since) then
    acc1 ← for_each replay_modified (map_to_list (u_modified update)) acc;
    acc2 ← for_each replay_added (u_added update) acc1;
    for_each replay_removed (u_removed update) acc2
  else Ok acc.

(** The first half of [compute_diff]: the fold over the history. *)
Definition replay (updates : list (Z * update)) (since : Z) : res accum :=
  for_each (replay_update since) updates empty_accum.

(** The payload of an incremental response. *)
Record diff : Type := Diff {
  added_courses : list Course;
  removed_courses : list Course;
  modified_courses : list Course;
}.

(** [index[key]] where [index] is [course_data["index"]]: subscripting
    [None] is a [TypeError]. *)
Definition index_getitem (index : option (gmap Key Course)) (key : Key) : res Course :=
  match index with
  | Some idx => getitem idx key
  | None => Raise TypeError
  end.

(** The partial record of a modified course: the identity attributes and
    the accumulated changed attributes, read off the current course. *)
Definition partial_course (current_course : Course) (attrs : list string) : res Course :=
  for_each (λ course attr, v ← getitem current_course attr; Ok (<[attr := v]> course))
           attrs ∅.

Definition modified_course (index : option (gmap Key Course))
    (item : Key * gset string) : res Course :=
  let '(key, attrs) := item in
  current_course ← index_getitem index key;
  partial_course current_course (COURSE_INDEX_ATTRS ++ elements attrs).

(** A list comprehension whose body may raise. *)
Definition map_res {X Y} (f : X → res Y) (xs : list X) : res (list Y) :=
  for_each (λ ys x, y ← f x; Ok (ys ++ [y])) xs [].

(** The second half of [compute_diff]: the accumulators resolved against
    the current index. The order of the three lists is the iteration order
    of Python's sets and dictionary, here that of [elements] and
    [map_to_list]. *)
Definition materialize (index : option (gmap Key Course)) (acc : accum) : res diff :=
  added_courses ← map_res (index_getitem index) (elements (added acc));
  let removed_courses := course_from_index_key <$> elements (removed acc) in
  modified_courses ← map_res (modified_course index) (map_to_list (modified acc));
  Ok {| added_courses := added_courses;
        removed_courses := removed_courses;
        modified_courses := modified_courses |}.

Definition compute_diff (course_data : course_data_t) (since : Z) : res diff :=
  acc ← replay (updates course_data) since;
  materialize (index course_data) acc.

(** ** Refresh: [update_course_data] *)

Definition MAX_UPDATES_SAVED : nat := 100.

(** [updates[:] = updates[len(updates) - MAX_UPDATES_SAVED:]] when the list
    has grown beyond the bound. *)
Definition truncate_updates (updates : list (Z * update)) : list (Z * update) :=
  if decide (MAX_UPDATES_SAVED < length updates)%nat
  then drop (length updates - MAX_UPDATES_SAVED) updates
  else updates.

(** The body of [update_course_data], on the dictionary that the global
    [course_data] denotes.  [compute_update] is evaluated before anything
    is written, so a refresh that raises leaves the store as it was. *)
Definition update_course_data (timestamp' : Z) (courses : list Course)
    (index' : gmap Key Course) (malformed_courses : list Value)
    (course_data : course_data_t) : res course_data_t :=
  '(initial_timestamp', updates') ←
    match index course_data with
    | Some last_index =>
        update ← compute_update last_index index';
        Ok (initial_timestamp course_data,
            truncate_updates (updates course_data ++ [(timestamp', update)]))
    | None => Ok (Some timestamp', updates course_data)
    end;
  Ok {| current := Some courses;
        index := Some index';
        initial_timestamp := initial_timestamp';
        updates := updates';
        timestamp := Some timestamp';
        malformed := Some malformed_courses |}.

(** ** The course code of the error messages: [format_course_code]

    [str.format] first evaluates its five arguments, in order, and then
    renders the fields, in order. *)

(** A value under the field [{:0<width>d}], with the exception that
    [str.format] raises. *)
Definition format_field (width : nat) (v : Value) : res string :=
  match format_d width v with
  | Ok s => Ok s
  | Raise NotAnInteger => Raise ValueError
  | Raise NoFormatSpec => Raise TypeError
  end.

Definition format_course_code (course : Course) : res string :=
  department ← getitem course "department";
  courseNumber ← getitem course "courseNumber";
  courseCodeSuffix ← getitem course "courseCodeSuffix";
  school ← getitem course "school";
  section ← getitem course "section";
  number ← format_field 3 courseNumber;
  section' ← format_field 2 section;
  Ok (py_str department +:+ " " +:+ number +:+ py_str courseCodeSuffix +:+ " "
      +:+ py_str school +:+ "-" +:+ section').

(** ** Deduplication and indexing *)

(** A [for] loop over a mutable state that survives an exception: the
    state reached when the exception was raised is returned with it. *)
Fixpoint for_each_mut {S X} (body : S → X → S * res unit) (xs : list X) (s : S)
  : S * res unit :=
  match xs with
  | [] => (s, Ok ())
  | x :: xs' =>
      match body s x with
      | (s', Ok _) => for_each_mut body xs' s'
      | (s', Raise e) => (s', Raise e)
      end
  end.

(** [string.ascii_uppercase], letter by letter. *)
Definition ascii_uppercase : list string :=
  ["A"; "B"; "C"; "D"; "E"; "F"; "G"; "H"; "I"; "J"; "K"; "L"; "M";
   "N"; "O"; "P"; "Q"; "R"; "S"; "T"; "U"; "V"; "W"; "X"; "Y"; "Z"].

(** The course objects of a batch are mutated in place and are shared
    between the batch and the groups of [course_index]; a course object is
    identified by its position in the batch, and the batch is the heap. *)

(** [course_index[key].append(course)] on a [defaultdict(list)]; a
    dictionary iterates in the order in which its keys were inserted. *)
Fixpoint group_append (course_index : list (Key * list nat)) (key : Key) (i : nat)
  : list (Key * list nat) :=
  match course_index with
  | [] => [(key, [i])]
  | (k, members) :: rest =>
      if decide (k = key) then (k, members ++ [i]) :: rest
      else (k, members) :: group_append rest key i
  end.

Definition group_courses (courses : list Course) : res (list (Key * list nat)) :=
  for_each (λ course_index '(i, course),
              key ← course_to_index_key course;
              Ok (group_append course_index key i))
           (imap pair courses) [].

(** [if course["courseCodeSuffix"]: raise ScrapeError(...)]: the message is
    built first, so an exception of [format_course_code] takes the place of
    the [ScrapeError]. *)
Definition check_no_suffix (courses : list Course) (_ : unit) (i : nat) : res unit :=
  match courses !! i with
  | Some course =>
      suffix ← getitem course "courseCodeSuffix";
      if truthy suffix then
        code ← format_course_code course;
        Raise (ScrapeError (DuplicateWithSuffix course))
      else Ok ()
  | None => Ok ()
  end.

(** [course["courseCodeSuffix"] = letter]. *)
Definition assign_suffix (courses : list Course) (item : nat * string) : list Course :=
  let '(i, letter) := item in
  match courses !! i with
  | Some course => <[i := <["courseCodeSuffix" := VStr letter]> course]> courses
  | None => courses
  end.

Definition deduplicate_group (courses : list Course) (group : Key * list nat)
  : list Course * res unit :=
  let '(key, members) := group in
  if decide (1 < length members)%nat then
    match for_each (check_no_suffix courses) members () with
    | Raise e => (courses, Raise e)
    | Ok _ => (foldl assign_suffix courses (zip members ascii_uppercase), Ok ())
    end
  else (courses, Ok ()).

(** Returns the batch as the call leaves it, and the outcome. *)
Definition deduplicate_course_keys (courses : list Course) : list Course * res unit :=
  match group_courses courses with
  | Raise e => (courses, Raise e)
  | Ok course_index => for_each_mut deduplicate_group course_index courses
  end.

(** The body of the loop of [index_courses]; here too the message of the
    [ScrapeError] is built before it is raised. *)
Definition index_courses_step (course_index : gmap Key Course) (course : Course)
  : res (gmap Key Course) :=
  key ← course_to_index_key course;
  if decide (key ∈ dom course_index) then
    code ← format_course_code course;
    Raise (ScrapeError (MoreThanOneMatching course))
  else Ok (<[key := course]> course_index).

Definition index_courses (courses : list Course)
  : list Course * res (gmap Key Course) :=
  let '(courses', outcome) := deduplicate_course_keys courses in
  (courses', outcome ≫= λ _, for_each index_courses_step courses' ∅).

(** [fetch_and_update_course_data]: the scraper's output is an input here
    ([None] when the scraper timed out, failed, or printed no JSON). *)
Definition fetch_and_update_course_data (timestamp' : Z)
    (output : option (list Course * list Value)) (course_data : course_data_t)
  : res course_data_t :=
  match output with
  | None => Raise (ScrapeError FetchFailed)
  | Some (courses, malformed_courses) =>
      let '(courses', outcome) := index_courses courses in
      index' ← outcome;
      update_course_data timestamp' courses' index' malformed_courses course_data
  end.

(** ** Module-level state

    The module owns two dictionary objects: the template
    [INITIAL_COURSE_DATA] and the deep copy made of it when the module is
    loaded.  The global name [course_data] refers to one of them. *)
Record world : Type := World {
  INITIAL_COURSE_DATA : course_data_t;
  copied_course_data : course_data_t;
  course_data_is_template : bool;
}.

(** The dictionary that the name [course_data] denotes. *)
Definition course_data (w : world) : course_data_t :=
  if course_data_is_template w then INITIAL_COURSE_DATA w
  else copied_course_data w.

(** Writing through the name [course_data] mutates the denoted object. *)
Definition set_course_data (cd : course_data_t) (w : world) : world :=
  if course_data_is_template w
  then {| INITIAL_COURSE_DATA := cd;
          copied_course_data := copied_course_data w;
          course_data_is_template := true |}
  else {| INITIAL_COURSE_DATA := INITIAL_COURSE_DATA w;
          copied_course_data := cd;
          course_data_is_template := false |}.

Definition initial_course_data : course_data_t :=
  {| current := None; index := None; initial_timestamp := None;
     updates := []; timestamp := None; malformed := None |}.

(** The state after [course_data = copy.deepcopy(INITIAL_COURSE_DATA)]. *)
Definition initial_world : world :=
  {| INITIAL_COURSE_DATA := initial_course_data;
     copied_course_data := initial_course_data;
     course_data_is_template := false |}.

(** [run_single_fetch_task]: every exception of the refresh is caught and
    logged; the task reports whether the refresh succeeded. *)
Definition run_single_fetch_task (timestamp' : Z)
    (output : option (list Course * list Value)) (w : world) : bool * world :=
  match fetch_and_update_course_data timestamp' output (course_data w) with
  | Ok cd => (true, set_course_data cd w)
  | Raise _ => (false, w)
  end.

(** ** Request handlers *)

Inductive http_status : Type :=
  | BAD_REQUEST | NOT_FOUND | NOT_IMPLEMENTED | SERVICE_UNAVAILABLE.

(** The JSON bodies sent with status 200. *)
Inductive body : Type :=
  | IndexHtml
  | AllCourses (courses : list Course) (timestamp : option Z)
               (malformedCourseCount : nat)
  | Incremental (d : diff) (timestamp : option Z) (malformedCourseCount : nat)
  | NotIncremental (courses : list Course) (timestamp : option Z)
                   (malformedCourseCount : nat)
  | MalformedCourses (malformed_courses : list Value)
  | CourseDataDump (cd : course_data_t).

Inductive response : Type :=
  | SendOK (b : body)           (* 200 with a body *)
  | SendNoContent               (* 204 *)
  | SendError (status : http_status)
  | Uncaught (e : error).       (* an exception leaves the handler *)

(** [re.match] anchors at the start only: a literal pattern matches when it
    is a prefix of the path; the rest of the path is returned. *)
Fixpoint strip_prefix (pattern path : string) : option string :=
  match pattern with
  | EmptyString => Some path
  | String a pattern' =>
      match path with
      | String b path' => if decide (a = b) then strip_prefix pattern' path' else None
      | EmptyString => None
      end
  end.

(** The character class [[-0-9]]. *)
Definition is_timestamp_char (a : ascii) : bool :=
  bool_decide (a = "-"%char) || (48 <=? nat_of_ascii a)%nat && (nat_of_ascii a <=? 57)%nat.

(** The greedy group [([-0-9]+)]: the longest run of class characters at
    the start of the string ([None] when the run is empty). *)
Fixpoint timestamp_run (path : string) : string :=
  match path with
  | String a path' => if is_timestamp_char a then String a (timestamp_run path') else EmptyString
  | EmptyString => EmptyString
  end.

Definition match_timestamp (path : string) : option string :=
  match timestamp_run path with
  | EmptyString => None
  | run => Some run
  end.

(** [int(s)] on a string of the class [[-0-9]]: an optional sign and at
    least one digit, [ValueError] otherwise. *)
Fixpoint parse_digits (s : string) (n : Z) : option Z :=
  match s with
  | EmptyString => Some n
  | String a s' =>
      if (48 <=? nat_of_ascii a)%nat && (nat_of_ascii a <=? 57)%nat
      then parse_digits s' (10 * n + Z.of_nat (nat_of_ascii a - 48))
      else None
  end.

(** [sys.get_int_max_str_digits()]: CPython refuses to convert a decimal
    string of more digits (the sign is not counted). *)
Definition MAX_STR_DIGITS : Z := 4300.

(** The digits of a literal: all decimal, and not more than the limit. *)
Definition parse_literal (digits : string) : option Z :=
  if decide (MAX_STR_DIGITS < Z.of_nat (String.length digits)) then None
  else parse_digits digits 0.

Definition int (s : string) : res Z :=
  match s with
  | EmptyString => Raise ValueError
  | String a s' =>
      if decide (a = "-"%char) then
        match s' with
        | EmptyString => Raise ValueError
        | _ => from_option (λ n, Ok (- n)) (Raise ValueError) (parse_literal s')
        end
      else from_option Ok (Raise ValueError) (parse_literal s)
  end.

(** Truthiness of [course_data["current"]]: [None] and the empty list are
    both false. *)
Definition current_courses (cd : course_data_t) : option (list Course) :=
  match current cd with
  | Some (course :: courses) => Some (course :: courses)
  | _ => None
  end.

(** [len(course_data["malformed"])]. *)
Definition malformed_count (cd : course_data_t) : res nat :=
  match malformed cd with
  | Some malformed_courses => Ok (length malformed_courses)
  | None => Raise KeyError
  end.

Definition respond (r : res body) : response :=
  match r with
  | Ok b => SendOK b
  | Raise e => Uncaught e
  end.

(** The branch for [/api/v2/all-courses]. *)
Definition get_all_courses (cd : course_data_t) : response :=
  match current_courses cd with
  | Some courses =>
      respond (count ← malformed_count cd;
               Ok (AllCourses courses (timestamp cd) count))
  | None => SendError SERVICE_UNAVAILABLE
  end.

(** The branch for [/api/v2/courses-since/<group>]. *)
Definition get_courses_since (group : string) (cd : course_data_t) : response :=
  match int group with
  | Raise _ => SendError BAD_REQUEST
  | Ok since =>
      match current_courses cd with
      | Some courses =>
          respond (
            initial ← from_option Ok (Raise TypeError) (initial_timestamp cd);
            if decide (since >= initial) then
              d ← compute_diff cd since;
              count ← malformed_count cd;
              Ok (Incremental d (timestamp cd) count)
            else
              count ← malformed_count cd;
              Ok (NotIncremental courses (timestamp cd) count))
      | None => SendError SERVICE_UNAVAILABLE
      end
  end.

(** The branch for [/api/v2/malformed-courses]. *)
Definition get_malformed_courses (cd : course_data_t) : response :=
  match current_courses cd with
  | Some _ => respond (from_option (λ l, Ok (MalformedCourses l)) (Raise KeyError) (malformed cd))
  | None => SendError SERVICE_UNAVAILABLE
  end.

Definition do_GET (path : string) (w : world) : response * world :=
  if decide (path = "/") then (SendOK IndexHtml, w)
  else if strip_prefix "/api/v2/all-courses" path is Some _ then
    (get_all_courses (course_data w), w)
  else match strip_prefix "/api/v2/courses-since/" path ≫= match_timestamp with
  | Some group => (get_courses_since group (course_data w), w)
  | None =>
  if strip_prefix "/api/v2/malformed-courses" path is Some _ then
    (get_malformed_courses (course_data w), w)
  else if strip_prefix "/experimental/course-data" path is Some _ then
    (SendOK (CourseDataDump (course_data w)), w)
  else (SendError NOT_FOUND, w)
  end.

(** The attributes that [main] hands to the server object. *)
Record server_t : Type := ServerAttrs {
  debug : bool;
  use_cache : bool;
}.

(** [path.rstrip("/")]. *)
Fixpoint rstrip_slash (path : string) : string :=
  match path with
  | EmptyString => EmptyString
  | String a path' =>
      match rstrip_slash path' with
      | EmptyString => if decide (a = "/"%char) then EmptyString else String a EmptyString
      | rest => String a rest
      end
  end.

(** The branch for [/debug/set-courses]: after indexing the request body it
    calls [update_course_data] with three arguments where four are
    required, which raises [TypeError] before the store is touched. *)
Definition put_set_courses (rest : string) (now : Z) (courses : list Course) : res unit :=
  timestamp' ← match strip_prefix "/" rest ≫= match_timestamp with
                | Some group => int group
                | None => Ok now
                end;
  index' ← (index_courses courses).2;
  Raise TypeError.

Definition do_PUT (server : server_t) (path : string) (now : Z)
    (request_body : list Course) (w : world) : response * world :=
  if negb (debug server) then (SendError NOT_IMPLEMENTED, w)
  else match strip_prefix "/debug/set-courses" path with
  | Some rest =>
      match put_set_courses rest now request_body with
      | Ok _ => (SendNoContent, w)
      | Raise e => (Uncaught e, w)
      end
  | None =>
  if decide (rstrip_slash path = "/debug/scrape") then (SendNoContent, w)
  else if decide (rstrip_slash path = "/debug/reset") then
    (* course_data = INITIAL_COURSE_DATA: the name now denotes the template *)
    (SendNoContent,
     {| INITIAL_COURSE_DATA := INITIAL_COURSE_DATA w;
        copied_course_data := copied_course_data w;
        course_data_is_template := true |})
  else (SendError NOT_FOUND, w)
  end.


(** ** Decidable equality of the data *)

#[global] Instance result_eq_dec {E A} `{EqDecision E, EqDecision A} :
  EqDecision (result E A).
Proof using Type*. solve_decision. Defined.
#[global] Instance scrape_error_eq_dec : EqDecision scrape_error.
Proof using Type*. solve_decision. Defined.
#[global] Instance error_eq_dec : EqDecision error.
Proof using Type*. solve_decision. Defined.
#[global] Instance course_data_eq_dec : EqDecision course_data_t.
Proof using Type*. solve_decision. Defined.
#[global] Instance diff_eq_dec : EqDecision diff.
Proof using Type*. solve_decision. Defined.
#[global] Instance world_eq_dec : EqDecision world.
Proof using Type*. solve_decision. Defined.
#[global] Instance http_status_eq_dec : EqDecision http_status.
Proof using Type*. solve_decision. Defined.
#[global] Instance body_eq_dec : EqDecision body.
Proof using Type*. solve_decision. Defined.
#[global] Instance response_eq_dec : EqDecision response.
Proof using Type*. solve_decision. Defined.

(** * Properties *)

(** ** Loops *)

Lemma for_each_app {E S X} (body : S → X → result E S) xs ys s :
  for_each body (xs ++ ys) s = (for_each body xs s ≫= for_each body ys).
Proof.
  revert s. induction xs as [|x xs IH]; intros s; simpl; [done|].
  destruct (body s x) as [s'|e]; simpl; [apply IH | done].
Qed.

(** A loop whose every step succeeds and keeps an invariant returns a
    state satisfying it. *)
Lemma for_each_invariant {E S X} (P : S → Prop) (body : S → X → result E S) xs s :
  P s →
  (∀ s x, x ∈ xs → P s → ∃ s', body s x = Ok s' ∧ P s') →
  ∃ s', for_each body xs s = Ok s' ∧ P s'.
Proof.
  revert s. induction xs as [|x xs IH]; intros s Hs Hstep; simpl; [eauto|].
  destruct (Hstep s x) as (s' & -> & Hs'); [left | done |]. simpl.
  apply IH; [done|]. intros s1 y Hy. apply Hstep. by right.
Qed.

(** ** The steps of the replay *)

Lemma replay_modified_ok acc key attrs :
  key ∉ removed acc →
  replay_modified acc (key, attrs) =
    Ok {| added := added acc;
          removed := removed acc;
          modified := <[key := default ∅ (modified acc !! key) ∪ list_to_set attrs]>
                        (modified acc) |}.
Proof.
  intros Hr. unfold replay_modified, assert.
  rewrite bool_decide_eq_true_2 by done. simpl.
  destruct (decide (key ∈ dom (modified acc))) as [Hin|Hout].
  - apply elem_of_dom in Hin as [S HS]. unfold getitem. by rewrite HS.
  - apply not_elem_of_dom in Hout. unfold getitem.
    rewrite lookup_insert_eq, Hout. simpl. by rewrite insert_insert_eq.
Qed.

Lemma replay_added_ok acc key :
  key ∉ dom (modified acc) → key ∉ added acc →
  replay_added acc key =
    Ok (if decide (key ∈ removed acc) then
          {| added := added acc;
             removed := removed acc ∖ {[key]};
             modified := <[key := list_to_set COURSE_ATTRS]> (modified acc) |}
        else
          {| added := added acc ∪ {[key]};
             removed := removed acc;
             modified := modified acc |}).
Proof.
  intros Hm Ha. unfold replay_added, assert.
  rewrite !bool_decide_eq_true_2 by done. simpl. by case_decide.
Qed.

Lemma replay_removed_ok acc key :
  key ∉ removed acc →
  replay_removed acc key =
    Ok {| added := added acc ∖ {[key]};
          removed := if decide (key ∈ added acc) then removed acc
                     else removed acc ∪ {[key]};
          modified := delete key (modified acc) |}.
Proof.
  intros Hr. unfold replay_removed, assert.
  rewrite bool_decide_eq_true_2 by done. simpl.
  assert ((if decide (key ∈ dom (modified acc)) then delete key (modified acc)
           else modified acc) = delete key (modified acc)) as ->.
  { case_decide as Hd; [done|]. apply not_elem_of_dom in Hd.
    by rewrite delete_id. }
  case_decide as Ha; f_equal; f_equal. set_solver.
Qed.

(** The three inner loops, each over keys without repetition. *)

Lemma replay_modified_loop (items : list (Key * list string)) acc :
  NoDup items.*1 →
  (∀ key, key ∈ items.*1 → key ∉ removed acc) →
  ∃ acc', for_each replay_modified items acc = Ok acc' ∧
    added acc' = added acc ∧
    removed acc' = removed acc ∧
    (∀ key attrs, (key, attrs) ∈ items →
       modified acc' !! key =
         Some (default ∅ (modified acc !! key) ∪ list_to_set attrs)) ∧
    (∀ key, key ∉ items.*1 → modified acc' !! key = modified acc !! key).
Proof.
  revert acc. induction items as [|[k0 a0] items IH]; intros acc Hnd Hr; cbn [for_each].
  { eexists; split_and!; try done. intros ?? []%elem_of_nil. }
  rewrite fmap_cons in Hnd. apply NoDup_cons in Hnd as [Hk0 Hnd].
  rewrite replay_modified_ok by (apply Hr; rewrite fmap_cons; left).
  cbn [mbind result_bind].
  destruct (IH {| added := added acc; removed := removed acc;
                  modified := <[k0 := default ∅ (modified acc !! k0) ∪ list_to_set a0]>
                                (modified acc) |}) as (acc' & -> & Ha & Hrm & Hin & Hout).
  { done. } { intros key Hkey. simpl. apply Hr. simpl. by right. }
  simpl in *. exists acc'. split_and!; try done.
  - intros key attrs [Heq|Hmem]%elem_of_cons.
    + injection Heq as -> ->. rewrite Hout by done. by rewrite lookup_insert_eq.
    + rewrite (Hin _ _ Hmem). rewrite lookup_insert_ne; [done|].
      intros ->. apply Hk0. apply list_elem_of_fmap. by exists (key, attrs).
  - intros key Hkey. apply not_elem_of_cons in Hkey as [Hne Hkey].
    rewrite Hout by done. by rewrite lookup_insert_ne.
Qed.

Lemma replay_added_loop (keys : list Key) acc :
  NoDup keys →
  (∀ key, key ∈ keys → key ∉ dom (modified acc) ∧ key ∉ added acc) →
  ∃ acc', for_each replay_added keys acc = Ok acc' ∧
    added acc' = added acc ∪ (list_to_set keys ∖ removed acc) ∧
    removed acc' = removed acc ∖ list_to_set keys ∧
    (∀ key, modified acc' !! key =
       if decide (key ∈ keys ∧ key ∈ removed acc)
       then Some (list_to_set COURSE_ATTRS) else modified acc !! key).
Proof.
  revert acc. induction keys as [|k0 keys IH]; intros acc Hnd Hpre; cbn [for_each].
  { eexists; split_and!; [done|set_solver|set_solver|].
    intros key. case_decide as Hk; [|done]. by destruct Hk as [?%elem_of_nil _]. }
  apply NoDup_cons in Hnd as [Hk0 Hnd].
  destruct (Hpre k0) as [Hm0 Ha0]; [left|].
  rewrite replay_added_ok by done. cbn [mbind result_bind].
  match goal with |- ∃ _, for_each _ _ ?a = _ ∧ _ => set (acc1 := a) end.
  destruct (IH acc1) as (acc' & -> & Ha & Hr & Hm).
  { done. }
  { intros key Hkey. destruct (Hpre key) as [Hm1 Ha1]; [by right|].
    assert (key ≠ k0) by (by intros ->).
    subst acc1. case_decide; simpl; rewrite ?dom_insert_L; set_solver. }
  exists acc'. split_and!; [done|..].
  - rewrite Ha. subst acc1. case_decide; simpl; set_solver.
  - rewrite Hr. subst acc1. case_decide; simpl; set_solver.
  - intros key. rewrite Hm. subst acc1.
    destruct (decide (k0 ∈ removed acc)) as [Hk0r|Hk0r]; simpl.
    + destruct (decide (key = k0)) as [->|Hne].
      * rewrite lookup_insert_eq.
        rewrite (decide_True (P := k0 ∈ k0 :: keys ∧ k0 ∈ removed acc)).
        -- by destruct (decide _).
        -- split; [left|done].
      * rewrite lookup_insert_ne by done.
        repeat case_decide; try done; set_solver.
    + repeat case_decide; try done; set_solver.
Qed.

Lemma replay_removed_loop (keys : list Key) acc :
  NoDup keys →
  (∀ key, key ∈ keys → key ∉ removed acc) →
  ∃ acc', for_each replay_removed keys acc = Ok acc' ∧
    added acc' = added acc ∖ list_to_set keys ∧
    removed acc' = removed acc ∪ (list_to_set keys ∖ added acc) ∧
    (∀ key, modified acc' !! key =
       if decide (key ∈ keys) then None else modified acc !! key).
Proof.
  revert acc. induction keys as [|k0 keys IH]; intros acc Hnd Hpre; cbn [for_each].
  { eexists; split_and!; [done|set_solver|set_solver|].
    intros key. case_decide as Hk; [|done]. by apply elem_of_nil in Hk. }
  apply NoDup_cons in Hnd as [Hk0 Hnd].
  rewrite replay_removed_ok by (apply Hpre; left). cbn [mbind result_bind].
  match goal with |- ∃ _, for_each _ _ ?a = _ ∧ _ => set (acc1 := a) end.
  destruct (IH acc1) as (acc' & -> & Ha & Hr & Hm).
  { done. }
  { intros key Hkey. specialize (Hpre key (list_elem_of_further _ _ _ Hkey)).
    assert (key ≠ k0) by (by intros ->).
    subst acc1. simpl. case_decide; set_solver. }
  exists acc'. split_and!; [done|..].
  - rewrite Ha. subst acc1. simpl. set_solver.
  - rewrite Hr. subst acc1. simpl. case_decide; set_solver.
  - intros key. rewrite Hm. subst acc1. simpl.
    destruct (decide (key = k0)) as [->|Hne].
    + rewrite lookup_delete_eq. rewrite (decide_True (P := k0 ∈ k0 :: keys)) by left.
      by destruct (decide (k0 ∈ keys)).
    + rewrite lookup_delete_ne by done.
      repeat case_decide; try done; set_solver.
Qed.

(** ** The single-step diff *)

(** The attributes on which two courses differ. *)
Definition differing (old_course new_course : Course) : list string :=
  filter (λ attr, old_course !! attr ≠ new_course !! attr) COURSE_ATTRS.

(** A well-formed course carries every identity attribute and every
    tracked attribute; an index is well formed when its courses are. *)
Definition wf_course (course : Course) : Prop :=
  Forall (λ attr, is_Some (course !! attr)) (COURSE_INDEX_ATTRS ++ COURSE_ATTRS).

Definition wf_index (idx : gmap Key Course) : Prop :=
  map_Forall (λ _ course, wf_course course) idx.

Lemma wf_course_tracked course attr :
  wf_course course → attr ∈ COURSE_ATTRS → is_Some (course !! attr).
Proof.
  intros Hwf Hin. unfold wf_course in Hwf. rewrite Forall_forall in Hwf.
  apply Hwf, elem_of_app. by right.
Qed.

Lemma wf_course_identity course attr :
  wf_course course → attr ∈ COURSE_INDEX_ATTRS → is_Some (course !! attr).
Proof.
  intros Hwf Hin. unfold wf_course in Hwf. rewrite Forall_forall in Hwf.
  apply Hwf, elem_of_app. by left.
Qed.

Lemma changed_attrs_spec o n attrs l :
  changed_attrs o n attrs = Ok l →
  l = filter (λ attr, o !! attr ≠ n !! attr) attrs.
Proof.
  revert l. induction attrs as [|a attrs IH]; intros l; cbn [changed_attrs].
  { by intros [= <-]. }
  unfold getitem.
  destruct (o !! a) as [vo|] eqn:Ho; [|done].
  destruct (n !! a) as [vn|] eqn:Hn; [|done]. cbn [mbind result_bind].
  destruct (changed_attrs o n attrs) as [more|] eqn:Hmore; [|done].
  cbn [mbind result_bind]. intros [= <-]. rewrite (IH more eq_refl).
  rewrite filter_cons, Ho, Hn.
  destruct (decide (vo = vn)) as [->|Hne].
  - by rewrite decide_False by (by intros []).
  - by rewrite decide_True by congruence.
Qed.

Lemma changed_attrs_total o n attrs :
  Forall (λ attr, is_Some (o !! attr)) attrs →
  Forall (λ attr, is_Some (n !! attr)) attrs →
  ∃ l, changed_attrs o n attrs = Ok l.
Proof.
  induction attrs as [|a attrs IH]; intros Ho Hn; cbn [changed_attrs]; [eauto|].
  apply Forall_cons in Ho as [[vo Hvo] Ho]. apply Forall_cons in Hn as [[vn Hvn] Hn].
  destruct (IH Ho Hn) as [more Hmore]. unfold getitem.
  rewrite Hvo, Hvn, Hmore. cbn [mbind result_bind]. eauto.
Qed.

Lemma compute_update_step_spec old new m key m' :
  compute_update_step old new m key = Ok m' →
  ∃ o n, old !! key = Some o ∧ new !! key = Some n ∧
    m' = match differing o n with
         | [] => m
         | attrs => <[key := attrs]> m
         end.
Proof.
  unfold compute_update_step, getitem.
  destruct (old !! key) as [o|]; [|done].
  destruct (new !! key) as [n|]; [|done]. cbn [mbind result_bind].
  destruct (changed_attrs o n COURSE_ATTRS) as [attrs|] eqn:Hattrs; [|done].
  cbn [mbind result_bind]. intros [= <-]. exists o, n. split_and!; [done..|].
  apply changed_attrs_spec in Hattrs. unfold differing. rewrite <- Hattrs.
  by destruct attrs.
Qed.

Lemma compute_update_loop_lookup old new keys m0 m :
  for_each (compute_update_step old new) keys m0 = Ok m →
  ∀ key, m !! key =
    if decide (key ∈ keys) then
      match old !! key, new !! key with
      | Some o, Some n =>
          match differing o n with
          | [] => m0 !! key
          | attrs => Some attrs
          end
      | _, _ => m0 !! key
      end
    else m0 !! key.
Proof.
  revert m0. induction keys as [|k0 keys IH]; intros m0; cbn [for_each].
  { intros [= <-] key. by rewrite decide_False by apply not_elem_of_nil. }
  destruct (compute_update_step old new m0 k0) as [m1|] eqn:Hstep; [|done].
  cbn [mbind result_bind]. intros Hloop key.
  apply compute_update_step_spec in Hstep as (o0 & n0 & Ho0 & Hn0 & ->).
  rewrite (IH _ Hloop key). clear IH Hloop.
  destruct (decide (key = k0)) as [->|Hne].
  - rewrite (decide_True (P := k0 ∈ k0 :: keys)) by left. rewrite Ho0, Hn0.
    destruct (differing o0 n0) as [|a attrs] eqn:Hd.
    + by case_decide.
    + rewrite lookup_insert_eq. by case_decide.
  - assert (key ∈ k0 :: keys ↔ key ∈ keys) as Hiff by set_solver.
    assert ((match differing o0 n0 with
             | [] => m0
             | a :: attrs => <[k0 := a :: attrs]> m0
             end) !! key = m0 !! key) as ->.
    { destruct (differing o0 n0); [done|]. by rewrite lookup_insert_ne. }
    destruct (decide (key ∈ keys)).
    + by rewrite decide_True by (by apply Hiff).
    + by rewrite decide_False by (by rewrite Hiff).
Qed.

(** What a single-step diff contains. *)
Lemma compute_update_spec old new u :
  compute_update old new = Ok u →
  u_added u = elements (dom new ∖ dom old) ∧
  u_removed u = elements (dom old ∖ dom new) ∧
  ∀ key attrs, u_modified u !! key = Some attrs ↔
    ∃ o n, old !! key = Some o ∧ new !! key = Some n ∧
           differing o n = attrs ∧ attrs ≠ [].
Proof.
  unfold compute_update.
  destruct (for_each _ _ _) as [m|] eqn:Hloop; [|done].
  cbn [mbind result_bind]. intros [= <-]. cbn [u_added u_removed u_modified].
  split_and!; [done..|]. intros key attrs.
  rewrite (compute_update_loop_lookup _ _ _ _ _ Hloop key), lookup_empty.
  split.
  - case_decide as Hin; [|done].
    destruct (old !! key) as [o|]; [|done]. destruct (new !! key) as [n|]; [|done].
    destruct (differing o n) as [|a l] eqn:Hd; [done|]. intros [= <-]. by exists o, n.
  - intros (o & n & Ho & Hn & Hd & Hne).
    rewrite decide_True.
    + rewrite Ho, Hn, Hd. by destruct attrs.
    + apply elem_of_elements, elem_of_intersection. split; apply elem_of_dom; eauto.
Qed.

Lemma compute_update_total old new :
  wf_index old → wf_index new → ∃ u, compute_update old new = Ok u.
Proof.
  intros Hold Hnew. unfold compute_update.
  destruct (for_each_invariant (λ _, True)
              (compute_update_step old new)
              (elements (dom new ∩ dom old)) ∅) as (m & -> & _); [done| |eauto].
  intros m key [[n Hn]%elem_of_dom [o Ho]%elem_of_dom]%elem_of_elements%elem_of_intersection _.
  unfold compute_update_step, getitem. rewrite Ho, Hn. cbn [mbind result_bind].
  destruct (changed_attrs_total o n COURSE_ATTRS) as [l ->]; [..|cbn; eauto].
  - apply Forall_forall. intros a Ha. by eapply wf_course_tracked, Ha; eapply Hold.
  - apply Forall_forall. intros a Ha. by eapply wf_course_tracked, Ha; eapply Hnew.
Qed.



(** ** One step of the replay *)

(** The effect of replaying one Update Record whose assertions hold. *)
Lemma replay_update_ok since acc t u :
  t > since →
  NoDup (u_added u) → NoDup (u_removed u) →
  (∀ key, key ∈ dom (u_modified u) → key ∉ removed acc) →
  (∀ key, key ∈ u_added u →
     key ∉ dom (modified acc) ∧ key ∉ dom (u_modified u) ∧ key ∉ added acc) →
  (∀ key, key ∈ u_removed u → key ∉ removed acc) →
  ∃ acc', replay_update since acc (t, u) = Ok acc' ∧
    added acc' =
      (added acc ∪ (list_to_set (u_added u) ∖ removed acc)) ∖ list_to_set (u_removed u) ∧
    removed acc' =
      (removed acc ∖ list_to_set (u_added u)) ∪
      (list_to_set (u_removed u) ∖ (added acc ∪ (list_to_set (u_added u) ∖ removed acc))) ∧
    (∀ key, modified acc' !! key =
       if decide (key ∈ u_removed u) then None
       else if decide (key ∈ u_added u ∧ key ∈ removed acc)
       then Some (list_to_set COURSE_ATTRS)
       else match u_modified u !! key with
            | Some attrs => Some (default ∅ (modified acc !! key) ∪ list_to_set attrs)
            | None => modified acc !! key
            end).
Proof.
  intros Ht Hnda Hndr Hpm Hpa Hpr. unfold replay_update.
  rewrite decide_True by done.
  destruct (replay_modified_loop (map_to_list (u_modified u)) acc)
    as (acc1 & -> & Ha1 & Hr1 & Hin1 & Hout1).
  { apply NoDup_fst_map_to_list. }
  { intros key Hkey. apply Hpm. apply elem_of_dom.
    apply list_elem_of_fmap in Hkey as ([k attrs] & -> & Hmem).
    apply elem_of_map_to_list in Hmem. eauto. }
  cbn [mbind result_bind].
  assert (∀ key, modified acc1 !! key =
            match u_modified u !! key with
            | Some attrs => Some (default ∅ (modified acc !! key) ∪ list_to_set attrs)
            | None => modified acc !! key
            end) as Hm1.
  { intros key. destruct (u_modified u !! key) as [attrs|] eqn:Hl.
    - apply Hin1. by apply elem_of_map_to_list.
    - apply Hout1. intros ([k attrs] & -> & Hmem)%list_elem_of_fmap.
      apply elem_of_map_to_list in Hmem. simpl in Hl. congruence. }
  clear Hin1 Hout1.
  destruct (replay_added_loop (u_added u) acc1) as (acc2 & -> & Ha2 & Hr2 & Hm2).
  { done. }
  { intros key Hkey. destruct (Hpa key Hkey) as (Hk1 & Hk2 & Hk3).
    split; [|by rewrite Ha1].
    apply not_elem_of_dom. rewrite Hm1.
    apply not_elem_of_dom in Hk1, Hk2. by rewrite Hk2. }
  cbn [mbind result_bind].
  destruct (replay_removed_loop (u_removed u) acc2) as (acc3 & -> & Ha3 & Hr3 & Hm3).
  { done. }
  { intros key Hkey. rewrite Hr2, Hr1. specialize (Hpr key Hkey). set_solver. }
  exists acc3. split_and!; [done|..].
  - by rewrite Ha3, Ha2, Ha1, Hr1.
  - by rewrite Hr3, Hr2, Ha2, Ha1, Hr1.
  - intros key. rewrite Hm3. case_decide; [done|].
    rewrite Hm2, Hr1. case_decide; [done|]. apply Hm1.
Qed.

(** ** Histories of consecutive snapshots *)

(** [history idx0 us idxn]: the entries [us] are the Update Records of
    consecutive refreshes that lead from the index [idx0] to [idxn]. *)
Inductive history : gmap Key Course → list (Z * update) → gmap Key Course → Prop :=
  | history_nil idx : history idx [] idx
  | history_cons idx0 idx1 idxn t u us :
      compute_update idx0 idx1 = Ok u →
      history idx1 us idxn →
      history idx0 ((t, u) :: us) idxn.

Lemma history_snoc idx0 idx1 idx2 us t u :
  history idx0 us idx1 →
  compute_update idx1 idx2 = Ok u →
  history idx0 (us ++ [(t, u)]) idx2.
Proof.
  induction 1 as [idx|idx0 idx1 idxn t' u' us Hu Hh IH]; intros Hlast; simpl.
  - eapply history_cons; [done|constructor].
  - eapply history_cons; [done|]. by apply IH.
Qed.


(** The keys removed by some entry of a history. *)
Definition removed_keys (us : list (Z * update)) : gset Key :=
  ⋃ ((λ entry : Z * update, list_to_set (u_removed entry.2)) <$> us).

(** The invariant of the replay: the accumulators after the entries that
    lead from the index [base] to the index [idx]; [gone] are keys known to
    have been absent from some index in between. *)
Record replay_inv (base idx : gmap Key Course) (gone : gset Key) (acc : accum)
  : Prop := ReplayInv {
  inv_added : added acc = dom idx ∖ dom base;
  inv_removed : removed acc = dom base ∖ dom idx;
  inv_modified_dom : dom (modified acc) ⊆ dom idx;
  inv_tracked : ∀ key attrs, modified acc !! key = Some attrs →
                  attrs ⊆ list_to_set COURSE_ATTRS;
  inv_changed : ∀ key o n attr,
                  base !! key = Some o → idx !! key = Some n →
                  attr ∈ COURSE_ATTRS → o !! attr ≠ n !! attr →
                  ∃ attrs, modified acc !! key = Some attrs ∧ attr ∈ attrs;
  inv_round_trip : ∀ key, key ∈ gone → key ∈ dom base → key ∈ dom idx →
                     modified acc !! key = Some (list_to_set COURSE_ATTRS);
}.

Lemma replay_inv_init base : replay_inv base base ∅ empty_accum.
Proof.
  split; simpl; [set_solver..| |set_solver].
  intros key o n attr Ho Hn. rewrite Ho in Hn. by injection Hn as ->.
Qed.

Lemma differing_tracked o n attr : attr ∈ differing o n → attr ∈ COURSE_ATTRS.
Proof. unfold differing. by intros [_ ?]%list_elem_of_filter. Qed.

Lemma replay_inv_step base idx idx' gone acc since t u :
  replay_inv base idx gone acc →
  compute_update idx idx' = Ok u →
  t > since →
  ∃ acc', replay_update since acc (t, u) = Ok acc' ∧
          replay_inv base idx' (gone ∪ list_to_set (u_removed u)) acc'.
Proof.
  intros [HA HR HMdom Htr Hch Hrt] Hu Ht.
  destruct (compute_update_spec _ _ _ Hu) as (Hua & Hur & Hum).
  assert (∀ key, key ∈ dom (u_modified u) → key ∈ dom idx ∧ key ∈ dom idx') as Hudom.
  { intros key [attrs (o & n & Ho & Hn & _)%Hum]%elem_of_dom.
    split; apply elem_of_dom; eauto. }
  assert (list_to_set (u_added u) = dom idx' ∖ dom idx) as Hsa
    by (rewrite Hua; apply list_to_set_elements_L).
  assert (list_to_set (u_removed u) = dom idx ∖ dom idx') as Hsr
    by (rewrite Hur; apply list_to_set_elements_L).
  assert (∀ key, key ∈ u_added u ↔ key ∈ dom idx' ∧ key ∉ dom idx) as Hea.
  { intros key. rewrite Hua, elem_of_elements. set_solver. }
  assert (∀ key, key ∈ u_removed u ↔ key ∈ dom idx ∧ key ∉ dom idx') as Her.
  { intros key. rewrite Hur, elem_of_elements. set_solver. }
  destruct (replay_update_ok since acc t u) as (acc' & Hrun & HA' & HR' & HM'); [done|..].
  { rewrite Hua. apply NoDup_elements. }
  { rewrite Hur. apply NoDup_elements. }
  { intros key Hk%Hudom. rewrite HR. set_solver. }
  { intros key Hk%Hea. split_and!; [set_solver| |set_solver].
    intros Hd%Hudom. tauto. }
  { intros key Hk%Her. rewrite HR. set_solver. }
  exists acc'. split; [done|].
  assert (∀ key, key ∈ u_added u ∧ key ∈ removed acc ↔
                 key ∈ dom base ∧ key ∈ dom idx' ∧ key ∉ dom idx) as Hback.
  { intros key. rewrite Hea, HR. set_solver. }
  split.
  - rewrite HA', Hsa, Hsr, HA, HR. apply set_eq. intros key.
    rewrite !elem_of_difference, !elem_of_union, !elem_of_difference.
    destruct (decide (key ∈ dom base)), (decide (key ∈ dom idx)),
      (decide (key ∈ dom idx')); tauto.
  - rewrite HR', Hsa, Hsr, HA, HR. apply set_eq. intros key.
    rewrite !elem_of_union, !elem_of_difference, !elem_of_union, !elem_of_difference.
    destruct (decide (key ∈ dom base)), (decide (key ∈ dom idx)),
      (decide (key ∈ dom idx')); tauto.
  - intros key [attrs Hk]%elem_of_dom. rewrite HM' in Hk.
    case_decide as Hrem; [done|]. rewrite Her in Hrem.
    case_decide as Hb; [apply Hback in Hb; tauto|].
    destruct (u_modified u !! key) as [l|] eqn:Hl.
    + apply (Hudom key). apply elem_of_dom; eauto.
    + assert (key ∈ dom idx) by (apply HMdom, elem_of_dom; eauto).
      destruct (decide (key ∈ dom idx')); [done|tauto].
  - intros key attrs. rewrite HM'.
    case_decide; [done|]. case_decide; [by intros [= <-]|].
    destruct (u_modified u !! key) as [l|] eqn:Hl; [|apply Htr].
    intros [= <-]. apply Hum in Hl as (o & n & _ & _ & <- & _).
    intros attr [Hin|Hin]%elem_of_union.
    + destruct (modified acc !! key) as [attrs0|] eqn:Hold; simpl in Hin; [|set_solver].
      by eapply Htr.
    + apply elem_of_list_to_set in Hin. apply elem_of_list_to_set.
      by eapply differing_tracked.
  - intros key o n attr Ho Hn Hattr Hne. rewrite HM'.
    rewrite decide_False; [|rewrite Her; intros [_ Hno]; apply Hno, elem_of_dom; eauto].
    destruct (idx !! key) as [m|] eqn:Hm.
    + rewrite decide_False.
      2:{ rewrite Hback. intros (_ & _ & Hno). apply Hno, elem_of_dom; eauto. }
      destruct (decide (o !! attr = m !! attr)) as [Heq|Hne'].
      * assert (attr ∈ differing m n) as Hd.
        { apply list_elem_of_filter. split; [congruence|done]. }
        assert (u_modified u !! key = Some (differing m n)) as ->.
        { apply Hum. exists m, n. split_and!; [done..|]. by intros Hnil; rewrite Hnil in Hd;
            apply elem_of_nil in Hd. }
        eexists. split; [done|]. apply elem_of_union_r. by apply elem_of_list_to_set.
      * destruct (Hch key o m attr Ho Hm Hattr Hne') as (attrs0 & Hold & Hin).
        rewrite Hold. destruct (u_modified u !! key); eexists; (split; [done|]);
          simpl; set_solver.
    + rewrite decide_True.
      * eexists. split; [done|]. by apply elem_of_list_to_set.
      * apply Hback. split_and!; [apply elem_of_dom; eauto..|].
        by apply not_elem_of_dom.
  - intros key Hgone Hkb Hki. rewrite HM'.
    rewrite decide_False by (rewrite Her; tauto).
    destruct (decide (key ∈ dom idx)) as [Hin|Hout].
    + rewrite decide_False by (rewrite Hback; tauto).
      assert (key ∈ gone) as Hg.
      { apply elem_of_union in Hgone as [?|Hr]; [done|].
        apply elem_of_list_to_set, Her in Hr. tauto. }
      rewrite (Hrt key Hg Hkb Hin).
      destruct (u_modified u !! key) as [l|] eqn:Hl; [|done].
      apply Hum in Hl as (o & n & _ & _ & <- & _). simpl. f_equal.
      apply set_eq. intros attr. rewrite elem_of_union, !elem_of_list_to_set.
      split; [intros [?|?%differing_tracked]; done|tauto].
    + by rewrite decide_True by (rewrite Hback; tauto).
Qed.

(** ** Replaying a history *)

Lemma replay_skips_old since us acc :
  Forall (λ entry : Z * update, entry.1 ≤ since) us →
  for_each (replay_update since) us acc = Ok acc.
Proof.
  induction 1 as [|[t u] us Ht _ IH]; cbn [for_each]; [done|].
  simpl in Ht.
  assert (replay_update since acc (t, u) = Ok acc) as ->; [|apply IH].
  unfold replay_update. by rewrite decide_False by lia.
Qed.

Lemma replay_history base idx0 us idxn gone acc since :
  history idx0 us idxn →
  Forall (λ entry : Z * update, entry.1 > since) us →
  replay_inv base idx0 gone acc →
  ∃ acc', for_each (replay_update since) us acc = Ok acc' ∧
          replay_inv base idxn (gone ∪ removed_keys us) acc'.
Proof.
  intros Hh. revert gone acc.
  induction Hh as [idx|idx0 idx1 idxn t u us Hu Hh IH]; intros gone acc Hnew Hinv.
  - exists acc. split; [done|]. unfold removed_keys. simpl.
    by replace (gone ∪ ∅) with gone by set_solver.
  - apply Forall_cons in Hnew as [Ht Hnew]. simpl in Ht. cbn [for_each].
    destruct (replay_inv_step _ _ _ _ _ since t u Hinv Hu Ht) as (acc1 & -> & Hinv1).
    cbn [mbind result_bind].
    destruct (IH _ _ Hnew Hinv1) as (acc' & -> & Hinv').
    exists acc'. split; [done|].
    replace (gone ∪ removed_keys ((t, u) :: us))
      with (gone ∪ list_to_set (u_removed u) ∪ removed_keys us); [done|].
    unfold removed_keys. simpl. set_solver.
Qed.

(** ** Materialisation *)

Lemma map_res_spec {X Y} (R : X → Y → Prop) (f : X → res Y) xs :
  (∀ x, x ∈ xs → ∃ y, f x = Ok y ∧ R x y) →
  ∃ ys, map_res f xs = Ok ys ∧ Forall2 R xs ys.
Proof.
  unfold map_res. intros Hf.
  enough (∀ ys0, ∃ ys, for_each (λ ys x, y ← f x; Ok (ys ++ [y])) xs ys0
                        = Ok (ys0 ++ ys) ∧ Forall2 R xs ys) as Hgen.
  { destruct (Hgen []) as (ys & Hrun & HR). by exists ys. }
  induction xs as [|x xs IH]; intros ys0; cbn [for_each].
  { exists []. split; [by rewrite app_nil_r|constructor]. }
  destruct (Hf x) as (y & -> & Hxy); [left|]. cbn [mbind result_bind].
  destruct IH with (ys0 := ys0 ++ [y]) as (ys & -> & HR).
  { intros x' Hx'. apply Hf. by right. }
  exists (y :: ys). split; [by rewrite <- app_assoc|by constructor].
Qed.

Lemma partial_course_spec (current_course : Course) attrs :
  (∀ attr, attr ∈ attrs → is_Some (current_course !! attr)) →
  ∃ course, partial_course current_course attrs = Ok course ∧
    ∀ attr, course !! attr =
      if decide (attr ∈ attrs) then current_course !! attr else None.
Proof.
  unfold partial_course. intros Hsome.
  enough (∀ c0 : Course, ∃ course,
            for_each (λ course attr, v ← getitem current_course attr;
                                     Ok (<[attr := v]> course)) attrs c0 = Ok course ∧
            ∀ attr, course !! attr =
              if decide (attr ∈ attrs) then current_course !! attr else c0 !! attr)
    as Hgen.
  { destruct (Hgen ∅) as (course & Hrun & Hl). exists course. split; [done|].
    intros attr. rewrite Hl. by rewrite lookup_empty. }
  induction attrs as [|a attrs IH]; intros c0; cbn [for_each].
  { exists c0. split; [done|]. intros attr.
    by rewrite decide_False by apply not_elem_of_nil. }
  destruct (Hsome a) as [v Hv]; [left|].
  assert (getitem current_course a = Ok v) as -> by (unfold getitem; by rewrite Hv).
  cbn [mbind result_bind].
  destruct IH with (c0 := <[a := v]> c0) as (course & -> & Hl).
  { intros attr Hattr. apply Hsome. by right. }
  exists course. split; [done|]. intros attr. rewrite Hl.
  destruct (decide (attr = a)) as [->|Hne].
  - rewrite lookup_insert_eq. rewrite (decide_True (P := a ∈ a :: attrs)) by left.
    by case_decide.
  - rewrite lookup_insert_ne by done.
    destruct (decide (attr ∈ attrs)).
    + by rewrite decide_True by (by right).
    + by rewrite decide_False by set_solver.
Qed.

(** [describes idx acc d]: the payload [d] lists, for the keys of the
    accumulators [acc], the full current record (added), the identity-only
    placeholder (removed) and the current record cut down to the identity
    attributes and the accumulated changed attributes (modified). *)
Definition describes (idx : gmap Key Course) (acc : accum) (d : diff) : Prop :=
  Forall2 (λ key course, idx !! key = Some course)
          (elements (added acc)) (added_courses d) ∧
  removed_courses d = course_from_index_key <$> elements (removed acc) ∧
  Forall2 (λ (item : Key * gset string) course,
             ∃ current_course, idx !! item.1 = Some current_course ∧
               ∀ attr, course !! attr =
                 if decide (attr ∈ COURSE_INDEX_ATTRS ∨ attr ∈ item.2)
                 then current_course !! attr else None)
          (map_to_list (modified acc)) (modified_courses d).

Lemma materialize_ok idx acc :
  wf_index idx →
  added acc ⊆ dom idx →
  dom (modified acc) ⊆ dom idx →
  (∀ key attrs, modified acc !! key = Some attrs → attrs ⊆ list_to_set COURSE_ATTRS) →
  ∃ d, materialize (Some idx) acc = Ok d ∧ describes idx acc d.
Proof.
  intros Hwf Ha Hm Htr. unfold materialize.
  destruct (map_res_spec (λ key course, idx !! key = Some course)
              (index_getitem (Some idx)) (elements (added acc)))
    as (cs_added & -> & Hadded).
  { intros key Hkey%elem_of_elements%Ha%elem_of_dom. destruct Hkey as [c Hc].
    exists c. simpl. unfold getitem. by rewrite Hc. }
  cbn [mbind result_bind].
  destruct (map_res_spec
              (λ (item : Key * gset string) course,
                 ∃ current_course, idx !! item.1 = Some current_course ∧
                   ∀ attr, course !! attr =
                     if decide (attr ∈ COURSE_INDEX_ATTRS ∨ attr ∈ item.2)
                     then current_course !! attr else None)
              (modified_course (Some idx)) (map_to_list (modified acc)))
    as (cs_modified & -> & Hmodified).
  { intros [key attrs] Hitem%elem_of_map_to_list.
    assert (key ∈ dom idx) as [cur Hcur]%elem_of_dom by (apply Hm, elem_of_dom; eauto).
    unfold modified_course, index_getitem, getitem. cbn beta iota. rewrite Hcur.
    cbn [mbind result_bind fst snd].
    destruct (partial_course_spec cur (COURSE_INDEX_ATTRS ++ elements attrs))
      as (course & -> & Hl).
    { intros attr [Hi|Ht]%elem_of_app.
      - eapply wf_course_identity; [by eapply Hwf|done].
      - eapply wf_course_tracked; [by eapply Hwf|].
        apply elem_of_elements in Ht. apply (Htr _ _ Hitem) in Ht.
        by apply elem_of_list_to_set in Ht. }
    exists course. split; [done|]. exists cur. split; [done|].
    intros attr. rewrite Hl.
    destruct (decide (attr ∈ COURSE_INDEX_ATTRS ++ elements attrs)) as [Hin|Hout].
    - rewrite decide_True; [done|]. apply elem_of_app in Hin. set_solver.
    - rewrite decide_False; [done|]. rewrite elem_of_app in Hout. set_solver. }
  cbn [mbind result_bind]. eexists. split; [done|]. by split_and!.
Qed.

(** ** Sequences of refreshes *)

(** The arguments of one call of [update_course_data]. *)
Record refresh : Type := Refresh {
  r_timestamp : Z;
  r_courses : list Course;
  r_index : gmap Key Course;
  r_malformed : list Value;
}.

Definition apply_refresh (cd : course_data_t) (r : refresh) : res course_data_t :=
  update_course_data (r_timestamp r) (r_courses r) (r_index r) (r_malformed r) cd.

(** Successive calls of [update_course_data], oldest first. *)
Definition apply_refreshes (rs : list refresh) (cd : course_data_t) : res course_data_t :=
  for_each apply_refresh rs cd.

(** The complete, untruncated log of the refreshes [rs] applied to a store
    whose index is [last_index]: one entry per refresh. *)
Fixpoint update_log (last_index : gmap Key Course) (rs : list refresh)
  : res (list (Z * update)) :=
  match rs with
  | [] => Ok []
  | r :: rs' =>
      u ← compute_update last_index (r_index r);
      log ← update_log (r_index r) rs';
      Ok ((r_timestamp r, u) :: log)
  end.

(** The index after the refreshes [rs]. *)
Definition final_index (idx0 : gmap Key Course) (rs : list refresh) : gmap Key Course :=
  default idx0 (r_index <$> last rs).

(** The last [n] elements of a list. *)
Definition last_n {A} (n : nat) (l : list A) : list A := drop (length l - n) l.

Lemma truncate_updates_last_n us : truncate_updates us = last_n MAX_UPDATES_SAVED us.
Proof.
  unfold truncate_updates, last_n. case_decide as Hlen; [done|].
  by replace (length us - MAX_UPDATES_SAVED)%nat with 0%nat by lia.
Qed.

Lemma length_last_n {A} n (l : list A) : length (last_n n l) = (length l `min` n)%nat.
Proof. unfold last_n. rewrite length_drop. lia. Qed.

Lemma last_n_all {A} n (l : list A) : (length l ≤ n)%nat → last_n n l = l.
Proof. intros. unfold last_n. by replace (length l - n)%nat with 0%nat by lia. Qed.

Lemma last_n_last_n_app {A} n (l l' : list A) :
  last_n n (last_n n l ++ l') = last_n n (l ++ l').
Proof.
  destruct (decide (length l ≤ n)%nat) as [Hle|Hgt].
  { by rewrite (last_n_all n l). }
  unfold last_n at 1 3. rewrite !length_app, length_last_n.
  replace (length l `min` n + length l' - n)%nat with (length l')%nat by lia.
  replace (length l + length l' - n)%nat
    with ((length l - n) + length l')%nat by lia.
  rewrite <- drop_drop. rewrite (drop_app_le l l' (length l - n)) by lia.
  done.
Qed.

Lemma last_n_app_r {A} n (l1 l2 : list A) :
  (length l2 ≤ n)%nat → ∃ l1', last_n n (l1 ++ l2) = l1' ++ l2 ∧ l1' = last_n (n - length l2) l1.
Proof.
  intros Hlen. exists (last_n (n - length l2) l1). split; [|done].
  unfold last_n. rewrite length_app.
  replace (length l1 + length l2 - n)%nat with (length l1 - (n - length l2))%nat by lia.
  apply drop_app_le. lia.
Qed.

Lemma final_index_cons idx0 r rs :
  final_index idx0 (r :: rs) = final_index (r_index r) rs.
Proof.
  unfold final_index. destruct rs as [|r' rs]; [done|].
  rewrite last_cons. by destruct (last (r' :: rs)).
Qed.

(** The log is a history from the first index to the last. *)
Lemma update_log_history idx0 rs log :
  update_log idx0 rs = Ok log →
  history idx0 log (final_index idx0 rs) ∧ log.*1 = r_timestamp <$> rs.
Proof.
  revert idx0 log. induction rs as [|r rs IH]; intros idx0 log; cbn [update_log].
  { intros [= <-]. split; [constructor|done]. }
  destruct (compute_update idx0 (r_index r)) as [u|] eqn:Hu; [|done].
  cbn [mbind result_bind].
  destruct (update_log (r_index r) rs) as [log'|] eqn:Hlog; [|done].
  cbn [mbind result_bind]. intros [= <-].
  destruct (IH _ _ Hlog) as [Hh Hts]. rewrite final_index_cons. split.
  - by eapply history_cons.
  - rewrite !fmap_cons. by rewrite Hts.
Qed.

Lemma update_log_total idx0 rs :
  wf_index idx0 → Forall (λ r, wf_index (r_index r)) rs →
  ∃ log, update_log idx0 rs = Ok log.
Proof.
  intros Hwf0 Hwf. revert idx0 Hwf0.
  induction Hwf as [|r rs Hr _ IH]; intros idx0 Hwf0; cbn [update_log]; [eauto|].
  destruct (compute_update_total idx0 (r_index r)) as [u ->]; [done..|].
  destruct (IH _ Hr) as [log ->]. cbn. eauto.
Qed.

Lemma apply_refresh_initialized cd0 idx0 r :
  index cd0 = Some idx0 →
  apply_refresh cd0 r =
    u ← compute_update idx0 (r_index r);
    Ok {| current := Some (r_courses r);
          index := Some (r_index r);
          initial_timestamp := initial_timestamp cd0;
          updates := truncate_updates (updates cd0 ++ [(r_timestamp r, u)]);
          timestamp := Some (r_timestamp r);
          malformed := Some (r_malformed r) |}.
Proof.
  intros Hidx. unfold apply_refresh, update_course_data. rewrite Hidx.
  by destruct (compute_update idx0 (r_index r)).
Qed.

Lemma apply_refresh_uninitialized cd0 r :
  index cd0 = None →
  apply_refresh cd0 r =
    Ok {| current := Some (r_courses r);
          index := Some (r_index r);
          initial_timestamp := Some (r_timestamp r);
          updates := updates cd0;
          timestamp := Some (r_timestamp r);
          malformed := Some (r_malformed r) |}.
Proof. intros Hidx. unfold apply_refresh, update_course_data. by rewrite Hidx. Qed.

(** Refreshing an initialised store appends the log and keeps the last
    [MAX_UPDATES_SAVED] entries. *)
Lemma apply_refreshes_initialized cd0 idx0 rs cd :
  index cd0 = Some idx0 →
  apply_refreshes rs cd0 = Ok cd →
  ∃ log, update_log idx0 rs = Ok log ∧
    updates cd = match rs with
                 | [] => updates cd0
                 | _ :: _ => last_n MAX_UPDATES_SAVED (updates cd0 ++ log)
                 end ∧
    index cd = Some (final_index idx0 rs) ∧
    initial_timestamp cd = initial_timestamp cd0.
Proof.
  unfold apply_refreshes. revert cd0 idx0.
  induction rs as [|r rs IH]; intros cd0 idx0 Hidx; cbn [for_each update_log].
  { intros [= <-]. by exists []. }
  rewrite (apply_refresh_initialized _ _ _ Hidx).
  destruct (compute_update idx0 (r_index r)) as [u|] eqn:Hu; [|done].
  cbn [mbind result_bind]. intros Hrest.
  apply IH with (idx0 := r_index r) in Hrest as (log & Hlog & Hups & Hidx' & Hinit);
    [|done].
  rewrite Hlog. cbn [mbind result_bind]. eexists. split; [done|].
  cbn [updates initial_timestamp] in Hups, Hinit.
  rewrite final_index_cons. split_and!; [|done..].
  rewrite Hups, truncate_updates_last_n. destruct rs as [|r' rs].
  - cbn [update_log] in Hlog. by injection Hlog as <-.
  - rewrite last_n_last_n_app. by rewrite <- app_assoc.
Qed.

Lemma apply_refreshes_total cd0 idx0 rs log :
  index cd0 = Some idx0 →
  update_log idx0 rs = Ok log →
  ∃ cd, apply_refreshes rs cd0 = Ok cd.
Proof.
  unfold apply_refreshes. revert cd0 idx0 log.
  induction rs as [|r rs IH]; intros cd0 idx0 log Hidx; cbn [for_each update_log];
    [eauto|].
  rewrite (apply_refresh_initialized _ _ _ Hidx).
  destruct (compute_update idx0 (r_index r)) as [u|]; [|done].
  cbn [mbind result_bind].
  destruct (update_log (r_index r) rs) as [log'|] eqn:Hlog; [|done]. intros _.
  by eapply IH.
Qed.

Lemma final_index_wf idx0 rs :
  wf_index idx0 → Forall (λ r, wf_index (r_index r)) rs →
  wf_index (final_index idx0 rs).
Proof.
  intros Hwf0 Hwf. unfold final_index.
  destruct (last rs) as [r|] eqn:Hlast; [|done]. simpl.
  rewrite Forall_forall in Hwf. apply Hwf. rewrite last_Some in Hlast.
  destruct Hlast as [rs' ->]. set_solver.
Qed.

Lemma removed_keys_elem key us :
  key ∈ removed_keys us ↔ ∃ t u, (t, u) ∈ us ∧ key ∈ u_removed u.
Proof.
  unfold removed_keys. rewrite elem_of_union_list. split.
  - intros (X & HX & Hkey). apply list_elem_of_fmap in HX as ([t u] & -> & Hin).
    exists t, u. split; [done|]. by apply elem_of_list_to_set in Hkey.
  - intros (t & u & Hin & Hkey). exists (list_to_set (u_removed u)). split.
    + apply list_elem_of_fmap. by exists (t, u).
    + by apply elem_of_list_to_set.
Qed.

(** The replay after refreshes that all fall within the retained window:
    the entries older than [since] are skipped and the others lead from the
    index at [since] to the current one. *)
Lemma replay_after_refreshes cd0 idx0 rs since :
  index cd0 = Some idx0 →
  wf_index idx0 →
  Forall (λ entry : Z * update, entry.1 ≤ since) (updates cd0) →
  Forall (λ r, since < r_timestamp r) rs →
  Forall (λ r, wf_index (r_index r)) rs →
  (length rs ≤ MAX_UPDATES_SAVED)%nat →
  ∃ cd log acc d,
    apply_refreshes rs cd0 = Ok cd ∧
    index cd = Some (final_index idx0 rs) ∧
    (∃ old, updates cd = old ++ log ∧
            Forall (λ entry : Z * update, entry.1 ≤ since) old) ∧
    replay (updates cd) since = Ok acc ∧
    replay_inv idx0 (final_index idx0 rs) (removed_keys log) acc ∧
    compute_diff cd since = Ok d ∧
    describes (final_index idx0 rs) acc d.
Proof.
  intros Hidx Hwf0 Hold Hnew Hwf Hlen.
  destruct (update_log_total idx0 rs Hwf0 Hwf) as [log Hlog].
  destruct (apply_refreshes_total _ _ _ _ Hidx Hlog) as [cd Hcd].
  destruct (apply_refreshes_initialized _ _ _ _ Hidx Hcd)
    as (log' & Hlog' & Hups & Hidx' & _).
  rewrite Hlog in Hlog'. injection Hlog' as <-.
  destruct (update_log_history _ _ _ Hlog) as [Hhist Hts].
  assert (length log = length rs) as Hloglen.
  { by rewrite <- (length_fmap fst log), Hts, length_fmap. }
  assert (∃ old, updates cd = old ++ log ∧
                 Forall (λ entry : Z * update, entry.1 ≤ since) old)
    as (old & Hsplit & Holdest).
  { rewrite Hups. destruct rs as [|r rs].
    - destruct log; [|done]. exists (updates cd0). by rewrite app_nil_r.
    - destruct (last_n_app_r MAX_UPDATES_SAVED (updates cd0) log) as (old & -> & ->);
        [lia|].
      eexists. split; [done|]. by apply Forall_drop. }
  assert (Forall (λ entry : Z * update, entry.1 > since) log) as Hlognew.
  { apply Forall_fmap with (f := fst) (P := λ t, t > since).
    rewrite Hts. apply Forall_fmap. eapply Forall_impl; [exact Hnew|].
    simpl. intros. lia. }
  destruct (replay_history idx0 idx0 log _ ∅ empty_accum since Hhist Hlognew
              (replay_inv_init idx0)) as (acc & Hacc & Hinv).
  replace (∅ ∪ removed_keys log) with (removed_keys log) in Hinv by set_solver.
  assert (replay (updates cd) since = Ok acc) as Hreplay.
  { unfold replay. rewrite Hsplit, for_each_app.
    rewrite replay_skips_old by done. done. }
  destruct (materialize_ok (final_index idx0 rs) acc) as (d & Hd & Hdesc).
  - by apply final_index_wf.
  - rewrite (inv_added _ _ _ _ Hinv). set_solver.
  - apply (inv_modified_dom _ _ _ _ Hinv).
  - apply (inv_tracked _ _ _ _ Hinv).
  - exists cd, log, acc, d. split_and!; try done; [by exists old|].
    unfold compute_diff. rewrite Hreplay, Hidx'. done.
Qed.

(** ** Nothing newer than [since] *)

(** C10: when no retained entry is newer than [since], the replay touches
    nothing and [compute_diff since] returns three empty lists. *)
Theorem compute_diff_nothing_newer cd since :
  Forall (λ entry : Z * update, entry.1 ≤ since) (updates cd) →
  replay (updates cd) since = Ok empty_accum ∧
  compute_diff cd since =
    Ok {| added_courses := []; removed_courses := []; modified_courses := [] |}.
Proof.
  intros Hold.
  assert (replay (updates cd) since = Ok empty_accum) as Hreplay
    by (by apply replay_skips_old).
  split; [done|]. unfold compute_diff. rewrite Hreplay. cbn [mbind result_bind].
  unfold materialize, empty_accum. cbn [added removed modified].
  by rewrite elements_empty, map_to_list_empty.
Qed.

(** ** Stores reached by refreshes in timestamp order *)





(** A successful refresh installs the new courses, index, timestamp and
    malformed records. *)
Lemma apply_refresh_fields cd r cd' :
  apply_refresh cd r = Ok cd' →
  current cd' = Some (r_courses r) ∧
  index cd' = Some (r_index r) ∧
  timestamp cd' = Some (r_timestamp r) ∧
  malformed cd' = Some (r_malformed r).
Proof.
  unfold apply_refresh, update_course_data.
  destruct (index cd); [destruct (compute_update _ _); [|done]|];
    cbn; by intros [= <-].
Qed.

Lemma apply_refreshes_last_fields r0 rs cd0 cd :
  apply_refreshes (r0 :: rs) cd0 = Ok cd →
  current cd = Some (r_courses (default r0 (last rs))) ∧
  timestamp cd = Some (r_timestamp (default r0 (last rs))) ∧
  malformed cd = Some (r_malformed (default r0 (last rs))).
Proof.
  intros Hcd.
  assert (∃ rs' r, r0 :: rs = rs' ++ [r] ∧ default r0 (last rs) = r)
    as (rs' & r & Hsplit & ->).
  { destruct (last rs) as [r|] eqn:Hlast.
    - apply last_Some in Hlast as [rs' ->]. by exists (r0 :: rs'), r.
    - apply last_None in Hlast as ->. by exists [], r0. }
  rewrite Hsplit in Hcd. unfold apply_refreshes in Hcd.
  rewrite for_each_app in Hcd.
  destruct (for_each apply_refresh rs' cd0) as [cd1|]; [|done].
  cbn in Hcd. destruct (apply_refresh cd1 r) as [cd2|] eqn:Hlast; [|done].
  injection Hcd as ->. apply apply_refresh_fields in Hlast. tauto.
Qed.

(** What the store holds after at least one refresh of the empty store. *)
Lemma apply_refreshes_from_initial r0 rs cd :
  apply_refreshes (r0 :: rs) initial_course_data = Ok cd →
  ∃ log,
    update_log (r_index r0) rs = Ok log ∧
    updates cd = last_n MAX_UPDATES_SAVED log ∧
    index cd = Some (final_index (r_index r0) rs) ∧
    initial_timestamp cd = Some (r_timestamp r0).
Proof.
  unfold apply_refreshes. cbn [for_each].
  rewrite apply_refresh_uninitialized by done. cbn [mbind result_bind].
  set (cd1 := CourseData _ _ _ _ _ _). intros Hcd.
  destruct (apply_refreshes_initialized cd1 (r_index r0) rs cd eq_refl Hcd)
    as (log & Hlog & Hups & Hidx & Hinit).
  exists log. split_and!; try done.
  rewrite Hups. destruct rs; [|done].
  cbn in Hlog. by injection Hlog as <-.
Qed.




(** ** Disjointness *)


(** ** The bounded history *)

(** The entries that the refreshes [rs] produce on a store whose index is
    [last_index]: the first refresh of an empty store produces none. *)
Definition produced_log (last_index : option (gmap Key Course)) (rs : list refresh)
  : res (list (Z * update)) :=
  match last_index, rs with
  | Some idx, _ => update_log idx rs
  | None, [] => Ok []
  | None, r :: rs' => update_log (r_index r) rs'
  end.

Lemma last_n_app_ge {A} n (l1 l2 : list A) :
  (n ≤ length l2)%nat → last_n n (l1 ++ l2) = last_n n l2.
Proof.
  intros Hlen. unfold last_n. rewrite length_app.
  replace (length l1 + length l2 - n)%nat
    with (length l1 + (length l2 - n))%nat by lia.
  by rewrite drop_app_add.
Qed.

Lemma apply_refreshes_log cd0 rs cd :
  (length (updates cd0) ≤ MAX_UPDATES_SAVED)%nat →
  apply_refreshes rs cd0 = Ok cd →
  ∃ log, produced_log (index cd0) rs = Ok log ∧
         updates cd = last_n MAX_UPDATES_SAVED (updates cd0 ++ log).
Proof.
  intros Hlen Hcd. destruct (index cd0) as [idx0|] eqn:Hidx.
  - destruct (apply_refreshes_initialized _ _ _ _ Hidx Hcd) as (log & Hlog & Hups & _).
    exists log. split; [done|]. rewrite Hups. destruct rs; [|done].
    cbn in Hlog. injection Hlog as <-. rewrite app_nil_r. by rewrite last_n_all.
  - destruct rs as [|r rs]; cbn [produced_log].
    + injection Hcd as <-. exists []. split; [done|].
      rewrite app_nil_r. by rewrite last_n_all.
    + unfold apply_refreshes in Hcd. cbn [for_each] in Hcd.
      rewrite apply_refresh_uninitialized in Hcd by done.
      cbn [mbind result_bind] in Hcd. revert Hcd.
      set (cd1 := CourseData _ _ _ _ _ _). intros Hcd.
      destruct (apply_refreshes_initialized cd1 (r_index r) rs cd eq_refl Hcd)
        as (log & Hlog & Hups & _).
      exists log. split; [done|]. rewrite Hups. destruct rs; [|done].
      cbn in Hlog. injection Hlog as <-. rewrite app_nil_r. by rewrite last_n_all.
Qed.

(** C5: the history never holds more than [MAX_UPDATES_SAVED] = 100
    entries, neither at the end nor after any prefix of the refreshes, and
    it consists of the last 100 entries of the complete log, oldest first;
    once more than 100 entries have been produced it holds exactly the 100
    most recent of them. *)
Theorem history_is_bounded cd0 rs cd :
  (length (updates cd0) ≤ MAX_UPDATES_SAVED)%nat →
  apply_refreshes rs cd0 = Ok cd →
  (∀ rs1 rs2, rs = rs1 ++ rs2 →
     ∃ cd1, apply_refreshes rs1 cd0 = Ok cd1 ∧
            (length (updates cd1) ≤ 100)%nat) ∧
  ∃ log, produced_log (index cd0) rs = Ok log ∧
    updates cd = drop (length (updates cd0 ++ log) - 100) (updates cd0 ++ log) ∧
    ((100 < length log)%nat →
       updates cd = drop (length log - 100) log ∧ length (updates cd) = 100%nat).
Proof.
  intros Hlen Hcd. split.
  - intros rs1 rs2 ->. unfold apply_refreshes in Hcd. rewrite for_each_app in Hcd.
    destruct (for_each apply_refresh rs1 cd0) as [cd1|] eqn:Hcd1; [|done].
    exists cd1. split; [done|].
    destruct (apply_refreshes_log _ _ _ Hlen Hcd1) as (log & _ & ->).
    rewrite length_last_n. unfold MAX_UPDATES_SAVED. lia.
  - destruct (apply_refreshes_log _ _ _ Hlen Hcd) as (log & Hlog & Hups).
    exists log. split_and!; [done..|]. intros Hmore.
    rewrite Hups, last_n_app_ge by (unfold MAX_UPDATES_SAVED; lia).
    split; [done|]. rewrite length_last_n. unfold MAX_UPDATES_SAVED. lia.
Qed.

(** ** The read operations *)


(** ** Routing of the diff request *)

Lemma strip_prefix_app pattern rest :
  strip_prefix pattern (pattern +:+ rest) = Some rest.
Proof.
  induction pattern as [|a pattern IH]; simpl; [done|].
  by rewrite decide_True.
Qed.

Lemma do_GET_courses_since rest w :
  do_GET ("/api/v2/courses-since/" +:+ rest) w =
    match match_timestamp rest with
    | Some group => (get_courses_since group (course_data w), w)
    | None => (SendError NOT_FOUND, w)
    end.
Proof.
  unfold do_GET. destruct (decide _) as [Heq|_]; [discriminate Heq|].
  assert (strip_prefix "/api/v2/all-courses" ("/api/v2/courses-since/" +:+ rest) = None)
    as -> by reflexivity.
  rewrite strip_prefix_app. cbn [mbind option_bind].
  destruct (match_timestamp rest); [done|].
  assert (strip_prefix "/api/v2/malformed-courses" ("/api/v2/courses-since/" +:+ rest)
          = None) as -> by reflexivity.
  assert (strip_prefix "/experimental/course-data" ("/api/v2/courses-since/" +:+ rest)
          = None) as -> by reflexivity.
  done.
Qed.

Lemma do_GET_state path w : (do_GET path w).2 = w.
Proof.
  unfold do_GET. repeat (case_decide || case_match); done.
Qed.

(** C8 (as amended): a diff request whose timestamp segment, the leading
    run of digits and minus signs after [/api/v2/courses-since/], is not an
    integer literal is answered with 400 (bad request); when that run is
    empty, as for [abc], the route does not match and the answer is 404
    (not found); no [GET] request changes the state. *)
Theorem unparsable_timestamp_is_client_error :
  (∀ path w, (do_GET path w).2 = w) ∧
  (∀ rest w e,
     timestamp_run rest ≠ "" →
     int (timestamp_run rest) = Raise e →
     do_GET ("/api/v2/courses-since/" +:+ rest) w = (SendError BAD_REQUEST, w)) ∧
  (∀ rest w,
     timestamp_run rest = "" →
     do_GET ("/api/v2/courses-since/" +:+ rest) w = (SendError NOT_FOUND, w)).
Proof.
  split_and!.
  - apply do_GET_state.
  - intros rest w e Hrun Hint. rewrite do_GET_courses_since. unfold match_timestamp.
    destruct (timestamp_run rest) as [|a run] eqn:Hr; [done|].
    unfold get_courses_since. by rewrite Hint.
  - intros rest w Hrun. rewrite do_GET_courses_since. unfold match_timestamp.
    by rewrite Hrun.
Qed.

(** ** Deduplication *)

(** A course carries a non-empty (truthy) code suffix. *)
Definition has_suffix (course : Course) : Prop :=
  ∃ v, course !! "courseCodeSuffix" = Some v ∧ truthy v = true.

Lemma group_append_keys groups key i :
  (group_append groups key i).*1 =
    if decide (key ∈ groups.*1) then groups.*1 else groups.*1 ++ [key].
Proof.
  induction groups as [|[k members] groups IH]; cbn [group_append].
  { by rewrite decide_False by apply not_elem_of_nil. }
  destruct (decide (k = key)) as [->|Hne]; rewrite !fmap_cons; cbn [fst].
  - by rewrite decide_True by left.
  - rewrite IH. destruct (decide (key ∈ groups.*1)).
    + by rewrite decide_True by (by right).
    + by rewrite decide_False by (apply not_elem_of_cons; done).
Qed.

Lemma elem_of_group_append groups key i k' members' :
  NoDup groups.*1 →
  (k', members') ∈ group_append groups key i ↔
    (k' ≠ key ∧ (k', members') ∈ groups) ∨
    (k' = key ∧ ((∃ members, (key, members) ∈ groups ∧ members' = members ++ [i]) ∨
                 (key ∉ groups.*1 ∧ members' = [i]))).
Proof.
  induction groups as [|[k members] groups IH]; intros Hnd; cbn [group_append].
  { rewrite list_elem_of_singleton. split; [|set_solver].
    intros [= -> ->]. right. split; [done|]. right. split; [apply not_elem_of_nil|done]. }
  rewrite fmap_cons in Hnd. apply NoDup_cons in Hnd as [Hk Hnd]. cbn [fst] in Hk.
  assert (∀ m, (k, m) ∉ groups) as Hfresh.
  { intros m Hin. apply Hk. apply list_elem_of_fmap. by exists (k, m). }
  destruct (decide (k = key)) as [->|Hne].
  - rewrite !elem_of_cons, fmap_cons, not_elem_of_cons. cbn [fst]. split.
    + intros [Heq|Hin].
      * injection Heq as -> ->. right. split; [done|]. left.
        exists members. split; [by left|done].
      * left. split; [|by right]. intros ->. by eapply Hfresh.
    + intros [[Hne [Heq|Hin]]|[-> Hcases]].
      * by injection Heq as -> ->.
      * by right.
      * left. destruct Hcases as [(m & Hin & ->)|[[Hnotin _] _]]; [|done].
        apply elem_of_cons in Hin as [Heq|Hin]; [by injection Heq as ->|].
        by apply Hfresh in Hin.
  - rewrite elem_of_cons, (IH Hnd). rewrite !elem_of_cons, fmap_cons, not_elem_of_cons.
    cbn [fst]. split.
    + intros [Heq|[[Hne' Hin]|[-> Hcases]]].
      * injection Heq as -> ->. left. split; [done|by left].
      * left. split; [done|by right].
      * right. split; [done|]. destruct Hcases as [(m & Hin & ->)|[Hnotin ->]].
        -- left. exists m. split; [by right|done].
        -- right. done.
    + intros [[Hne' [Heq|Hin]]|[-> Hcases]].
      * by left.
      * right. left. done.
      * right. right. split; [done|].
        destruct Hcases as [(m & Hin & ->)|[[_ Hnotin] ->]]; [|by right].
        apply elem_of_cons in Hin as [Heq|Hin]; [by injection Heq|].
        left. by exists m.
Qed.

Lemma key_has_suffix_attr c key :
  course_to_index_key c = Ok key → is_Some (c !! "courseCodeSuffix").
Proof.
  unfold course_to_index_key, COURSE_INDEX_ATTRS. cbn [read_attrs]. unfold getitem.
  destruct (c !! "department"); [|done].
  destruct (c !! "courseNumber"); [|done].
  destruct (c !! "courseCodeSuffix"); [eauto|done].
Qed.

(** The check of one group either passes, and then no member carries a
    suffix, or stops at the first member that does: it raises the
    disambiguation error for it, or what rendering its code raises. *)
Lemma check_no_suffix_loop heap members :
  (∀ i, i ∈ members → ∃ c, heap !! i = Some c ∧ is_Some (c !! "courseCodeSuffix")) →
  (for_each (check_no_suffix heap) members () = Ok () ∧
   ∀ i c, i ∈ members → heap !! i = Some c → ¬ has_suffix c) ∨
  (∃ r i c, members !! r = Some i ∧ heap !! i = Some c ∧ has_suffix c ∧
     (∀ r' i' c', (r' < r)%nat → members !! r' = Some i' → heap !! i' = Some c' →
        ¬ has_suffix c') ∧
     for_each (check_no_suffix heap) members () =
       (code ← format_course_code c; Raise (ScrapeError (DuplicateWithSuffix c)))).
Proof.
  induction members as [|i members IH]; intros Hpre; cbn [for_each].
  { left. split; [done|]. intros i c []%elem_of_nil. }
  destruct (Hpre i) as (c & Hc & [v Hv]); [left|].
  assert (check_no_suffix heap () i =
            if truthy v
            then code ← format_course_code c; Raise (ScrapeError (DuplicateWithSuffix c))
            else Ok ()) as ->.
  { unfold check_no_suffix. rewrite Hc. unfold getitem. by rewrite Hv. }
  destruct (truthy v) eqn:Htruthy.
  - right. exists 0%nat, i, c. split_and!; [done..|by exists v|lia|].
    by destruct (format_course_code c).
  - cbn [mbind result_bind].
    assert (¬ has_suffix c) as Hnone by (intros (v' & Hv' & Ht); congruence).
    destruct IH as [[Hok Hclean]|(r & j & c' & Hr & Hc' & Hs & Hfirst & Hraise)].
    + intros j Hj. apply Hpre. by right.
    + left. split; [done|]. intros j c' [->|Hj]%elem_of_cons Hc'.
      * rewrite Hc in Hc'. by injection Hc' as <-.
      * by eapply Hclean.
    + right. exists (S r), j, c'. split_and!; [done..| |done].
      intros [|r'] i' c'' Hlt Hr' Hc''; cbn in Hr'.
      * injection Hr' as <-. rewrite Hc in Hc''. by injection Hc'' as <-.
      * apply (Hfirst r' i' c''); [lia|done..].
Qed.

Lemma NoDup_two_members {A} (l : list A) i j :
  NoDup l → i ∈ l → j ∈ l → i ≠ j → (1 < length l)%nat.
Proof.
  intros Hnd Hi Hj Hne. destruct l as [|a [|b l]]; simpl; [| |lia].
  - by apply elem_of_nil in Hi.
  - apply list_elem_of_singleton in Hi, Hj. congruence.
Qed.

End Server.

(** * Concrete catalogues

    The statements above are instantiated here on JSON scalars, with a
    small tracked-attribute list and a catalogue of three courses. *)

Definition TRACKED : list string :=
  ["courseCodeSuffix"; "courseName"; "courseNumber"; "department"; "school";
   "section"].

Definition course (department : string) (number : Z) (suffix name : string)
  : gmap string json :=
  list_to_map [("department", JStr department); ("courseNumber", JInt number);
               ("courseCodeSuffix", JStr suffix); ("school", JStr "HM");
               ("section", JInt 1); ("courseName", JStr name)].

Definition key_of (department : string) (number : Z) (suffix : string) : list json :=
  [JStr department; JInt number; JStr suffix; JStr "HM"; JInt 1].

Definition intro : gmap string json := course "CS" 101 "" "Intro".
Definition intro2 : gmap string json := course "CS" 101 "" "Intro 2".
Definition algo : gmap string json := course "CS" 140 "" "Algorithms".
Definition stats : gmap string json := course "MA" 35 "Q" "Statistics".

(** The index of a batch without collisions. *)
Definition index_of (courses : list (gmap string json))
  : gmap (list json) (gmap string json) :=
  match (index_courses courses).2 with
  | Ok idx => idx
  | Raise _ => ∅
  end.

Definition refresh_of (t : Z) (courses : list (gmap string json)) : refresh :=
  {| r_timestamp := t; r_courses := courses; r_index := index_of courses;
     r_malformed := [] |}.

(** The store after a first refresh at time 100 with [courses]. *)
Definition store_at_100 (courses : list (gmap string json)) : course_data_t :=
  {| current := Some courses; index := Some (index_of courses);
     initial_timestamp := Some 100; updates := []; timestamp := Some 100;
     malformed := Some [] |}.

Example store_at_100_is_first_refresh courses :
  apply_refreshes TRACKED [refresh_of 100 courses] initial_course_data
  = Ok (store_at_100 courses).
Proof. reflexivity. Qed.

(** What a replay reports, as lists. *)
Definition replay_keys (cd : result (@error json) course_data_t) (since : Z)
  : result (@error json) (list (list json) * list (list json) *
                  list (list json * list string)) :=
  cd ← cd;
  acc ← replay TRACKED (updates cd) since;
  Ok (elements (added acc), elements (removed acc),
      map_to_list (elements <$> modified acc)).

(** What a direct diff reports, as lists. *)
Definition update_keys (u : result (@error json) update)
  : result (@error json) (list (list json) * list (list json) *
                  list (list json * list string)) :=
  u ← u; Ok (u_added u, u_removed u, map_to_list (u_modified u)).

Ltac by_evaluation := apply (bool_decide_unpack _); vm_compute; exact I.

(** ** C1 *)

(** C1, counterexample: the name of a course changes at 200 and changes
    back at 300.  The direct diff between the index at 100 and the current
    index is empty, the replay since 100 reports the course as modified. *)
Lemma replay_differs_from_direct_diff :
  update_keys (compute_update TRACKED (index_of [intro]) (index_of [intro]))
    = Ok ([], [], []) ∧
  replay_keys (apply_refreshes TRACKED
                 [refresh_of 200 [intro2]; refresh_of 300 [intro]]
                 (store_at_100 [intro])) 100
    = Ok ([], [], [(key_of "CS" 101 "", ["courseName"])]).
Proof. split; vm_compute; reflexivity. Qed.

(** The successful outcome of a computation on the concrete catalogue. *)
Definition the {A} (fallback : A) (r : result (@error json) A) : A :=
  match r with
  | Ok a => a
  | Raise _ => fallback
  end.

Lemma the_ok {A} (fallback : A) (r : result (@error json) A) :
  (if r is Ok _ then true else false) = true → r = Ok (the fallback r).
Proof. by destruct r. Qed.

Definition no_update : @update json _ :=
  {| u_added := []; u_removed := []; u_modified := ∅ |}.

(** The added and removed keys of each retained entry. *)
Definition history_keys (cd : result (@error json) course_data_t)
  : result (@error json) (list (Z * list (list json) * list (list json))) :=
  cd ← cd;
  Ok ((λ entry : Z * update, (entry.1, u_added entry.2, u_removed entry.2))
        <$> updates cd).

(** ** C2 *)

(** C2, counterexample: in both histories the course CS 101 is removed at
    300 or 200 and added again by a later retained refresh, all after 100.
    In the first the course was not in the index at 100, and the replay
    reports it as added; in the second it is removed once more at 400, and
    the replay reports it as removed.  Neither reports it as modified. *)
Lemma round_trip_not_always_modified :
  history_keys (apply_refreshes TRACKED
                  [refresh_of 200 [algo; intro]; refresh_of 300 [algo];
                   refresh_of 400 [algo; intro]] (store_at_100 [algo]))
    = Ok [(200, [key_of "CS" 101 ""], []); (300, [], [key_of "CS" 101 ""]);
          (400, [key_of "CS" 101 ""], [])] ∧
  replay_keys (apply_refreshes TRACKED
                 [refresh_of 200 [algo; intro]; refresh_of 300 [algo];
                  refresh_of 400 [algo; intro]] (store_at_100 [algo])) 100
    = Ok ([key_of "CS" 101 ""], [], []) ∧
  history_keys (apply_refreshes TRACKED
                  [refresh_of 200 [algo]; refresh_of 300 [algo; intro];
                   refresh_of 400 [algo]] (store_at_100 [algo; intro]))
    = Ok [(200, [], [key_of "CS" 101 ""]); (300, [key_of "CS" 101 ""], []);
          (400, [], [key_of "CS" 101 ""])] ∧
  replay_keys (apply_refreshes TRACKED
                 [refresh_of 200 [algo]; refresh_of 300 [algo; intro];
                  refresh_of 400 [algo]] (store_at_100 [algo; intro])) 100
    = Ok ([], [key_of "CS" 101 ""], []).
Proof. split_and!; vm_compute; reflexivity. Qed.

(** The course CS 101 leaves at 200 and is back, renamed, at 300. *)
Definition round_trip_refreshes : list refresh :=
  [refresh_of 200 [algo]; refresh_of 300 [algo; intro2]].

Definition round_trip_store : course_data_t :=
  the initial_course_data
      (apply_refreshes TRACKED round_trip_refreshes (store_at_100 [algo; intro])).

Definition round_trip_removal : update :=
  the no_update (compute_update TRACKED (index_of [algo; intro]) (index_of [algo])).

(** ** C3 *)



(** ** C4 *)



Definition two_refreshes_store : course_data_t :=
  the initial_course_data
      (apply_refreshes TRACKED [refresh_of 100 [intro]; refresh_of 200 [intro2]]
         initial_course_data).

(** ** C5 *)

(** One hundred and three refreshes, one per second from time 1000. *)
Definition many_refreshes : list refresh :=
  (λ n : nat, refresh_of (1000 + Z.of_nat n) [intro]) <$> seq 0 103.

Definition many_refreshes_store : course_data_t :=
  the initial_course_data
      (apply_refreshes TRACKED many_refreshes initial_course_data).

Lemma history_is_bounded_witness :
  ∃ log, produced_log TRACKED None many_refreshes = Ok log ∧
         length log = 102%nat ∧
         updates many_refreshes_store = drop 2 log ∧
         length (updates many_refreshes_store) = 100%nat.
Proof.
  destruct (history_is_bounded TRACKED initial_course_data many_refreshes
              many_refreshes_store) as (_ & log & Hlog & _ & Hlast).
  - vm_compute. lia.
  - apply the_ok. vm_compute. reflexivity.
  - assert (length log = 102%nat) as Hlen.
    { change (match Ok log : result (@error json) _ with
              | Ok l => length l
              | Raise _ => 0%nat
              end = 102%nat).
      rewrite <- Hlog. vm_compute. reflexivity. }
    specialize (Hlast ltac:(lia)). destruct Hlast as [Hups Hlen100].
    rewrite Hlen in Hups.
    exists log. change (102 - 100)%nat with 2%nat in Hups. repeat split; assumption.
Defined.

(** ** C6 *)

(** The code suffixes of a batch. *)
Definition suffixes (courses : list (gmap string json)) : list (option json) :=
  (λ c : gmap string json, c !! "courseCodeSuffix") <$> courses.

(** C6, counterexample: the batch holds two courses CS 101 without suffix
    and then two courses MA 35 with suffix Q.  The call raises the
    disambiguation error for MA 35, and by then the two courses CS 101 have
    been given the suffixes A and B. *)
Lemma failed_deduplication_has_assigned_suffixes :
  deduplicate_course_keys [intro; intro; stats; stats] =
    ([<["courseCodeSuffix" := JStr "A"]> intro;
      <["courseCodeSuffix" := JStr "B"]> intro; stats; stats],
     Raise (ScrapeError (DuplicateWithSuffix stats))) ∧
  suffixes [intro; intro; stats; stats]
    = [Some (JStr ""); Some (JStr ""); Some (JStr "Q"); Some (JStr "Q")] ∧
  suffixes (deduplicate_course_keys [intro; intro; stats; stats]).1
    = [Some (JStr "A"); Some (JStr "B"); Some (JStr "Q"); Some (JStr "Q")].
Proof. split_and!; by_evaluation. Qed.

(** ** C7 *)

(** C7, the failing input: twenty-seven courses with one identity key and
    no suffix.  Indexing succeeds with twenty-seven entries; the first
    twenty-six courses carry the letters A to Z, the last one is left
    without a suffix, and nothing is reported. *)
Lemma twenty_seven_duplicates_are_indexed :
  match index_courses (replicate 27 intro) with
  | (courses', Ok idx) =>
      size idx = 27%nat ∧
      suffixes courses' = (Some ∘ JStr <$> ascii_uppercase) ++ [Some (JStr "")] ∧
      idx !! key_of "CS" 101 "" = Some intro
  | (_, Raise _) => False
  end.
Proof.
  destruct (index_courses (replicate 27 intro)) as [courses' [idx|e]] eqn:Hrun.
  - assert (index_courses (replicate 27 intro) = (courses', Ok idx) →
            size idx = 27%nat ∧
            suffixes courses' = (Some ∘ JStr <$> ascii_uppercase) ++ [Some (JStr "")] ∧
            idx !! key_of "CS" 101 "" = Some intro) as Hgoal; [|by apply Hgoal].
    clear Hrun. intros Hrun.
    replace courses' with (index_courses (replicate 27 intro)).1 by (by rewrite Hrun).
    replace idx with (the ∅ (index_courses (replicate 27 intro)).2) by (by rewrite Hrun).
    split_and!; by_evaluation.
  - assert ((if (index_courses (replicate 27 intro)).2 is Ok _ then true else false)
            = true) as Hok by (vm_compute; reflexivity).
    by rewrite Hrun in Hok.
Qed.

(** With twenty-eight such courses two keep the same key and indexing
    raises. *)
Lemma twenty_eight_duplicates_are_rejected :
  (index_courses (replicate 28 intro)).2
    = Raise (ScrapeError (MoreThanOneMatching intro)).
Proof. by_evaluation. Qed.

(** ** C8 *)

(** C8, counterexample: the timestamp [abc] is answered with 404, not with
    400; and [12abc] is read as the timestamp 12. *)
Lemma unparsable_timestamp_not_found :
  do_GET TRACKED "/api/v2/courses-since/abc" (@initial_world json _)
    = (SendError NOT_FOUND, initial_world) ∧
  (do_GET TRACKED "/api/v2/courses-since/12abc"
     (set_course_data (store_at_100 [intro]) initial_world)).1
    = SendOK (NotIncremental [intro] (Some 100) 0).
Proof. split; by_evaluation. Qed.

Lemma unparsable_timestamp_is_client_error_witness :
  do_GET TRACKED "/api/v2/courses-since/--5" (@initial_world json _)
    = (SendError BAD_REQUEST, initial_world) ∧
  do_GET TRACKED "/api/v2/courses-since/soon" (@initial_world json _)
    = (SendError NOT_FOUND, initial_world).
Proof.
  split.
  - apply (proj1 (proj2 (unparsable_timestamp_is_client_error TRACKED)) "--5"
             initial_world ValueError); [discriminate|reflexivity].
  - apply (proj2 (proj2 (unparsable_timestamp_is_client_error TRACKED)) "soon"
             initial_world). reflexivity.
Defined.

(** ** C9 *)

Definition debug_server : server_t := {| debug := true; use_cache := false |}.

(** Reset, one refresh, and reset again. *)
Definition reset_refresh_reset : @world json _ :=
  let w1 := (do_PUT debug_server "/debug/reset" 0 [] initial_world).2 in
  let w2 := (run_single_fetch_task TRACKED 100 (Some ([intro], [])) w1).2 in
  (do_PUT debug_server "/debug/reset" 0 [] w2).2.

(** C9, the failing input: the first reset makes [course_data] the template
    object itself, the refresh writes into it, and the second reset brings
    back that same object: the store is still initialised and the catalogue
    is still served. *)
Lemma second_reset_keeps_the_store :
  course_data (do_PUT debug_server "/debug/reset" 0 [] (@initial_world json _)).2
    = initial_course_data ∧
  course_data reset_refresh_reset = store_at_100 [intro] ∧
  INITIAL_COURSE_DATA reset_refresh_reset = store_at_100 [intro] ∧
  get_all_courses (course_data reset_refresh_reset)
    = SendOK (AllCourses [intro] (Some 100) 0).
Proof. split_and!; by_evaluation. Qed.

(** ** C10 *)

Lemma compute_diff_nothing_newer_witness :
  compute_diff TRACKED two_refreshes_store 200 =
    Ok {| added_courses := []; removed_courses := []; modified_courses := [] |}.
Proof.
  apply (compute_diff_nothing_newer TRACKED two_refreshes_store 200).
  by_evaluation.
Defined.

(** * Further properties of the diff engine *)

(** A loop that returns has run every step successfully; what its steps
    preserve, it preserves; what its steps may raise, it may raise. *)
Lemma for_each_ok_inv {E S X} (P : S → Prop) (body : S → X → result E S) xs s s' :
  P s →
  (∀ s1 x s2, x ∈ xs → P s1 → body s1 x = Ok s2 → P s2) →
  for_each body xs s = Ok s' → P s'.
Proof.
  revert s. induction xs as [|x xs IH]; intros s Hs Hstep; cbn [for_each].
  { by intros [= <-]. }
  destruct (body s x) as [s1|] eqn:Hx; [|done]. cbn [mbind result_bind].
  apply IH.
  - eapply Hstep; [left|done..].
  - intros s2 y s3 Hy. apply Hstep. by right.
Qed.

Lemma for_each_ok_steps {E S X} (body : S → X → result E S) xs s s' x :
  for_each body xs s = Ok s' → x ∈ xs → ∃ s1 s2, body s1 x = Ok s2.
Proof.
  revert s. induction xs as [|y xs IH]; intros s Hrun Hx.
  { by apply elem_of_nil in Hx. }
  cbn [for_each] in Hrun. destruct (body s y) as [s1|] eqn:Hy; [|done].
  apply elem_of_cons in Hx as [->|Hx]; [eauto|]. by eapply IH.
Qed.

Lemma for_each_raise_inv {E S X} (Q : E → Prop) (body : S → X → result E S) xs s e :
  (∀ s1 x e1, x ∈ xs → body s1 x = Raise e1 → Q e1) →
  for_each body xs s = Raise e → Q e.
Proof.
  revert s. induction xs as [|x xs IH]; intros s Hstep; cbn [for_each]; [done|].
  destruct (body s x) as [s1|e1] eqn:Hx; cbn [mbind result_bind].
  - apply IH. intros s2 y e2 Hy. apply Hstep. by right.
  - intros [= <-]. eapply Hstep; [left|done].
Qed.

Section MoreProperties.

Context {Value : Type} `{!JsonValue Value}.
Variable COURSE_ATTRS : list string.

Local Abbreviation Course := (gmap string Value).
Local Abbreviation Key := (list Value).

(** ** [compute_update] *)

Lemma differing_same (c : Course) : differing COURSE_ATTRS c c = [].
Proof.
  unfold differing. induction COURSE_ATTRS as [|a attrs IH]; [done|].
  rewrite filter_cons. by rewrite decide_False by (by intros []).
Qed.

Lemma differing_mirror (o n : Course) :
  differing COURSE_ATTRS o n = differing COURSE_ATTRS n o.
Proof.
  unfold differing. induction COURSE_ATTRS as [|a attrs IH]; [done|].
  rewrite !filter_cons, IH.
  destruct (decide (o !! a = n !! a)) as [Heq|Hne].
  - rewrite decide_False by (by intros []). by rewrite decide_False by (by intros []).
  - rewrite decide_True by done. by rewrite decide_True by congruence.
Qed.

(** Diffing a snapshot against itself reports nothing. *)
Theorem compute_update_same (idx : gmap Key Course) :
  wf_index COURSE_ATTRS idx →
  compute_update COURSE_ATTRS idx idx =
    Ok {| u_added := []; u_removed := []; u_modified := ∅ |}.
Proof.
  intros Hwf. destruct (compute_update_total COURSE_ATTRS idx idx Hwf Hwf) as [u Hu].
  rewrite Hu. f_equal.
  destruct (compute_update_spec _ _ _ _ Hu) as (Ha & Hr & Hm). destruct u as [a r m].
  cbn in *. f_equal.
  - rewrite Ha. replace (dom idx ∖ dom idx) with (∅ : gset Key) by set_solver.
    apply elements_empty.
  - rewrite Hr. replace (dom idx ∖ dom idx) with (∅ : gset Key) by set_solver.
    apply elements_empty.
  - apply map_eq. intros key. rewrite lookup_empty.
    destruct (m !! key) as [attrs|] eqn:Hl; [|done].
    apply Hm in Hl as (o & n & Ho & Hn & Hd & Hne). rewrite Ho in Hn.
    injection Hn as <-. rewrite differing_same in Hd. congruence.
Qed.

(** Against the empty snapshot every key is added, or removed, and no
    course is ever read. *)
Theorem compute_update_empty (idx : gmap Key Course) :
  compute_update COURSE_ATTRS ∅ idx =
    Ok {| u_added := elements (dom idx); u_removed := []; u_modified := ∅ |} ∧
  compute_update COURSE_ATTRS idx ∅ =
    Ok {| u_added := []; u_removed := elements (dom idx); u_modified := ∅ |}.
Proof.
  unfold compute_update. rewrite dom_empty_L.
  assert (dom idx ∩ ∅ = (∅ : gset Key)) as -> by (apply set_eq; set_solver).
  assert (∅ ∩ dom idx = (∅ : gset Key)) as -> by (apply set_eq; set_solver).
  assert (dom idx ∖ ∅ = (dom idx : gset Key)) as -> by (apply set_eq; set_solver).
  assert (∅ ∖ dom idx = (∅ : gset Key)) as -> by (apply set_eq; set_solver).
  rewrite !elements_empty. done.
Qed.

(** Swapping the two snapshots swaps [added] and [removed] and keeps
    [modified]. *)
Theorem compute_update_mirror (old new : gmap Key Course) u :
  compute_update COURSE_ATTRS old new = Ok u →
  compute_update COURSE_ATTRS new old =
    Ok {| u_added := u_removed u; u_removed := u_added u; u_modified := u_modified u |}.
Proof.
  intros Hu. destruct (compute_update_spec _ _ _ _ Hu) as (Ha & Hr & Hm).
  destruct (compute_update COURSE_ATTRS new old) as [u'|e] eqn:Hu'.
  - destruct (compute_update_spec _ _ _ _ Hu') as (Ha' & Hr' & Hm').
    f_equal. destruct u' as [a' r' m']. cbn in *. f_equal; [congruence..|].
    apply map_eq. intros key. apply option_eq. intros attrs.
    rewrite Hm, Hm'. split; intros (o & n & Ho & Hn & Hd & Hne); exists n, o;
      (split_and!; [done..| |done]); by rewrite differing_mirror.
  - exfalso. revert Hu Hu'. unfold compute_update.
    assert (dom old ∩ dom new = (dom new ∩ dom old : gset Key)) as ->
      by (apply set_eq; set_solver).
    destruct (for_each (compute_update_step COURSE_ATTRS old new) _ _) as [m|] eqn:Hl;
      [intros _|done].
    destruct (for_each_invariant (λ _, True)
                (compute_update_step COURSE_ATTRS new old)
                (elements (dom new ∩ dom old)) ∅) as (m' & -> & _); [done| |done].
    intros m0 key Hkey _.
    destruct (for_each_ok_steps _ _ _ _ key Hl Hkey) as (m1 & m2 & Hstep).
    revert Hstep. unfold compute_update_step, getitem.
    destruct (old !! key) as [o|]; [|done]. destruct (new !! key) as [n|]; [|done].
    cbn [mbind result_bind].
    destruct (changed_attrs o n COURSE_ATTRS) as [l|] eqn:Hc; [intros _|done].
    assert (∃ l', changed_attrs n o COURSE_ATTRS = Ok l') as [l' ->]; [|cbn; eauto].
    clear -Hc. revert l Hc. induction COURSE_ATTRS as [|a attrs IH]; intros l; cbn.
    { eauto. }
    unfold getitem. destruct (o !! a); [|done]. destruct (n !! a); [|done]. cbn.
    destruct (changed_attrs o n attrs) as [more|]; [|done]. intros _.
    destruct (IH more eq_refl) as [l' ->]. cbn. eauto.
Qed.

Lemma changed_attrs_raises (o n : Course) attrs e :
  changed_attrs o n attrs = Raise e → e = KeyError.
Proof.
  induction attrs as [|a attrs IH]; cbn [changed_attrs]; [done|]. unfold getitem.
  destruct (o !! a); [|by intros [= <-]]. destruct (n !! a); [|by intros [= <-]].
  cbn [mbind result_bind]. destruct (changed_attrs o n attrs); [done|].
  cbn. intros [= <-]. by apply IH.
Qed.

Lemma changed_attrs_present (o n : Course) attrs l attr :
  changed_attrs o n attrs = Ok l → attr ∈ attrs →
  is_Some (o !! attr) ∧ is_Some (n !! attr).
Proof.
  revert l. induction attrs as [|a attrs IH]; intros l Hrun Hin.
  { by apply elem_of_nil in Hin. }
  cbn [changed_attrs] in Hrun. unfold getitem in Hrun.
  destruct (o !! a) eqn:Ho; [|done]. destruct (n !! a) eqn:Hn; [|done].
  cbn [mbind result_bind] in Hrun.
  destruct (changed_attrs o n attrs) as [more|] eqn:Hmore; [|done].
  apply elem_of_cons in Hin as [->|Hin]; [by rewrite Ho, Hn|]. by eapply IH.
Qed.

(** A course under a key of both snapshots that lacks a tracked attribute
    makes the diff raise [KeyError]; [compute_update] raises nothing
    else. *)
Theorem compute_update_missing_attribute (old new : gmap Key Course) key o n attr :
  old !! key = Some o → new !! key = Some n →
  attr ∈ COURSE_ATTRS →
  o !! attr = None ∨ n !! attr = None →
  compute_update COURSE_ATTRS old new = Raise KeyError.
Proof.
  intros Ho Hn Hattr Hmissing.
  destruct (compute_update COURSE_ATTRS old new) as [u|e] eqn:Hu.
  - exfalso. revert Hu. unfold compute_update.
    destruct (for_each _ _ _) as [m|] eqn:Hloop; [intros _|done].
    destruct (for_each_ok_steps _ _ _ _ key Hloop) as (m1 & m2 & Hstep).
    { apply elem_of_elements, elem_of_intersection. split; apply elem_of_dom; eauto. }
    revert Hstep. unfold compute_update_step, getitem. rewrite Ho, Hn.
    cbn [mbind result_bind].
    destruct (changed_attrs o n COURSE_ATTRS) as [l|] eqn:Hc; [intros _|done].
    destruct (changed_attrs_present _ _ _ _ attr Hc Hattr) as [[? Hso] [? Hsn]].
    destruct Hmissing; congruence.
  - f_equal. revert Hu. unfold compute_update.
    destruct (for_each _ _ _) as [m|e'] eqn:Hloop; [done|].
    cbn [mbind result_bind]. intros [= <-]. revert Hloop.
    apply (for_each_raise_inv (λ e, e = KeyError)).
    intros m1 k e1 _. unfold compute_update_step, getitem.
    destruct (old !! k); [|by intros [= <-]]. destruct (new !! k); [|by intros [= <-]].
    cbn [mbind result_bind].
    destruct (changed_attrs _ _ _) eqn:Hc; [done|]. cbn. intros [= <-].
    by eapply changed_attrs_raises.
Qed.

(** ** [compute_diff] *)

Lemma assert_ok (e : @error Value) b a : assert e b = Ok a → b = true.
Proof. by destruct b. Qed.

Lemma assert_raise (e e' : @error Value) b : assert e b = Raise e' → e' = e.
Proof. destruct b; [done|]. by intros [= <-]. Qed.

(** What one successful step of each inner loop can add to the
    accumulators. *)
Lemma replay_modified_grows acc (item : Key * list string) acc' :
  replay_modified acc item = Ok acc' →
  added acc' = added acc ∧ removed acc' = removed acc ∧
  dom (modified acc') = dom (modified acc) ∪ {[item.1]}.
Proof.
  destruct item as [key attrs]. intros Hrun.
  assert (key ∉ removed acc) as Hr.
  { revert Hrun. unfold replay_modified.
    destruct (assert _ _) eqn:Hassert; [intros _|done].
    apply assert_ok in Hassert. by apply bool_decide_eq_true in Hassert. }
  rewrite replay_modified_ok in Hrun by done. injection Hrun as <-.
  cbn. split_and!; [done..|]. rewrite dom_insert_L. set_solver.
Qed.

Lemma replay_added_grows acc (key : Key) acc' :
  replay_added COURSE_ATTRS acc key = Ok acc' →
  added acc' ⊆ added acc ∪ {[key]} ∧ removed acc' ⊆ removed acc ∧
  dom (modified acc') ⊆ dom (modified acc) ∪ {[key]}.
Proof.
  unfold replay_added. destruct (assert _ _); [|done]. cbn [mbind result_bind].
  case_decide; intros [= <-]; cbn; rewrite ?dom_insert_L; set_solver.
Qed.

Lemma replay_removed_grows acc (key : Key) acc' :
  replay_removed acc key = Ok acc' →
  added acc' ⊆ added acc ∧ removed acc' ⊆ removed acc ∪ {[key]} ∧
  dom (modified acc') ⊆ dom (modified acc).
Proof.
  unfold replay_removed. destruct (assert _ _); [|done]. cbn [mbind result_bind].
  repeat case_decide; intros [= <-]; cbn; rewrite ?dom_delete_L; set_solver.
Qed.

Lemma replay_update_grows since acc t u acc' :
  replay_update COURSE_ATTRS since acc (t, u) = Ok acc' →
  t ≤ since ∧ acc' = acc ∨
  since < t ∧
  added acc' ⊆ added acc ∪ list_to_set (u_added u) ∧
  removed acc' ⊆ removed acc ∪ list_to_set (u_removed u) ∧
  dom (modified acc') ⊆ dom (modified acc) ∪ dom (u_modified u) ∪ list_to_set (u_added u).
Proof.
  unfold replay_update. case_decide as Ht; [|intros [= <-]; left; split; [lia|done]].
  intros Hrun. right. split; [lia|].
  destruct (for_each replay_modified _ acc) as [acc1|] eqn:H1; [|done].
  cbn [mbind result_bind] in Hrun.
  destruct (for_each (replay_added COURSE_ATTRS) _ acc1) as [acc2|] eqn:H2; [|done].
  cbn [mbind result_bind] in Hrun.
  assert (added acc1 = added acc ∧ removed acc1 = removed acc ∧
          dom (modified acc1) ⊆ dom (modified acc) ∪ dom (u_modified u))
    as (Ha1 & Hr1 & Hm1).
  { revert H1.
    apply (for_each_ok_inv (λ a, added a = added acc ∧ removed a = removed acc ∧
             dom (modified a) ⊆ dom (modified acc) ∪ dom (u_modified u)));
      [set_solver|].
    intros a1 [key attrs] a2 Hin%elem_of_map_to_list (Ha & Hr & Hm)
      (Ha' & Hr' & Hm')%replay_modified_grows.
    assert (key ∈ dom (u_modified u)) by (apply elem_of_dom; eauto).
    cbn in Hm'. rewrite Ha', Hr', Hm'. set_solver. }
  assert (added acc2 ⊆ added acc1 ∪ list_to_set (u_added u) ∧
          removed acc2 ⊆ removed acc1 ∧
          dom (modified acc2) ⊆ dom (modified acc1) ∪ list_to_set (u_added u))
    as (Ha2 & Hr2 & Hm2).
  { revert H2.
    apply (for_each_ok_inv (λ a, added a ⊆ added acc1 ∪ list_to_set (u_added u) ∧
             removed a ⊆ removed acc1 ∧
             dom (modified a) ⊆ dom (modified acc1) ∪ list_to_set (u_added u)));
      [set_solver|].
    intros a1 key a2 Hin (Ha & Hr & Hm) (Ha' & Hr' & Hm')%replay_added_grows.
    assert (key ∈ (list_to_set (u_added u) : gset Key)) by by apply elem_of_list_to_set.
    set_solver. }
  assert (added acc' ⊆ added acc2 ∧
          removed acc' ⊆ removed acc2 ∪ list_to_set (u_removed u) ∧
          dom (modified acc') ⊆ dom (modified acc2)) as (Ha3 & Hr3 & Hm3).
  { revert Hrun.
    apply (for_each_ok_inv (λ a, added a ⊆ added acc2 ∧
             removed a ⊆ removed acc2 ∪ list_to_set (u_removed u) ∧
             dom (modified a) ⊆ dom (modified acc2)));
      [set_solver|].
    intros a1 key a2 Hin (Ha & Hr & Hm) (Ha' & Hr' & Hm')%replay_removed_grows.
    assert (key ∈ (list_to_set (u_removed u) : gset Key)) by by apply elem_of_list_to_set.
    set_solver. }
  rewrite Ha1, Hr1 in *. set_solver.
Qed.

(** Whatever the history holds, every key that a successful replay reports
    comes from a retained entry newer than [since]: an added key from the
    [added] of such an entry, a removed key from its [removed], a modified
    key from its [modified] or, for a course that left and came back, its
    [added]. *)
Theorem replay_reports_only_retained_changes (updates : list (Z * update)) since acc :
  replay COURSE_ATTRS updates since = Ok acc →
  (∀ key, key ∈ added acc →
     ∃ t u, (t, u) ∈ updates ∧ since < t ∧ key ∈ u_added u) ∧
  (∀ key, key ∈ removed acc →
     ∃ t u, (t, u) ∈ updates ∧ since < t ∧ key ∈ u_removed u) ∧
  (∀ key, key ∈ dom (modified acc) →
     ∃ t u, (t, u) ∈ updates ∧ since < t ∧
            (key ∈ dom (u_modified u) ∨ key ∈ u_added u)).
Proof.
  unfold replay.
  apply (for_each_ok_inv (λ acc,
    (∀ key, key ∈ added acc →
       ∃ t u, (t, u) ∈ updates ∧ since < t ∧ key ∈ u_added u) ∧
    (∀ key, key ∈ removed acc →
       ∃ t u, (t, u) ∈ updates ∧ since < t ∧ key ∈ u_removed u) ∧
    (∀ key, key ∈ dom (modified acc) →
       ∃ t u, (t, u) ∈ updates ∧ since < t ∧
              (key ∈ dom (u_modified u) ∨ key ∈ u_added u)))).
  { cbn. split_and!; intros key; [set_solver..|]. rewrite dom_empty_L. set_solver. }
  intros acc1 [t u] acc2 Hin (IHa & IHr & IHm)
    [[_ ->]|(Ht & Ha & Hr & Hm)]%replay_update_grows; [done|].
  split_and!; intros key Hkey.
  - apply Ha in Hkey. apply elem_of_union in Hkey as [Hkey|Hkey]; [by apply IHa|].
    exists t, u. split_and!; [done..|]. by apply elem_of_list_to_set in Hkey.
  - apply Hr in Hkey. apply elem_of_union in Hkey as [Hkey|Hkey]; [by apply IHr|].
    exists t, u. split_and!; [done..|]. by apply elem_of_list_to_set in Hkey.
  - apply Hm in Hkey. rewrite !elem_of_union in Hkey.
    destruct Hkey as [[Hkey|Hkey]|Hkey]; [by apply IHm|..];
      exists t, u; (split_and!; [done..|]); [by left|right].
    by apply elem_of_list_to_set in Hkey.
Qed.

(** Entries that are not newer than [since] do not influence the replay,
    wherever they come from: a history may be cut in front of the first
    newer entry. *)
Theorem replay_skips_prefix (old new : list (Z * update)) since :
  Forall (λ entry : Z * update, entry.1 ≤ since) old →
  replay COURSE_ATTRS (old ++ new) since = replay COURSE_ATTRS new since.
Proof.
  intros Hold. unfold replay. rewrite for_each_app.
  by rewrite (replay_skips_old COURSE_ATTRS) by done.
Qed.

(** The only fault of the replay is a failed assertion; the only other
    fault of [compute_diff] on a store with an index is a key the current
    index or a current course lacks. *)
Theorem compute_diff_faults (cd : course_data_t) since e :
  compute_diff COURSE_ATTRS cd since = Raise e →
  (∀ e', replay COURSE_ATTRS (updates cd) since = Raise e' → e' = AssertionError) ∧
  (e = AssertionError ∨ e = KeyError ∨ (e = TypeError ∧ index cd = None)).
Proof.
  assert (∀ e', replay COURSE_ATTRS (updates cd) since = Raise e' → e' = AssertionError)
    as Hreplay.
  { intros e'. unfold replay.
    apply (for_each_raise_inv (λ e, e = AssertionError)).
    intros acc [t u] e1 _. unfold replay_update. case_decide; [|done].
    destruct (for_each replay_modified _ acc) as [acc1|e2] eqn:H1; cbn [mbind result_bind].
    - destruct (for_each (replay_added COURSE_ATTRS) _ acc1) as [acc2|e3] eqn:H2;
        cbn [mbind result_bind].
      + apply (for_each_raise_inv (λ e, e = AssertionError)).
        intros a k e4 _. unfold replay_removed.
        destruct (assert _ _) eqn:Ha; cbn [mbind result_bind];
          [by destruct (decide (k ∈ added a))|].
        intros [= <-]. by apply assert_raise in Ha.
      + intros [= <-]. revert H2. apply (for_each_raise_inv (λ e, e = AssertionError)).
        intros a k e4 _. unfold replay_added.
        destruct (assert _ _) eqn:Ha; cbn [mbind result_bind];
          [by destruct (decide _)|].
        intros [= <-]. by apply assert_raise in Ha.
    - intros [= <-]. revert H1. apply (for_each_raise_inv (λ e, e = AssertionError)).
      intros a [k attrs] e4 _ Hraise.
      destruct (decide (k ∈ removed a)) as [Hin|Hout].
      + unfold replay_modified in Hraise.
        rewrite bool_decide_eq_false_2 in Hraise by (by intros Hno).
        by injection Hraise as <-.
      + by rewrite replay_modified_ok in Hraise by done. }
  intros Hrun. split; [done|]. revert Hrun. unfold compute_diff.
  destruct (replay COURSE_ATTRS (updates cd) since) as [acc|e'] eqn:Hacc;
    cbn [mbind result_bind]; [|intros [= <-]; left; by apply Hreplay].
  assert (∀ key e1, index_getitem (index cd) key = Raise e1 →
            e1 = KeyError ∨ (e1 = TypeError ∧ index cd = None)) as Hindex.
  { intros key e1. unfold index_getitem, getitem.
    destruct (index cd) as [idx|]; [|intros [= <-]; by right].
    destruct (idx !! key); [done|]. intros [= <-]. by left. }
  unfold materialize. intros Hrun. right.
  destruct (map_res (index_getitem (index cd)) _) as [l1|e1] eqn:H1;
    cbn [mbind result_bind] in Hrun.
  - destruct (map_res (modified_course (index cd)) _) as [l2|e2] eqn:H2;
      cbn [mbind result_bind] in Hrun; [done|]. injection Hrun as <-.
    revert H2. unfold map_res.
    apply (for_each_raise_inv (λ e, e = KeyError ∨ (e = TypeError ∧ index cd = None))).
    intros ys [key attrs] e3 _. unfold modified_course.
    destruct (index_getitem (index cd) key) as [cur|e4] eqn:Hcur; cbn [mbind result_bind].
    + destruct (partial_course cur _) as [c|e5] eqn:Hpc; cbn [mbind result_bind]; [done|].
      intros [= <-]. left. revert Hpc. unfold partial_course.
      apply (for_each_raise_inv (λ e, e = KeyError)).
      intros c a e6 _. unfold getitem. destruct (cur !! a); [done|]. by intros [= <-].
    + intros [= <-]. by eapply Hindex.
  - injection Hrun as <-. revert H1. unfold map_res.
    apply (for_each_raise_inv (λ e, e = KeyError ∨ (e = TypeError ∧ index cd = None))).
    intros ys key e3 _.
    destruct (index_getitem (index cd) key) as [c|e4] eqn:Hc; cbn [mbind result_bind];
      [done|]. intros [= <-]. by eapply Hindex.
Qed.

(** A course that was absent at [since] and is absent now, whatever
    happened to it in between, is not reported at all. *)
Theorem replay_cancels_passing_course (cd0 : course_data_t) (idx0 : gmap Key Course)
    (rs : list refresh) (since : Z) (key : Key) :
  index cd0 = Some idx0 →
  wf_index COURSE_ATTRS idx0 →
  Forall (λ entry : Z * update, entry.1 ≤ since) (updates cd0) →
  Forall (λ r, since < r_timestamp r) rs →
  Forall (λ r, wf_index COURSE_ATTRS (r_index r)) rs →
  (length rs ≤ MAX_UPDATES_SAVED)%nat →
  key ∉ dom idx0 →
  key ∉ dom (final_index idx0 rs) →
  ∃ cd acc,
    apply_refreshes COURSE_ATTRS rs cd0 = Ok cd ∧
    replay COURSE_ATTRS (updates cd) since = Ok acc ∧
    key ∉ added acc ∧ key ∉ removed acc ∧ key ∉ dom (modified acc).
Proof.
  intros Hidx Hwf0 Hold Hnew Hwf Hlen Hk0 Hkn.
  destruct (replay_after_refreshes COURSE_ATTRS cd0 idx0 rs since)
    as (cd & log & acc & d & Hcd & _ & _ & Hreplay & Hinv & _); [done..|].
  exists cd, acc. split_and!; [done..| | |].
  - rewrite (inv_added _ _ _ _ _ Hinv). set_solver.
  - rewrite (inv_removed _ _ _ _ _ Hinv). set_solver.
  - pose proof (inv_modified_dom _ _ _ _ _ Hinv). set_solver.
Qed.

(** ** [update_course_data] *)

(** After at least one successful refresh of the empty store: the initial
    timestamp is that of the first refresh, everything else is what the
    last refresh delivered, and the history has one entry per refresh after
    the first, up to the bound, with the timestamps of the latest
    refreshes in order. *)
Theorem store_after_refreshes (r0 : refresh) (rs : list refresh) (cd : course_data_t) :
  apply_refreshes COURSE_ATTRS (r0 :: rs) initial_course_data = Ok cd →
  let r := default r0 (last rs) in
  initial_timestamp cd = Some (r_timestamp r0) ∧
  timestamp cd = Some (r_timestamp r) ∧
  current cd = Some (r_courses r) ∧
  index cd = Some (r_index r) ∧
  malformed cd = Some (r_malformed r) ∧
  length (updates cd) = (length rs `min` MAX_UPDATES_SAVED)%nat ∧
  (updates cd).*1 = drop (length rs - MAX_UPDATES_SAVED) (r_timestamp <$> rs).
Proof.
  intros Hcd r.
  destruct (apply_refreshes_from_initial _ _ _ _ Hcd) as (log & Hlog & Hups & Hidx & Hinit).
  destruct (apply_refreshes_last_fields _ _ _ _ _ Hcd) as (Hcur & Hts & Hmal).
  destruct (update_log_history _ _ _ _ Hlog) as [_ Htimes].
  assert (length log = length rs) as Hlen.
  { by rewrite <- (length_fmap fst log), Htimes, length_fmap. }
  split_and!; try done.
  - rewrite Hidx. f_equal. unfold final_index, r. by destruct (last rs).
  - rewrite Hups, length_last_n. lia.
  - rewrite Hups. unfold last_n. by rewrite fmap_drop, Htimes, Hlen.
Qed.

(** ** [index_courses] and [deduplicate_course_keys] *)

Lemma read_attrs_raises (course : Course) attrs e :
  read_attrs course attrs = Raise e → e = KeyError.
Proof.
  induction attrs as [|a attrs IH]; cbn [read_attrs]; [done|]. unfold getitem.
  destruct (course !! a); [|by intros [= <-]]. cbn [mbind result_bind].
  destruct (read_attrs course attrs); [done|]. cbn. intros [= <-]. by apply IH.
Qed.

Lemma read_attrs_present (course : Course) attrs key attr :
  read_attrs course attrs = Ok key → attr ∈ attrs → is_Some (course !! attr).
Proof.
  revert key. induction attrs as [|a attrs IH]; intros key Hrun Hin.
  { by apply elem_of_nil in Hin. }
  cbn [read_attrs] in Hrun. unfold getitem in Hrun.
  destruct (course !! a) eqn:Ha; [|done]. cbn [mbind result_bind] in Hrun.
  destruct (read_attrs course attrs) eqn:Hrest; [|done].
  apply elem_of_cons in Hin as [->|Hin]; [by rewrite Ha|]. by eapply IH.
Qed.

Lemma index_loop_spec (courses : list Course) (acc idx : gmap Key Course) :
  for_each index_courses_step courses acc = Ok idx →
  size idx = (size acc + length courses)%nat ∧
  ∀ key course, idx !! key = Some course ↔
    acc !! key = Some course ∨ (course ∈ courses ∧ course_to_index_key course = Ok key).
Proof.
  revert acc. induction courses as [|c courses IH]; intros acc; cbn [for_each].
  { intros [= <-]. split; [simpl; lia|]. intros key course. split; [by left|].
    by intros [?|[[]%elem_of_nil _]]. }
  destruct (index_courses_step acc c) as [acc1|] eqn:Hstep; [|done].
  cbn [mbind result_bind]. intros Hrest. unfold index_courses_step in Hstep.
  destruct (course_to_index_key c) as [k|] eqn:Hk; [|done].
  cbn [mbind result_bind] in Hstep.
  case_decide as Hdom; [by destruct (format_course_code c)|]. injection Hstep as <-.
  apply not_elem_of_dom in Hdom.
  destruct (IH _ Hrest) as [Hsize Hlookup]. split.
  - rewrite Hsize, map_size_insert_None by done. simpl. lia.
  - intros key course. rewrite Hlookup, elem_of_cons. split.
    + intros [Hins|[Hin Hkey]]; [|right; split; [by right|done]].
      apply lookup_insert_Some in Hins as [[<- <-]|[_ Hold]]; [|by left].
      right. split; [by left|done].
    + intros [Hold|[[->|Hin] Hkey]].
      * left. rewrite lookup_insert_ne; [done|]. intros <-. congruence.
      * left. rewrite Hk in Hkey. injection Hkey as <-. by rewrite lookup_insert_eq.
      * by right.
Qed.

(** The relation between a batch and what deduplication makes of it: the
    same number of courses, each differing from the original at most in
    its code suffix. *)
Definition same_but_suffix (courses courses' : list Course) : Prop :=
  length courses' = length courses ∧
  ∀ i c', courses' !! i = Some c' →
    ∃ c, courses !! i = Some c ∧
         ∀ attr, attr ≠ "courseCodeSuffix" → c' !! attr = c !! attr.

Lemma same_but_suffix_refl courses : same_but_suffix courses courses.
Proof. split; [done|]. intros i c' Hc'. by exists c'. Qed.

Lemma same_but_suffix_trans c1 c2 c3 :
  same_but_suffix c1 c2 → same_but_suffix c2 c3 → same_but_suffix c1 c3.
Proof.
  intros [Hl12 H12] [Hl23 H23]. split; [congruence|].
  intros i c' (c & Hc & Hattrs)%H23. apply H12 in Hc as (c0 & Hc0 & Hattrs0).
  exists c0. split; [done|]. intros attr Hne. rewrite Hattrs by done. by apply Hattrs0.
Qed.

Lemma assign_suffix_same_but_suffix (courses : list Course) item :
  same_but_suffix courses (assign_suffix courses item).
Proof.
  destruct item as [i letter]. unfold assign_suffix.
  destruct (courses !! i) as [c|] eqn:Hc; [|apply same_but_suffix_refl].
  split; [by rewrite length_insert|]. intros j c' Hc'.
  destruct (decide (i = j)) as [->|Hne].
  - rewrite list_lookup_insert_eq in Hc' by (by eapply lookup_lt_Some).
    injection Hc' as <-. exists c. split; [done|]. intros attr Hattr.
    by rewrite lookup_insert_ne.
  - rewrite list_lookup_insert_ne in Hc' by done. by exists c'.
Qed.

Lemma for_each_mut_inv {S X} (P : S → Prop) (body : S → X → S * result (@error Value) ())
    xs s :
  P s → (∀ s x, P s → P (body s x).1) → P (for_each_mut body xs s).1.
Proof.
  intros Hs Hstep. revert s Hs. induction xs as [|x xs IH]; intros s Hs; [done|].
  cbn [for_each_mut]. specialize (Hstep s x Hs).
  destruct (body s x) as [s' [[]|e]]; [by apply IH|done].
Qed.

Lemma deduplicate_same_but_suffix (courses : list Course) :
  same_but_suffix courses (deduplicate_course_keys courses).1.
Proof.
  unfold deduplicate_course_keys.
  destruct (group_courses courses) as [groups|e]; [|apply same_but_suffix_refl].
  apply (for_each_mut_inv (same_but_suffix courses)); [apply same_but_suffix_refl|].
  intros heap [key members] Hheap. unfold deduplicate_group.
  case_decide; [|done]. destruct (for_each _ _ _); [|done]. cbn [fst].
  eapply same_but_suffix_trans; [done|].
  generalize (zip members ascii_uppercase). intros items. revert heap Hheap.
  induction items as [|item items IH]; intros heap Hheap; [apply same_but_suffix_refl|].
  cbn [foldl]. eapply same_but_suffix_trans; [apply assign_suffix_same_but_suffix|].
  apply IH. eapply same_but_suffix_trans; [done|apply assign_suffix_same_but_suffix].
Qed.

(** Whatever the batch and whatever the outcome, deduplication keeps the
    number and order of the courses and touches no attribute other than
    the code suffix. *)
Theorem deduplicate_touches_only_suffix (courses : list Course) :
  same_but_suffix courses (deduplicate_course_keys courses).1.
Proof. apply deduplicate_same_but_suffix. Qed.

(** A course without one of the identity attributes makes deduplication,
    and with it indexing, raise [KeyError] before any course is touched. *)
Theorem deduplicate_missing_identity_attribute (courses : list Course) c attr :
  c ∈ courses → attr ∈ COURSE_INDEX_ATTRS → c !! attr = None →
  deduplicate_course_keys courses = (courses, Raise KeyError) ∧
  index_courses courses = (courses, Raise KeyError).
Proof.
  intros Hc Hattr Hmissing.
  assert (group_courses courses = Raise KeyError) as Hgroups.
  { unfold group_courses. destruct (for_each _ _ _) as [groups|e] eqn:Hrun.
    - exfalso.
      apply list_elem_of_lookup in Hc as [i Hi].
      destruct (for_each_ok_steps _ _ _ _ (i, c) Hrun) as (g1 & g2 & Hstep).
      { apply list_elem_of_lookup. exists i. by rewrite list_lookup_imap, Hi. }
      cbn beta iota in Hstep. destruct (course_to_index_key c) as [key|] eqn:Hkey; [|done].
      destruct (read_attrs_present _ _ _ attr Hkey Hattr) as [v Hv]. congruence.
    - f_equal. revert Hrun. apply (for_each_raise_inv (λ e, e = KeyError)).
      intros g [i c'] e1 _. cbn beta iota.
      destruct (course_to_index_key c') eqn:Hkey; [done|]. cbn. intros [= <-].
      by eapply read_attrs_raises. }
  assert (deduplicate_course_keys courses = (courses, Raise KeyError)) as Hdedup.
  { unfold deduplicate_course_keys. by rewrite Hgroups. }
  split; [done|]. unfold index_courses. by rewrite Hdedup.
Qed.

Lemma index_courses_ok (courses courses' : list Course) (idx : gmap Key Course) :
  index_courses courses = (courses', Ok idx) →
  same_but_suffix courses courses' ∧
  size idx = length courses ∧
  ∀ key course, idx !! key = Some course ↔
    course ∈ courses' ∧ course_to_index_key course = Ok key.
Proof.
  unfold index_courses. intros Hrun.
  pose proof (deduplicate_same_but_suffix courses) as Hsame.
  destruct (deduplicate_course_keys courses) as [cs [[]|e]]; [|done].
  cbn [mbind result_bind] in Hrun. injection Hrun as <- Hloop. cbn [fst] in Hsame.
  destruct (index_loop_spec _ _ _ Hloop) as [Hsize Hlookup].
  split_and!; [done| |].
  - rewrite Hsize, map_size_empty. destruct Hsame as [-> _]. done.
  - intros key course. rewrite Hlookup, lookup_empty. naive_solver.
Qed.

(** When indexing succeeds the index holds exactly the courses of the
    deduplicated batch, each under its own identity key, one entry per
    course. *)
Theorem index_courses_spec (courses courses' : list Course) (idx : gmap Key Course) :
  index_courses courses = (courses', Ok idx) →
  same_but_suffix courses courses' ∧
  size idx = length courses ∧
  ∀ key course, idx !! key = Some course ↔
    course ∈ courses' ∧ course_to_index_key course = Ok key.
Proof. apply index_courses_ok. Qed.

(** The positions of the courses of a batch that have the identity key
    [key], in the order of the batch. *)
Definition positions_with_key (key : Key) (courses : list Course) : list nat :=
  filter (λ i, course_to_index_key <$> courses !! i = Some (Ok key))
         (seq 0 (length courses)).

Lemma filter_ext_in {A} (P Q : A → Prop) `{∀ x, Decision (P x)} `{∀ x, Decision (Q x)}
    (l : list A) :
  (∀ x, x ∈ l → P x ↔ Q x) → filter P l = filter Q l.
Proof.
  induction l as [|x l IH]; intros Hext; [done|].
  rewrite !filter_cons. rewrite IH by (intros y Hy; apply Hext; by right).
  destruct (decide (P x)) as [HP|HP].
  - by rewrite decide_True by (apply Hext; [left|done]).
  - rewrite decide_False; [done|]. intros HQ. apply HP, Hext; [left|done].
Qed.

Lemma positions_with_key_snoc key (courses : list Course) c kc :
  course_to_index_key c = Ok kc →
  positions_with_key key (courses ++ [c]) =
    positions_with_key key courses ++ (if decide (kc = key) then [length courses] else []).
Proof.
  intros Hkc. unfold positions_with_key.
  rewrite length_app. simpl. rewrite Nat.add_1_r, seq_S, filter_app. simpl. f_equal.
  - apply filter_ext_in. intros i Hi%elem_of_seq.
    by rewrite lookup_app_l by lia.
  - rewrite filter_cons, filter_nil.
    rewrite lookup_app_r by lia. rewrite Nat.sub_diag. simpl. rewrite Hkc.
    destruct (decide (kc = key)) as [->|Hne].
    + by rewrite decide_True.
    + rewrite decide_False; [done|]. by intros [= ->].
Qed.

Lemma elem_of_positions_with_key key (courses : list Course) i :
  i ∈ positions_with_key key courses ↔
  ∃ c, courses !! i = Some c ∧ course_to_index_key c = Ok key.
Proof.
  unfold positions_with_key. rewrite list_elem_of_filter, elem_of_seq. split.
  - intros [Hkey _]. destruct (courses !! i) as [c|]; [|done].
    exists c. split; [done|]. by injection Hkey.
  - intros (c & Hc & Hkey). split; [by rewrite Hc; simpl; rewrite Hkey|].
    apply lookup_lt_Some in Hc. lia.
Qed.

(** The first loop groups the positions by key, in batch order. *)
Lemma group_courses_positions (courses : list Course) :
  Forall (λ c, ∃ key, course_to_index_key c = Ok key) courses →
  ∃ groups, group_courses courses = Ok groups ∧
    NoDup groups.*1 ∧
    (∀ i c key, courses !! i = Some c → course_to_index_key c = Ok key →
       key ∈ groups.*1) ∧
    ∀ key members, (key, members) ∈ groups →
      members = positions_with_key key courses.
Proof.
  unfold group_courses.
  induction courses as [|c courses IH] using rev_ind; intros Hkeys.
  { exists []. split_and!; [done|constructor| |].
    - intros i c key Hi. by rewrite lookup_nil in Hi.
    - intros key members []%elem_of_nil. }
  apply Forall_app in Hkeys as [Hkeys [[kc Hkc] _]%Forall_cons].
  destruct (IH Hkeys) as (groups & Hrun & Hnd & Hcomp & Hpos).
  rewrite imap_app, for_each_app, Hrun. cbn [mbind result_bind imap for_each].
  rewrite Hkc. cbn [mbind result_bind]. rewrite Nat.add_0_r.
  eexists. split; [done|]. split_and!.
  - rewrite group_append_keys. case_decide; [done|].
    apply NoDup_app. split_and!; [done| |apply NoDup_singleton].
    by intros k Hk ->%list_elem_of_singleton.
  - intros i c' key Hi Hkey. rewrite group_append_keys.
    destruct (decide (i < length courses)%nat) as [Hlt|Hge].
    + rewrite lookup_app_l in Hi by done. pose proof (Hcomp _ _ _ Hi Hkey).
      case_decide; [done|]. apply elem_of_app. by left.
    + rewrite lookup_app_r in Hi by lia.
      apply list_lookup_singleton_Some in Hi as [_ <-].
      rewrite Hkc in Hkey. injection Hkey as <-.
      case_decide; [done|]. apply elem_of_app. right. by apply list_elem_of_singleton.
  - intros key members. rewrite (elem_of_group_append _ _ _ _ _ Hnd).
    rewrite (positions_with_key_snoc _ _ _ _ Hkc).
    intros [[Hne Hin]|[-> [(members0 & Hin & ->)|[Hnotin ->]]]].
    + rewrite decide_False by done. rewrite app_nil_r. by apply Hpos.
    + rewrite decide_True by done. f_equal. by apply Hpos.
    + rewrite decide_True by done.
      assert (positions_with_key kc courses = []) as ->; [|done].
      destruct (positions_with_key kc courses) as [|i l] eqn:Hp; [done|].
      assert (i ∈ positions_with_key kc courses) as (c' & Hc' & Hk')%elem_of_positions_with_key
        by (rewrite Hp; left).
      exfalso. apply Hnotin. by eapply Hcomp.
Qed.

(** The course at rank [r] of a group of [n] courses after lettering. *)
Definition lettered (n r : nat) (c : Course) : Course :=
  if decide (1 < n)%nat then
    match ascii_uppercase !! r with
    | Some letter => <["courseCodeSuffix" := VStr letter]> c
    | None => c
    end
  else c.

Lemma assign_suffix_positions (members : list nat) (letters : list string)
    (heap : list Course) :
  NoDup members →
  (∀ i, i ∈ members → is_Some (heap !! i)) →
  let heap' := foldl assign_suffix heap (zip members letters) in
  (∀ n, n ∉ members → heap' !! n = heap !! n) ∧
  ∀ r i c, members !! r = Some i → heap !! i = Some c →
    heap' !! i = Some (match letters !! r with
                       | Some letter => <["courseCodeSuffix" := VStr letter]> c
                       | None => c
                       end).
Proof.
  revert letters heap. induction members as [|i0 members IH];
    intros letters heap Hnd Hsome heap'.
  { split; [done|]. intros r i c Hr. by rewrite lookup_nil in Hr. }
  apply NoDup_cons in Hnd as [Hfresh Hnd].
  destruct letters as [|l letters].
  { subst heap'. cbn. split; [done|]. intros r i c _ Hc. by rewrite lookup_nil. }
  subst heap'. cbn [zip zip_with foldl].
  destruct (Hsome i0) as [c0 Hc0]; [left|].
  assert (assign_suffix heap (i0, l) = <[i0 := <["courseCodeSuffix" := VStr l]> c0]> heap)
    as Hassign by (unfold assign_suffix; by rewrite Hc0).
  rewrite Hassign.
  destruct (IH letters (<[i0 := <["courseCodeSuffix" := VStr l]> c0]> heap)) as [Hout Hin].
  { done. }
  { intros i Hi. rewrite list_lookup_insert_ne by (by intros ->).
    apply Hsome. by right. }
  split.
  - intros n [Hne Hn]%not_elem_of_cons. rewrite Hout by done.
    by rewrite list_lookup_insert_ne.
  - intros [|r] i c Hr Hc; cbn in Hr.
    + injection Hr as <-. rewrite Hout by done.
      rewrite list_lookup_insert_eq by (by eapply lookup_lt_Some).
      rewrite Hc0 in Hc. by injection Hc as <-.
    + assert (i ≠ i0) as Hne.
      { intros ->. apply Hfresh. by eapply list_elem_of_lookup_2. }
      cbn. apply Hin; [done|]. by rewrite list_lookup_insert_ne.
Qed.

Lemma deduplicate_loop_ok (orig : list Course) gs (heap : list Course) :
  NoDup gs.*1 →
  (∀ key members, (key, members) ∈ gs → members = positions_with_key key orig) →
  (∀ key members i, (key, members) ∈ gs → i ∈ members → heap !! i = orig !! i) →
  (∀ key members i c, (key, members) ∈ gs → (1 < length members)%nat →
     i ∈ members → orig !! i = Some c → ¬ has_suffix c) →
  ∃ heap',
    for_each_mut deduplicate_group gs heap = (heap', Ok ()) ∧
    (∀ n, (∀ key members, (key, members) ∈ gs → n ∉ members) → heap' !! n = heap !! n) ∧
    ∀ key members r i c, (key, members) ∈ gs → members !! r = Some i →
      orig !! i = Some c → heap' !! i = Some (lettered (length members) r c).
Proof.
  revert heap. induction gs as [|[key members] gs IH]; intros heap Hnd Hpos Hsame Hclean.
  { exists heap. split_and!; [done..|]. intros ????? []%elem_of_nil. }
  rewrite fmap_cons in Hnd. apply NoDup_cons in Hnd as [Hfresh Hnd]. cbn [fst] in Hfresh.
  assert (members = positions_with_key key orig) as Hmembers by (apply Hpos; left).
  assert (NoDup members) as Hndm.
  { rewrite Hmembers. apply NoDup_filter, NoDup_seq. }
  assert (∀ key' members' i, (key', members') ∈ gs → i ∈ members' → i ∉ members) as Hdisj.
  { intros key' members' i Hin Hi Hi'.
    rewrite (Hpos key' members') in Hi by (by right). rewrite Hmembers in Hi'.
    apply elem_of_positions_with_key in Hi as (c & Hc & Hk).
    apply elem_of_positions_with_key in Hi' as (c' & Hc' & Hk').
    rewrite Hc in Hc'. injection Hc' as <-. rewrite Hk in Hk'. injection Hk' as <-.
    apply Hfresh. apply list_elem_of_fmap. by exists (key', members'). }
  assert (∀ i, i ∈ members →
            ∃ c, heap !! i = Some c ∧ orig !! i = Some c ∧
                 is_Some (c !! "courseCodeSuffix")) as Hattr.
  { intros i Hi. rewrite (Hsame key members i) by (done || by left).
    rewrite Hmembers in Hi. apply elem_of_positions_with_key in Hi as (c & Hc & Hk).
    exists c. split_and!; [done..|]. by eapply key_has_suffix_attr. }
  cbn [for_each_mut]. unfold deduplicate_group at 1.
  destruct (decide (1 < length members)%nat) as [Hmany|Hfew].
  - destruct (check_no_suffix_loop heap members)
      as [[Hok _]|(r0 & i & c & Hi%list_elem_of_lookup_2 & Hc & Hs & _)].
    { intros i Hi. destruct (Hattr i Hi) as (c & ? & _ & ?). eauto. }
    2:{ exfalso. destruct (Hattr i Hi) as (c' & Hc' & Ho & _).
        rewrite Hc in Hc'. injection Hc' as <-.
        by apply (Hclean key members i c); [left|..]. }
    rewrite Hok.
    destruct (assign_suffix_positions members ascii_uppercase heap) as [Hout Hin];
      [done|intros i Hi; destruct (Hattr i Hi) as (c & ? & _); eauto|].
    set (heap1 := foldl assign_suffix heap (zip members ascii_uppercase)) in *.
    destruct (IH heap1) as (heap' & Hrun & Hout' & Hin').
    + done.
    + intros key' members' Hin0. apply Hpos. by right.
    + intros key' members' i Hin0 Hi. rewrite Hout by (by eapply Hdisj).
      apply (Hsame key' members'); [by right|done].
    + intros key' members' i c Hin0. apply (Hclean key' members' i c). by right.
    + exists heap'. split_and!; [done| |].
      * intros n Hn. rewrite Hout'; [apply Hout; apply (Hn key members); left|].
        intros key' members' Hin0. apply (Hn key' members'). by right.
      * intros key' members' r i c [Heq|Hin0]%elem_of_cons Hr Hc.
        -- injection Heq as -> ->. rewrite Hout'.
           ++ unfold lettered. rewrite decide_True by done. apply (Hin r i c Hr).
              rewrite (Hsame key members i); [done|by left|by eapply list_elem_of_lookup_2].
           ++ intros key' members' Hin0 Hi. eapply Hdisj; [done..|].
              by eapply list_elem_of_lookup_2.
        -- by eapply Hin'.
  - destruct (IH heap) as (heap' & Hrun & Hout' & Hin').
    + done.
    + intros key' members' Hin0. apply Hpos. by right.
    + intros key' members' i Hin0 Hi. apply (Hsame key' members'); [by right|done].
    + intros key' members' i c Hin0. apply (Hclean key' members' i c). by right.
    + exists heap'. split_and!; [done| |].
      * intros n Hn. apply Hout'. intros key' members' Hin0. apply (Hn key' members'). by right.
      * intros key' members' r i c [Heq|Hin0]%elem_of_cons Hr Hc.
        -- injection Heq as -> ->. rewrite Hout'.
           ++ unfold lettered. rewrite decide_False by done.
              rewrite (Hsame key members i); [done|by left|by eapply list_elem_of_lookup_2].
           ++ intros key' members' Hin0 Hi. eapply Hdisj; [done..|].
              by eapply list_elem_of_lookup_2.
        -- by eapply Hin'.
Qed.

Lemma deduplicate_letters (courses : list Course) :
  Forall (λ c, ∃ key, course_to_index_key c = Ok key) courses →
  (∀ i j ci cj, i ≠ j → courses !! i = Some ci → courses !! j = Some cj →
     course_to_index_key ci = course_to_index_key cj → ¬ has_suffix ci) →
  ∃ courses',
    deduplicate_course_keys courses = (courses', Ok ()) ∧
    ∀ key r i c,
      positions_with_key key courses !! r = Some i →
      courses !! i = Some c →
      courses' !! i = Some (lettered (length (positions_with_key key courses)) r c).
Proof.
  intros Hkeys Hclean.
  destruct (group_courses_positions courses Hkeys) as (groups & Hrun & Hnd & Hcomp & Hpos).
  unfold deduplicate_course_keys. rewrite Hrun.
  destruct (deduplicate_loop_ok courses groups courses) as (courses' & Hloop & _ & Hin);
    [done..| |].
  { intros key members i c Hg Hmany Hi Hc.
    assert (NoDup members) as Hndm.
    { rewrite (Hpos _ _ Hg). apply NoDup_filter, NoDup_seq. }
    assert (∃ j, j ∈ members ∧ j ≠ i) as (j & Hj & Hne).
    { destruct members as [|a [|b members]]; cbn in Hmany; [lia..|].
      destruct (decide (a = i)) as [->|Ha].
      - exists b. split; [right; left|]. intros ->.
        apply NoDup_cons in Hndm as [Hno _]. apply Hno. left.
      - exists a. split; [left|done]. }
    rewrite (Hpos _ _ Hg) in Hi, Hj.
    apply elem_of_positions_with_key in Hi as (ci & Hci & Hki).
    apply elem_of_positions_with_key in Hj as (cj & Hcj & Hkj).
    rewrite Hc in Hci. injection Hci as <-.
    apply (Hclean i j c cj); [done..|congruence]. }
  exists courses'. split; [done|]. intros key r i c Hr Hc.
  assert (i ∈ positions_with_key key courses) as (c' & Hc' & Hk)%elem_of_positions_with_key
    by (by eapply list_elem_of_lookup_2).
  rewrite Hc in Hc'. injection Hc' as <-.
  pose proof (Hcomp _ _ _ Hc Hk) as Hg.
  apply list_elem_of_fmap in Hg as ([key' members] & Heq & Hg). cbn in Heq. subst key'.
  rewrite <- (Hpos _ _ Hg) in Hr |- *. by eapply Hin.
Qed.

(** Deduplication proper: when no course that shares its key with another
    carries a suffix, the call succeeds; a course whose key is unique is
    left as it is, and among the courses that share a key the first in the
    batch gets the suffix A, the second B, and so on through Z; courses
    beyond the twenty-sixth of a key are left without a letter. *)
Theorem deduplicate_assigns_letters (courses : list Course) :
  Forall (λ c, ∃ key, course_to_index_key c = Ok key) courses →
  (∀ i j ci cj, i ≠ j → courses !! i = Some ci → courses !! j = Some cj →
     course_to_index_key ci = course_to_index_key cj → ¬ has_suffix ci) →
  ∃ courses',
    deduplicate_course_keys courses = (courses', Ok ()) ∧
    ∀ key r i c,
      positions_with_key key courses !! r = Some i →
      courses !! i = Some c →
      courses' !! i = Some (lettered (length (positions_with_key key courses)) r c).
Proof. apply deduplicate_letters. Qed.

Lemma index_loop_total (courses : list Course) (acc : gmap Key Course) :
  Forall (λ c, ∃ key, course_to_index_key c = Ok key ∧ key ∉ dom acc) courses →
  NoDup (course_to_index_key <$> courses) →
  ∃ idx, for_each index_courses_step courses acc = Ok idx.
Proof.
  revert acc. induction courses as [|c courses IH]; intros acc Hkeys Hnd; [by exists acc|].
  apply Forall_cons in Hkeys as [(k & Hk & Hfresh) Hkeys].
  rewrite fmap_cons in Hnd. apply NoDup_cons in Hnd as [Hnotin Hnd].
  cbn [for_each].
  assert (index_courses_step acc c = Ok (<[k := c]> acc)) as ->.
  { unfold index_courses_step. rewrite Hk. cbn [mbind result_bind].
    by rewrite decide_False. }
  cbn [mbind result_bind]. apply IH; [|done].
  apply Forall_forall. intros c' Hc'. rewrite Forall_forall in Hkeys.
  destruct (Hkeys c' Hc') as (k' & Hk' & Hfresh'). exists k'. split; [done|].
  rewrite dom_insert_L. apply not_elem_of_union. split; [|done].
  intros ->%elem_of_singleton. apply Hnotin.
  apply list_elem_of_fmap. exists c'. split; [congruence|done].
Qed.

(** A batch whose courses all have different identity keys passes through
    untouched, and its index holds every course under its key. *)
Theorem index_courses_distinct_keys (courses : list Course) :
  Forall (λ c, ∃ key, course_to_index_key c = Ok key) courses →
  NoDup (course_to_index_key <$> courses) →
  ∃ idx,
    index_courses courses = (courses, Ok idx) ∧
    size idx = length courses ∧
    ∀ key course, idx !! key = Some course ↔
      course ∈ courses ∧ course_to_index_key course = Ok key.
Proof.
  intros Hkeys Hnd.
  assert (∀ i j ci cj, courses !! i = Some ci → courses !! j = Some cj →
            course_to_index_key ci = course_to_index_key cj → i = j) as Hinj.
  { intros i j ci cj Hi Hj Heq.
    eapply (NoDup_lookup _ i j (course_to_index_key ci) Hnd).
    - by rewrite list_lookup_fmap, Hi.
    - by rewrite list_lookup_fmap, Hj, Heq. }
  destruct (deduplicate_letters courses Hkeys) as (courses' & Hrun & Hletters).
  { intros i j ci cj Hne Hi Hj Heq. exfalso. apply Hne. by eapply Hinj. }
  assert (courses' = courses) as ->.
  { pose proof (deduplicate_same_but_suffix courses) as [Hlen _].
    rewrite Hrun in Hlen. cbn in Hlen.
    apply list_eq. intros i. destruct (courses !! i) as [c|] eqn:Hc.
    - rewrite Forall_forall in Hkeys.
      destruct (Hkeys c) as [key Hkey]; [by eapply list_elem_of_lookup_2|].
      assert (i ∈ positions_with_key key courses) as Hi
        by (apply elem_of_positions_with_key; eauto).
      apply list_elem_of_lookup in Hi as [r Hr].
      rewrite (Hletters key r i c Hr Hc). f_equal. unfold lettered.
      rewrite decide_False; [done|].
      assert (∀ j, j ∈ positions_with_key key courses → j = i) as Hall.
      { intros j (cj & Hcj & Hkj)%elem_of_positions_with_key.
        eapply Hinj; [done..|congruence]. }
      assert (NoDup (positions_with_key key courses)) as Hndp
        by apply NoDup_filter, NoDup_seq.
      destruct (positions_with_key key courses) as [|a [|b l]]; cbn; [lia..|].
      exfalso. apply NoDup_cons in Hndp as [Hno _]. apply Hno.
      rewrite (Hall a) by left. rewrite (Hall b) by (right; left). left.
    - apply lookup_ge_None in Hc. apply lookup_ge_None. lia. }
  destruct (index_loop_total courses ∅) as [idx Hidx]; [|done|].
  { eapply Forall_impl; [exact Hkeys|]. intros c [key Hkey]. exists key.
    split; [done|]. rewrite dom_empty_L. set_solver. }
  assert (index_courses courses = (courses, Ok idx)) as Hindex.
  { unfold index_courses. rewrite Hrun. cbn [mbind result_bind]. by rewrite Hidx. }
  exists idx. split; [done|].
  destruct (index_courses_ok _ _ _ Hindex) as (_ & Hsize & Hlookup). done.
Qed.

(** ** Routing *)

Lemma timestamp_run_app run rest :
  timestamp_run run = run → timestamp_run rest = "" →
  timestamp_run (run +:+ rest) = run.
Proof.
  intros Hrun Hrest. induction run as [|a run IH]; [done|].
  simpl in Hrun |- *. destruct (is_timestamp_char a); [|done].
  injection Hrun as Hrun. f_equal. by apply IH.
Qed.

Lemma do_GET_prefix_routes (run rest : string) (w : world) :
  (run ≠ "" → timestamp_run run = run → timestamp_run rest = "" →
   do_GET COURSE_ATTRS ("/api/v2/courses-since/" +:+ run +:+ rest) w =
     (get_courses_since COURSE_ATTRS run (course_data w), w)) ∧
  do_GET COURSE_ATTRS ("/api/v2/all-courses" +:+ rest) w =
    (get_all_courses (course_data w), w) ∧
  do_GET COURSE_ATTRS ("/api/v2/malformed-courses" +:+ rest) w =
    (get_malformed_courses (course_data w), w).
Proof.
  split_and!.
  - intros Hne Hrun Hrest. rewrite do_GET_courses_since. unfold match_timestamp.
    rewrite timestamp_run_app by done. by destruct run.
  - unfold do_GET. destruct (decide _) as [Heq|_]; [discriminate Heq|].
    by rewrite strip_prefix_app.
  - unfold do_GET. destruct (decide _) as [Heq|_]; [discriminate Heq|].
    assert (strip_prefix "/api/v2/all-courses" ("/api/v2/malformed-courses" +:+ rest)
            = None) as -> by reflexivity.
    assert (strip_prefix "/api/v2/courses-since/" ("/api/v2/malformed-courses" +:+ rest)
            = None) as -> by reflexivity.
    cbn [mbind option_bind]. by rewrite strip_prefix_app.
Qed.

(** The routes match on prefixes: whatever follows the timestamp of a diff
    request (a slash or anything that is not a digit or a minus sign), and
    whatever follows the name of the other two read routes, is ignored. *)
Theorem routes_match_prefixes (run rest : string) (w : world) :
  (run ≠ "" → timestamp_run run = run → timestamp_run rest = "" →
   do_GET COURSE_ATTRS ("/api/v2/courses-since/" +:+ run +:+ rest) w =
     (get_courses_since COURSE_ATTRS run (course_data w), w)) ∧
  do_GET COURSE_ATTRS ("/api/v2/all-courses" +:+ rest) w =
    (get_all_courses (course_data w), w) ∧
  do_GET COURSE_ATTRS ("/api/v2/malformed-courses" +:+ rest) w =
    (get_malformed_courses (course_data w), w).
Proof. apply do_GET_prefix_routes. Qed.

(** ** The debug operations *)

Lemma do_PUT_effects (server : server_t) path now (body : list Course) (w : world) :
  INITIAL_COURSE_DATA (do_PUT server path now body w).2 = INITIAL_COURSE_DATA w ∧
  copied_course_data (do_PUT server path now body w).2 = copied_course_data w ∧
  (debug server = false →
     do_PUT server path now body w = (SendError NOT_IMPLEMENTED, w)) ∧
  (course_data_is_template w = true → (do_PUT server path now body w).2 = w).
Proof.
  unfold do_PUT. destruct (debug server); cbn [negb].
  - destruct (strip_prefix _ _).
    + destruct (put_set_courses _ _ _); done.
    + repeat case_decide; cbn; split_and!; try done.
      intros Ht. destruct w. cbn in *. by subst.
  - done.
Qed.

(** No [PUT] request writes into either dictionary; in production mode it
    is refused; and once [course_data] denotes the template, no [PUT]
    request changes the state at all. *)
Theorem do_PUT_dictionaries (server : server_t) path now (body : list Course) (w : world) :
  INITIAL_COURSE_DATA (do_PUT server path now body w).2 = INITIAL_COURSE_DATA w ∧
  copied_course_data (do_PUT server path now body w).2 = copied_course_data w ∧
  (debug server = false →
     do_PUT server path now body w = (SendError NOT_IMPLEMENTED, w)) ∧
  (course_data_is_template w = true → (do_PUT server path now body w).2 = w).
Proof. apply do_PUT_effects. Qed.

(** The first reset works: with a pristine template the store is empty
    afterwards and every read operation answers "service unavailable". *)
Theorem reset_with_pristine_template (server : server_t) now (body : list Course)
    (w : world) :
  debug server = true →
  INITIAL_COURSE_DATA w = initial_course_data →
  let w' := (do_PUT server "/debug/reset" now body w).2 in
  course_data w' = initial_course_data ∧
  (do_GET COURSE_ATTRS "/api/v2/all-courses" w').1 = SendError SERVICE_UNAVAILABLE ∧
  (do_GET COURSE_ATTRS "/api/v2/malformed-courses" w').1 = SendError SERVICE_UNAVAILABLE ∧
  (do_GET COURSE_ATTRS "/api/v2/courses-since/0" w').1 = SendError SERVICE_UNAVAILABLE.
Proof.
  intros Hdebug Hpristine w'.
  assert (course_data w' = initial_course_data) as Hcd.
  { subst w'. unfold do_PUT. rewrite Hdebug. cbn. done. }
  split; [done|].
  pose proof (do_GET_prefix_routes "0" "" w') as (Hsince & Hall & Hmal).
  assert (do_GET COURSE_ATTRS "/api/v2/all-courses" w'
          = (get_all_courses (course_data w'), w')) as -> by exact Hall.
  assert (do_GET COURSE_ATTRS "/api/v2/malformed-courses" w'
          = (get_malformed_courses (course_data w'), w')) as -> by exact Hmal.
  assert (do_GET COURSE_ATTRS "/api/v2/courses-since/0" w'
          = (get_courses_since COURSE_ATTRS "0" (course_data w'), w')) as ->
    by (by apply Hsince).
  rewrite Hcd. done.
Qed.

(** After a reset the store is the template itself: a successful refresh
    writes into the template, and a further reset changes nothing, so the
    store stays initialised. *)
Theorem refresh_after_reset_sticks (server : server_t) now (body : list Course)
    t output (w w' : world) :
  course_data_is_template w = true →
  run_single_fetch_task COURSE_ATTRS t output w = (true, w') →
  INITIAL_COURSE_DATA w' = course_data w' ∧
  is_Some (index (course_data w')) ∧
  (do_PUT server "/debug/reset" now body w').2 = w'.
Proof.
  intros Ht. unfold run_single_fetch_task.
  destruct (fetch_and_update_course_data _ _ _ _) as [cd|] eqn:Hfetch; [|done].
  intros [= <-].
  assert (course_data_is_template (set_course_data cd w) = true) as Ht'.
  { unfold set_course_data. by rewrite Ht. }
  assert (course_data (set_course_data cd w) = cd) as Hcd.
  { unfold course_data, set_course_data. by rewrite Ht. }
  split_and!.
  - unfold course_data. by rewrite Ht'.
  - rewrite Hcd. revert Hfetch. unfold fetch_and_update_course_data.
    destruct output as [[courses mal]|]; [|done].
    destruct (index_courses courses) as [cs [idx|]]; [|done]. cbn [mbind result_bind].
    unfold update_course_data.
    destruct (index (course_data w)); [destruct (compute_update _ _ _); [|done]|];
      cbn; intros [= <-]; cbn; eauto.
  - by apply do_PUT_effects.
Qed.

End MoreProperties.

(** * The replay, exactly *)

(** More about loops: a loop that raises has a step that raises. *)
Lemma for_each_raise_step {E S X} (body : S → X → result E S) xs s e :
  for_each body xs s = Raise e → ∃ s1 x, x ∈ xs ∧ body s1 x = Raise e.
Proof.
  revert s. induction xs as [|x xs IH]; intros s; cbn [for_each]; [done|].
  destruct (body s x) as [s1|e1] eqn:Hx; cbn [mbind result_bind].
  - intros (s2 & y & Hy & Hraise)%IH. exists s2, y. split; [by right|done].
  - intros [= <-]. exists s, x. split; [left|done].
Qed.

Section Replay.

Context {Value : Type} `{!JsonValue Value}.
Variable COURSE_ATTRS : list string.

Local Abbreviation Course := (gmap string Value).
Local Abbreviation Key := (list Value).

(** ** The snapshots behind a replay

    A replay since [since] folds the Update Records between consecutive
    snapshots: the index [base] that was current at [since] and, after it,
    the index of every later refresh. *)

(** The course was in the index at [since] and missing from a later one. *)
Definition round_trip (key : Key) (base : gmap Key Course)
    (later : list (gmap Key Course)) : Prop :=
  key ∈ dom base ∧ ∃ idx, idx ∈ later ∧ key ∉ dom idx.

(** The attribute of the course changed between two consecutive snapshots,
    and the course has been in every snapshot from then on. *)
Definition changed_in_stay (key : Key) (attr : string)
    (snapshots : list (gmap Key Course)) : Prop :=
  ∃ before idx idx' after o n,
    snapshots = before ++ idx :: idx' :: after ∧
    idx !! key = Some o ∧ idx' !! key = Some n ∧ o !! attr ≠ n !! attr ∧
    Forall (λ s : gmap Key Course, key ∈ dom s) after.

Lemma round_trip_snoc key base later idx' :
  round_trip key base (later ++ [idx']) ↔
  round_trip key base later ∨ (key ∈ dom base ∧ key ∉ dom idx').
Proof.
  unfold round_trip. split.
  - intros (Hb & s & [Hs|Hs%list_elem_of_singleton]%elem_of_app & Hout).
    + left. eauto.
    + subst s. by right.
  - intros [(Hb & s & Hs & Hout)|[Hb Hout]]; (split; [done|]).
    + exists s. split; [|done]. apply elem_of_app. by left.
    + exists idx'. split; [|done]. apply elem_of_app. right. by apply list_elem_of_singleton.
Qed.

Lemma changed_in_stay_last key attr snapshots idx :
  changed_in_stay key attr snapshots → last snapshots = Some idx → key ∈ dom idx.
Proof.
  intros (before & a & b & after & o & n & -> & Ha & Hb & _ & Hall) Hlast.
  destruct after as [|s after _] using rev_ind.
  - change (before ++ [a; b]) with (before ++ [a] ++ [b]) in Hlast.
    rewrite app_assoc, last_snoc in Hlast. injection Hlast as <-.
    apply elem_of_dom. eauto.
  - change (before ++ a :: b :: after ++ [s])
      with (before ++ [a; b] ++ after ++ [s]) in Hlast.
    rewrite !app_assoc, last_snoc in Hlast. injection Hlast as <-.
    by apply Forall_app in Hall as [_ [Hs _]%Forall_cons].
Qed.

Lemma changed_in_stay_snoc key attr snapshots idx idx' :
  last snapshots = Some idx →
  changed_in_stay key attr (snapshots ++ [idx']) ↔
  key ∈ dom idx' ∧
  (changed_in_stay key attr snapshots ∨
   ∃ o n, idx !! key = Some o ∧ idx' !! key = Some n ∧ o !! attr ≠ n !! attr).
Proof.
  intros Hlast. split.
  - intros (before & a & b & after & o & n & Heq & Ha & Hb & Hne & Hall).
    destruct after as [|s after _] using rev_ind.
    + change (before ++ [a; b]) with (before ++ [a] ++ [b]) in Heq.
      rewrite app_assoc in Heq. apply app_inj_tail in Heq as [Hs <-].
      rewrite Hs, last_snoc in Hlast. injection Hlast as <-.
      split; [apply elem_of_dom; eauto|]. right. eauto.
    + change (before ++ a :: b :: after ++ [s])
        with (before ++ [a; b] ++ after ++ [s]) in Heq.
      rewrite !app_assoc in Heq. apply app_inj_tail in Heq as [-> <-].
      apply Forall_app in Hall as [Hall [Hs _]%Forall_cons].
      split; [done|]. left. exists before, a, b, after, o, n.
      split_and!; try done. by rewrite <- !app_assoc.
  - intros [Hin [(before & a & b & after & o & n & -> & Ha & Hb & Hne & Hall)|
                 (o & n & Ho & Hn & Hne)]].
    + exists before, a, b, (after ++ [idx']), o, n. split_and!; try done.
      * by rewrite <- app_assoc.
      * apply Forall_app. split; [done|]. by constructor.
    + apply last_Some in Hlast as [before ->].
      exists before, idx, idx', [], o, n. split_and!; try done.
      by rewrite <- app_assoc.
Qed.

(** What the accumulator [modified] holds after the entries that lead from
    [base] through the snapshots [later]: a key of the current index is in
    it when the course made a round trip or one of its tracked attributes
    changed during its present stay, and it has the tracked attributes of
    a round trip (all of them) or those that changed. *)
Record replay_exact (base : gmap Key Course) (later : list (gmap Key Course))
    (idx : gmap Key Course) (acc : accum) : Prop := ReplayExact {
  exact_keys : ∀ key, key ∈ dom (modified acc) ↔
    key ∈ dom idx ∧
    (round_trip key base later ∨
     ∃ attr, attr ∈ COURSE_ATTRS ∧ changed_in_stay key attr (base :: later));
  exact_attrs : ∀ key attrs attr, modified acc !! key = Some attrs →
    (attr ∈ attrs ↔
     attr ∈ COURSE_ATTRS ∧
     (round_trip key base later ∨ changed_in_stay key attr (base :: later)));
}.

Lemma replay_exact_init base : replay_exact base [] base empty_accum.
Proof.
  split.
  - intros key. cbn. rewrite dom_empty_L. split; [set_solver|].
    intros [_ [(_ & s & []%elem_of_nil & _)|(attr & _ & Hch)]].
    destruct Hch as (before & a & b & after & o & n & Heq & _).
    apply (f_equal length) in Heq. rewrite length_app in Heq. cbn in Heq. lia.
  - intros key attrs attr. cbn. by rewrite lookup_empty.
Qed.

Lemma replay_exact_step base later idx idx' gone acc since t u :
  last (base :: later) = Some idx →
  replay_inv COURSE_ATTRS base idx gone acc →
  replay_exact base later idx acc →
  compute_update COURSE_ATTRS idx idx' = Ok u →
  t > since →
  ∃ acc', replay_update COURSE_ATTRS since acc (t, u) = Ok acc' ∧
          replay_inv COURSE_ATTRS base idx' (gone ∪ list_to_set (u_removed u)) acc' ∧
          replay_exact base (later ++ [idx']) idx' acc'.
Proof.
  intros Hlast Hinv [Hkeys Hattrs] Hu Ht.
  destruct (replay_inv_step _ _ _ _ _ _ since t u Hinv Hu Ht) as (acc' & Hrun & Hinv').
  exists acc'. split_and!; [done..|].
  destruct Hinv as [HA HR HMdom Htr Hch Hrt].
  destruct (compute_update_spec _ _ _ _ Hu) as (Hua & Hur & Hum).
  assert (∀ key, key ∈ dom (u_modified u) → key ∈ dom idx ∧ key ∈ dom idx') as Hudom.
  { intros key [attrs (o & n & Ho & Hn & _)%Hum]%elem_of_dom.
    split; apply elem_of_dom; eauto. }
  assert (∀ key, key ∈ u_added u ↔ key ∈ dom idx' ∧ key ∉ dom idx) as Hea.
  { intros key. rewrite Hua, elem_of_elements. set_solver. }
  assert (∀ key, key ∈ u_removed u ↔ key ∈ dom idx ∧ key ∉ dom idx') as Her.
  { intros key. rewrite Hur, elem_of_elements. set_solver. }
  destruct (replay_update_ok COURSE_ATTRS since acc t u) as (acc1 & Hrun1 & _ & _ & HM');
    [done|..].
  { rewrite Hua. apply NoDup_elements. }
  { rewrite Hur. apply NoDup_elements. }
  { intros key Hk%Hudom. rewrite HR. set_solver. }
  { intros key Hk%Hea. split_and!; [set_solver| |set_solver].
    intros Hd%Hudom. tauto. }
  { intros key Hk%Her. rewrite HR. set_solver. }
  rewrite Hrun in Hrun1. injection Hrun1 as <-.
  (* the new entry of [modified], key by key *)
  assert (∀ key, key ∉ dom idx' → modified acc' !! key = None) as Hgone.
  { intros key Hout. apply not_elem_of_dom. intros Hin.
    apply (inv_modified_dom _ _ _ _ _ Hinv') in Hin. done. }
  assert (∀ key, key ∈ dom idx' → key ∉ dom idx →
            modified acc' !! key =
              if decide (key ∈ dom base) then Some (list_to_set COURSE_ATTRS) else None)
    as Harrived.
  { intros key Hin Hout. rewrite HM'.
    rewrite decide_False by (rewrite Her; tauto).
    destruct (decide (key ∈ dom base)) as [Hb|Hb].
    - rewrite decide_True; [done|]. rewrite Hea, HR. set_solver.
    - rewrite decide_False by (rewrite HR; set_solver).
      assert (u_modified u !! key = None) as ->.
      { apply not_elem_of_dom. intros Hd%Hudom. tauto. }
      apply not_elem_of_dom. intros Hd%HMdom. done. }
  assert (∀ key o n, idx !! key = Some o → idx' !! key = Some n →
            modified acc' !! key =
              match differing COURSE_ATTRS o n with
              | [] => modified acc !! key
              | attrs => Some (default ∅ (modified acc !! key) ∪ list_to_set attrs)
              end) as Hstayed.
  { intros key o n Ho Hn. rewrite HM'.
    rewrite decide_False.
    2:{ rewrite Her. intros [_ Hno]. apply Hno, elem_of_dom. eauto. }
    rewrite decide_False.
    2:{ rewrite Hea. intros [[_ Hno] _]. apply Hno, elem_of_dom. eauto. }
    destruct (differing COURSE_ATTRS o n) as [|a l] eqn:Hd.
    - assert (u_modified u !! key = None) as ->; [|done].
      destruct (u_modified u !! key) as [attrs|] eqn:Hl; [|done].
      apply Hum in Hl as (o' & n' & Ho' & Hn' & Hd' & Hne). congruence.
    - assert (u_modified u !! key = Some (a :: l)) as ->; [|done].
      apply Hum. exists o, n. split_and!; try done. }
  assert (∀ key, key ∈ dom idx' →
            (round_trip key base (later ++ [idx']) ↔ round_trip key base later)) as Hrt'.
  { intros key Hin. rewrite round_trip_snoc. tauto. }
  assert (∀ key attr o n, idx !! key = Some o → idx' !! key = Some n →
            (changed_in_stay key attr (base :: later ++ [idx']) ↔
             changed_in_stay key attr (base :: later) ∨ o !! attr ≠ n !! attr)) as Hch'.
  { intros key attr o n Ho Hn.
    rewrite (changed_in_stay_snoc key attr (base :: later) idx idx' Hlast).
    split.
    - intros [_ [?|(o' & n' & Ho' & Hn' & Hne)]]; [by left|right; congruence].
    - intros Hcases. split; [apply elem_of_dom; eauto|].
      destruct Hcases as [?|?]; [by left|right; eauto]. }
  assert (∀ key, key ∈ dom idx' → key ∉ dom idx →
            round_trip key base (later ++ [idx']) ↔ key ∈ dom base) as Hback.
  { intros key Hin Hout. rewrite round_trip_snoc. split.
    - intros [[? _]|[? _]]; done.
    - intros Hb. left. split; [done|]. exists idx. split; [|done].
      destruct later as [|s later _] using rev_ind.
      + cbn in Hlast. injection Hlast as <-. done.
      + change (base :: later ++ [s]) with ((base :: later) ++ [s]) in Hlast.
        rewrite last_snoc in Hlast. injection Hlast as <-.
        apply elem_of_app. right. by apply list_elem_of_singleton. }
  assert (∀ key attr, key ∉ dom idx →
            ¬ changed_in_stay key attr (base :: later ++ [idx'])) as Hfresh.
  { intros key attr Hout.
    rewrite (changed_in_stay_snoc key attr (base :: later) idx idx' Hlast).
    intros [_ [Hc|(o & n & Ho & _)]].
    - by apply (changed_in_stay_last _ _ _ idx) in Hc.
    - apply Hout, elem_of_dom. eauto. }
  assert (∀ o n attr, attr ∈ differing COURSE_ATTRS o n ↔
            attr ∈ COURSE_ATTRS ∧ o !! attr ≠ n !! attr) as Hdiff.
  { intros o n attr. unfold differing. rewrite list_elem_of_filter. tauto. }
  split.
  - (* the keys *)
    intros key. destruct (decide (key ∈ dom idx')) as [Hin|Hout].
    2:{ split; [|tauto]. intros [attrs Hl]%elem_of_dom. by rewrite Hgone in Hl. }
    destruct (decide (key ∈ dom idx)) as [Hold|Hnew].
    + apply elem_of_dom in Hin as Hn. destruct Hn as [n Hn].
      apply elem_of_dom in Hold as Ho. destruct Ho as [o Ho].
      rewrite elem_of_dom, (Hstayed key o n Ho Hn), (Hrt' key Hin).
      specialize (Hkeys key). rewrite elem_of_dom in Hkeys.
      destruct (differing COURSE_ATTRS o n) as [|a l] eqn:Hd.
      * rewrite Hkeys. split.
        -- intros [_ [?|(attr & Hattr & Hc)]]; (split; [done|]); [by left|right].
           exists attr. split; [done|]. apply (Hch' key attr o n Ho Hn). by left.
        -- intros [_ [?|(attr & Hattr & Hc)]]; (split; [done|]); [by left|right].
           exists attr. split; [done|].
           apply (Hch' key attr o n Ho Hn) in Hc as [Hc|Hne]; [done|].
           assert (attr ∈ differing COURSE_ATTRS o n) as Hmem by (by apply Hdiff).
           rewrite Hd in Hmem. by apply elem_of_nil in Hmem.
      * split; [intros _|by eauto]. split; [done|]. right. exists a.
        assert (a ∈ differing COURSE_ATTRS o n) as [Ha Hne]%Hdiff by (rewrite Hd; left).
        split; [done|]. apply (Hch' key a o n Ho Hn). by right.
    + rewrite elem_of_dom, (Harrived key Hin Hnew), (Hback key Hin Hnew).
      destruct (decide (key ∈ dom base)) as [Hb|Hb].
      * split; [intros _; split; [done|by left]|by eauto].
      * split; [by intros [? [=]]|].
        intros [_ [?|(attr & _ & Hc)]]; [done|]. by apply Hfresh in Hc.
  - (* the attributes *)
    intros key attrs attr Hl.
    assert (key ∈ dom idx') as Hin.
    { apply (inv_modified_dom _ _ _ _ _ Hinv'), elem_of_dom. eauto. }
    destruct (decide (key ∈ dom idx)) as [Hold|Hnew].
    + apply elem_of_dom in Hin as Hn. destruct Hn as [n Hn].
      apply elem_of_dom in Hold as Ho. destruct Ho as [o Ho].
      rewrite (Hstayed key o n Ho Hn) in Hl.
      rewrite (Hrt' key Hin), (Hch' key attr o n Ho Hn).
      destruct (differing COURSE_ATTRS o n) as [|a l] eqn:Hd.
      * rewrite (Hattrs key attrs attr Hl). split; [tauto|].
        intros [Hattr [?|[?|Hne]]]; [tauto..|].
        assert (attr ∈ differing COURSE_ATTRS o n) as Hmem by (by apply Hdiff).
        rewrite Hd in Hmem. by apply elem_of_nil in Hmem.
      * assert (attrs = default ∅ (modified acc !! key)
                          ∪ list_to_set (differing COURSE_ATTRS o n)) as ->
          by (rewrite Hd; congruence).
        rewrite elem_of_union, elem_of_list_to_set, Hdiff.
        destruct (modified acc !! key) as [attrs0|] eqn:Hl0; cbn [default].
        -- rewrite (Hattrs key attrs0 attr Hl0). tauto.
        -- assert (key ∉ dom (modified acc)) as Hno by (by apply not_elem_of_dom).
           rewrite Hkeys in Hno. split; [set_solver|].
           intros [Hattr [Hr|[Hc|Hne]]]; [| |by right]; exfalso; apply Hno; eauto.
    + rewrite (Harrived key Hin Hnew) in Hl. rewrite (Hback key Hin Hnew).
      destruct (decide (key ∈ dom base)) as [Hb|Hb]; [|done].
      injection Hl as <-. rewrite elem_of_list_to_set. tauto.
Qed.


(** Replaying the log of the refreshes [rs], all newer than [since]. *)
Lemma replay_exact_log base later idx rs log gone acc since :
  last (base :: later) = Some idx →
  update_log COURSE_ATTRS idx rs = Ok log →
  Forall (λ r, since < r_timestamp r) rs →
  replay_inv COURSE_ATTRS base idx gone acc →
  replay_exact base later idx acc →
  ∃ acc', for_each (replay_update COURSE_ATTRS since) log acc = Ok acc' ∧
          replay_inv COURSE_ATTRS base (final_index idx rs) (gone ∪ removed_keys log) acc' ∧
          replay_exact base (later ++ (r_index <$> rs)) (final_index idx rs) acc'.
Proof.
  revert later idx log gone acc.
  induction rs as [|r rs IH]; intros later idx log gone acc Hlast Hlog Hnew Hinv Hex.
  { cbn in Hlog. injection Hlog as <-. exists acc. cbn [for_each fmap list_fmap].
    rewrite app_nil_r. unfold removed_keys, final_index. cbn.
    by replace (gone ∪ ∅) with gone by set_solver. }
  cbn [update_log] in Hlog.
  destruct (compute_update COURSE_ATTRS idx (r_index r)) as [u|] eqn:Hu; [|done].
  cbn [mbind result_bind] in Hlog.
  destruct (update_log COURSE_ATTRS (r_index r) rs) as [log'|] eqn:Hlog'; [|done].
  cbn [mbind result_bind] in Hlog. injection Hlog as <-.
  apply Forall_cons in Hnew as [Ht Hnew].
  destruct (replay_exact_step base later idx (r_index r) gone acc since (r_timestamp r) u)
    as (acc1 & Hrun1 & Hinv1 & Hex1); [done..|lia|].
  destruct (IH (later ++ [r_index r]) (r_index r) log' (gone ∪ list_to_set (u_removed u)) acc1)
    as (acc' & Hrun & Hinv' & Hex');
    [|done..|].
  { change (base :: later ++ [r_index r]) with ((base :: later) ++ [r_index r]).
    by rewrite last_snoc. }
  exists acc'. cbn [for_each]. rewrite Hrun1. cbn [mbind result_bind].
  split_and!; [done|..].
  - rewrite final_index_cons.
    replace (gone ∪ removed_keys ((r_timestamp r, u) :: log'))
      with (gone ∪ list_to_set (u_removed u) ∪ removed_keys log'); [done|].
    unfold removed_keys. cbn. set_solver.
  - rewrite final_index_cons, fmap_cons.
    by rewrite <- app_assoc in Hex'.
Qed.

(** The replay on a store that still retains every refresh after [since]:
    the older entries are skipped, the others lead from the index at
    [since] to the current one. *)
Lemma replay_within_window cd0 idx0 rs since cd :
  index cd0 = Some idx0 →
  Forall (λ entry : Z * update, entry.1 ≤ since) (updates cd0) →
  Forall (λ r, since < r_timestamp r) rs →
  (length rs ≤ MAX_UPDATES_SAVED)%nat →
  apply_refreshes COURSE_ATTRS rs cd0 = Ok cd →
  ∃ log old acc,
    update_log COURSE_ATTRS idx0 rs = Ok log ∧
    index cd = Some (final_index idx0 rs) ∧
    updates cd = old ++ log ∧
    Forall (λ entry : Z * update, entry.1 ≤ since) old ∧
    replay COURSE_ATTRS (updates cd) since = Ok acc ∧
    replay_inv COURSE_ATTRS idx0 (final_index idx0 rs) (removed_keys log) acc ∧
    replay_exact idx0 (r_index <$> rs) (final_index idx0 rs) acc.
Proof.
  intros Hidx Hold Hnew Hlen Hcd.
  destruct (apply_refreshes_initialized _ _ _ _ _ Hidx Hcd) as (log & Hlog & Hups & Hidx' & _).
  destruct (update_log_history _ _ _ _ Hlog) as [_ Hts].
  assert (length log = length rs) as Hloglen.
  { by rewrite <- (length_fmap fst log), Hts, length_fmap. }
  assert (∃ old, updates cd = old ++ log ∧
                 Forall (λ entry : Z * update, entry.1 ≤ since) old)
    as (old & Hsplit & Holdest).
  { rewrite Hups. destruct rs as [|r rs].
    - destruct log; [|done]. exists (updates cd0). by rewrite app_nil_r.
    - destruct (last_n_app_r MAX_UPDATES_SAVED (updates cd0) log) as (old & -> & ->);
        [lia|].
      eexists. split; [done|]. by apply Forall_drop. }
  destruct (replay_exact_log idx0 [] idx0 rs log ∅ empty_accum since)
    as (acc & Hacc & Hinv & Hex); [done..|apply replay_inv_init|apply replay_exact_init|].
  replace (∅ ∪ removed_keys log) with (removed_keys log) in Hinv by set_solver.
  exists log, old, acc. split_and!; try done.
  unfold replay. rewrite Hsplit, for_each_app.
  by rewrite (replay_skips_old COURSE_ATTRS) by done.
Qed.

(** ** Materialisation, whatever the records hold *)

Lemma map_res_ok {X Y} (f : X → result (@error Value) Y) xs ys :
  map_res f xs = Ok ys → Forall2 (λ x y, f x = Ok y) xs ys.
Proof.
  unfold map_res.
  enough (∀ ys0 ys1, for_each (λ ys x, y ← f x; Ok (ys ++ [y])) xs ys0 = Ok ys1 →
            ∃ ys, ys1 = ys0 ++ ys ∧ Forall2 (λ x y, f x = Ok y) xs ys) as Hgen.
  { intros (ys' & -> & Hall)%Hgen. done. }
  induction xs as [|x xs IH]; intros ys0 ys1; cbn [for_each].
  { intros [= <-]. exists []. split; [by rewrite app_nil_r|constructor]. }
  destruct (f x) as [y|] eqn:Hx; [|done]. cbn [mbind result_bind].
  intros (ys' & -> & Hall)%IH. exists (y :: ys').
  split; [by rewrite <- app_assoc|by constructor].
Qed.

Lemma map_res_raise {X Y} (f : X → result (@error Value) Y) xs e :
  map_res f xs = Raise e → ∃ x, x ∈ xs ∧ f x = Raise e.
Proof.
  unfold map_res. intros (ys & x & Hx & Hraise)%for_each_raise_step.
  exists x. split; [done|]. destruct (f x) as [y|e1]; cbn in Hraise; [done|congruence].
Qed.

Lemma partial_course_ok (current_course : Course) attrs course :
  partial_course current_course attrs = Ok course →
  (∀ attr, attr ∈ attrs → is_Some (current_course !! attr)) ∧
  ∀ attr, course !! attr =
    if decide (attr ∈ attrs) then current_course !! attr else None.
Proof.
  intros Hrun.
  assert (∀ attr, attr ∈ attrs → is_Some (current_course !! attr)) as Hsome.
  { intros attr Hattr. unfold partial_course in Hrun.
    destruct (for_each_ok_steps _ _ _ _ attr Hrun Hattr) as (c1 & c2 & Hstep).
    unfold getitem in Hstep. destruct (current_course !! attr); [eauto|done]. }
  split; [done|].
  destruct (partial_course_spec current_course attrs Hsome) as (course' & Hrun' & Hspec).
  rewrite Hrun in Hrun'. by injection Hrun' as <-.
Qed.

Lemma partial_course_raise (current_course : Course) attrs e :
  partial_course current_course attrs = Raise e →
  e = KeyError ∧ ∃ attr, attr ∈ attrs ∧ current_course !! attr = None.
Proof.
  unfold partial_course. intros (c & attr & Hattr & Hstep)%for_each_raise_step.
  unfold getitem in Hstep. destruct (current_course !! attr) eqn:Hl; [done|].
  injection Hstep as <-. eauto.
Qed.

(** [materialize] on accumulators whose keys are in the index: it returns
    the payload, and then the current course of every modified key has the
    identity attributes and the attributes reported for it, or it raises
    [KeyError], and then one of these attributes is missing. *)
Lemma materialize_outcome (idx : gmap Key Course) acc :
  added acc ⊆ dom idx →
  dom (modified acc) ⊆ dom idx →
  (∃ d, materialize (Some idx) acc = Ok d ∧ describes idx acc d ∧
        ∀ key attrs course attr,
          modified acc !! key = Some attrs → idx !! key = Some course →
          attr ∈ COURSE_INDEX_ATTRS ∨ attr ∈ attrs → is_Some (course !! attr)) ∨
  (materialize (Some idx) acc = Raise KeyError ∧
   ∃ key attrs course attr,
     modified acc !! key = Some attrs ∧ idx !! key = Some course ∧
     (attr ∈ COURSE_INDEX_ATTRS ∨ attr ∈ attrs) ∧ course !! attr = None).
Proof.
  intros Ha Hm. unfold materialize.
  destruct (map_res_spec (λ key course, idx !! key = Some course)
              (index_getitem (Some idx)) (elements (added acc)))
    as (cs_added & -> & Hadded).
  { intros key Hkey%elem_of_elements%Ha%elem_of_dom. destruct Hkey as [c Hc].
    exists c. simpl. unfold getitem. by rewrite Hc. }
  cbn [mbind result_bind].
  assert (∀ key attrs, modified acc !! key = Some attrs →
            ∃ cur, idx !! key = Some cur ∧
              modified_course (Some idx) (key, attrs) =
                partial_course cur (COURSE_INDEX_ATTRS ++ elements attrs)) as Hitem.
  { intros key attrs Hl.
    assert (key ∈ dom idx) as [cur Hcur]%elem_of_dom by (apply Hm, elem_of_dom; eauto).
    exists cur. split; [done|].
    unfold modified_course, index_getitem, getitem. by rewrite Hcur. }
  destruct (map_res (modified_course (Some idx)) (map_to_list (modified acc)))
    as [cs_modified|e] eqn:Hrun; cbn [mbind result_bind].
  - left. eexists. split; [done|].
    apply map_res_ok in Hrun.
    assert (∀ key attrs course, modified acc !! key = Some attrs →
              modified_course (Some idx) (key, attrs) = Ok course →
              ∃ cur, idx !! key = Some cur ∧
                (∀ attr, attr ∈ COURSE_INDEX_ATTRS ∨ attr ∈ attrs → is_Some (cur !! attr)) ∧
                ∀ attr, course !! attr =
                  if decide (attr ∈ COURSE_INDEX_ATTRS ∨ attr ∈ attrs)
                  then cur !! attr else None) as Hdone.
    { intros key attrs course Hl Hmc.
      destruct (Hitem key attrs Hl) as (cur & Hcur & Heq). rewrite Heq in Hmc.
      apply partial_course_ok in Hmc as [Hsome Hspec].
      exists cur. split_and!; [done|..].
      - intros attr Hattr. apply Hsome, elem_of_app.
        destruct Hattr as [?|?]; [by left|right; by apply elem_of_elements].
      - intros attr. rewrite Hspec.
        destruct (decide (attr ∈ COURSE_INDEX_ATTRS ++ elements attrs)) as [Hin|Hout].
        + rewrite decide_True; [done|]. apply elem_of_app in Hin. set_solver.
        + rewrite decide_False; [done|]. rewrite elem_of_app in Hout. set_solver. }
    split.
    + split_and!; [done..|]. cbn [modified_courses].
      apply Forall2_same_length_lookup in Hrun as [Hlen Hrun].
      apply Forall2_same_length_lookup. split; [done|].
      intros i [key attrs] course Hx Hy. cbn [fst snd].
      assert (modified acc !! key = Some attrs) as Hl
        by (by eapply elem_of_map_to_list, list_elem_of_lookup_2).
      destruct (Hdone key attrs course Hl (Hrun i _ _ Hx Hy)) as (cur & ? & _ & ?).
      by exists cur.
    + intros key attrs course attr Hl Hcourse Hattr.
      assert ((key, attrs) ∈ map_to_list (modified acc)) as Hin
        by (by apply elem_of_map_to_list).
      apply list_elem_of_lookup in Hin as [i Hi].
      destruct (Forall2_lookup_l _ _ _ _ _ Hrun Hi) as (c & _ & Hmc).
      destruct (Hdone key attrs c Hl Hmc) as (cur & Hcur & Hsome & _).
      rewrite Hcourse in Hcur. injection Hcur as <-. by apply Hsome.
  - right. apply map_res_raise in Hrun as ([key attrs] & Hin%elem_of_map_to_list & Hraise).
    destruct (Hitem key attrs Hin) as (cur & Hcur & Heq). rewrite Heq in Hraise.
    apply partial_course_raise in Hraise as (-> & attr & Hattr & Hnone).
    split; [done|]. exists key, attrs, cur, attr. split_and!; try done.
    apply elem_of_app in Hattr as [?|?%elem_of_elements]; [by left|by right].
Qed.


(** [compute_diff] after a successful replay that satisfies the invariant:
    it returns the payload of the accumulators or raises [KeyError]; the
    latter needs a current course that lacks an identity attribute or an
    attribute reported for it, which a well-formed index has not. *)
Lemma compute_diff_outcome cd idxn base gone acc since :
  index cd = Some idxn →
  replay COURSE_ATTRS (updates cd) since = Ok acc →
  replay_inv COURSE_ATTRS base idxn gone acc →
  ((∃ d, compute_diff COURSE_ATTRS cd since = Ok d ∧ describes idxn acc d ∧
         ∀ key attrs course attr,
           modified acc !! key = Some attrs → idxn !! key = Some course →
           attr ∈ COURSE_INDEX_ATTRS ∨ attr ∈ attrs → is_Some (course !! attr)) ∨
   (compute_diff COURSE_ATTRS cd since = Raise KeyError ∧
    ∃ key attrs course attr,
      modified acc !! key = Some attrs ∧ idxn !! key = Some course ∧
      (attr ∈ COURSE_INDEX_ATTRS ∨ attr ∈ attrs) ∧ course !! attr = None)) ∧
  (wf_index COURSE_ATTRS idxn →
   ∃ d, compute_diff COURSE_ATTRS cd since = Ok d ∧ describes idxn acc d).
Proof.
  intros Hidx Hreplay Hinv.
  assert (compute_diff COURSE_ATTRS cd since = materialize (Some idxn) acc) as ->.
  { unfold compute_diff. by rewrite Hreplay, Hidx. }
  destruct (materialize_outcome idxn acc) as [(d & Hd & Hdesc & Hsome)|[Hraise Hmissing]].
  { rewrite (inv_added _ _ _ _ _ Hinv). set_solver. }
  { apply (inv_modified_dom _ _ _ _ _ Hinv). }
  - split; [left|]; eauto.
  - split; [by right|]. intros Hwf. exfalso.
    destruct Hmissing as (key & attrs & course & attr & Hl & Hcourse & Hattr & Hnone).
    assert (is_Some (course !! attr)) as [v Hv]; [|congruence].
    destruct Hattr as [Hattr|Hattr].
    + eapply wf_course_identity; [by eapply Hwf|done].
    + eapply wf_course_tracked; [by eapply Hwf|].
      apply (inv_tracked _ _ _ _ _ Hinv _ _ Hl) in Hattr.
      by apply elem_of_list_to_set in Hattr.
Qed.

Lemma last_snapshot (idx0 : gmap Key Course) (rs : list refresh) :
  last (idx0 :: (r_index <$> rs)) = Some (final_index idx0 rs).
Proof.
  unfold final_index. destruct rs as [|r rs _] using rev_ind; [done|].
  rewrite fmap_app. cbn [fmap list_fmap].
  change (idx0 :: (r_index <$> rs) ++ [r_index r])
    with ((idx0 :: (r_index <$> rs)) ++ [r_index r]).
  by rewrite !last_snoc.
Qed.

(** ** Replay against the direct diff *)

(** C1 (as amended): when the courses carry every identity and tracked
    attribute and every refresh after [since] is still in the retained
    history, [compute_diff since] succeeds and reports exactly the added
    and the removed keys of the direct [compute_update] between the index
    at [since] and the current index.  Its modified part covers that of the
    direct diff and is known exactly: a key of the current index is
    reported when the course made a round trip or a tracked attribute of it
    changed, from one snapshot to the next, during its present stay; the
    attributes reported are all tracked ones for a round trip and the
    changed ones otherwise.  So whatever the replay reports beyond the
    direct diff is a round trip, a change of a course that arrived after
    [since], or a change that has been reverted. *)
Theorem replay_covers_direct_diff cd0 idx0 rs since :
  index cd0 = Some idx0 →
  wf_index COURSE_ATTRS idx0 →
  Forall (λ entry : Z * update, entry.1 ≤ since) (updates cd0) →
  Forall (λ r, since < r_timestamp r) rs →
  Forall (λ r, wf_index COURSE_ATTRS (r_index r)) rs →
  (length rs ≤ MAX_UPDATES_SAVED)%nat →
  ∃ cd idxn acc d u,
    apply_refreshes COURSE_ATTRS rs cd0 = Ok cd ∧
    index cd = Some idxn ∧
    replay COURSE_ATTRS (updates cd) since = Ok acc ∧
    compute_diff COURSE_ATTRS cd since = Ok d ∧
    describes idxn acc d ∧
    compute_update COURSE_ATTRS idx0 idxn = Ok u ∧
    added acc = list_to_set (u_added u) ∧
    removed acc = list_to_set (u_removed u) ∧
    (∀ key attrs, u_modified u !! key = Some attrs →
       ∃ attrs', modified acc !! key = Some attrs' ∧ list_to_set attrs ⊆ attrs') ∧
    (∀ key, key ∈ dom (modified acc) ↔
       key ∈ dom idxn ∧
       (round_trip key idx0 (r_index <$> rs) ∨
        ∃ attr, attr ∈ COURSE_ATTRS ∧
                changed_in_stay key attr (idx0 :: (r_index <$> rs)))) ∧
    (∀ key attrs' attr, modified acc !! key = Some attrs' →
       (attr ∈ attrs' ↔
        attr ∈ COURSE_ATTRS ∧
        (round_trip key idx0 (r_index <$> rs) ∨
         changed_in_stay key attr (idx0 :: (r_index <$> rs))))) ∧
    (∀ key attrs' attr, modified acc !! key = Some attrs' → attr ∈ attrs' →
       (∃ attrs, u_modified u !! key = Some attrs ∧ attr ∈ attrs) ∨
       round_trip key idx0 (r_index <$> rs) ∨
       key ∈ added acc ∨
       (∃ o n, idx0 !! key = Some o ∧ idxn !! key = Some n ∧ o !! attr = n !! attr)).
Proof.
  intros Hidx Hwf0 Hold Hnew Hwf Hlen.
  destruct (replay_after_refreshes COURSE_ATTRS cd0 idx0 rs since)
    as (cd & log & acc & d & Hcd & Hidx' & _ & Hreplay & Hinv & Hd & Hdesc); [done..|].
  destruct (replay_within_window cd0 idx0 rs since cd)
    as (_ & _ & acc' & _ & _ & _ & _ & Hreplay' & _ & [Hkeys Hattrs]); [done..|].
  rewrite Hreplay in Hreplay'. injection Hreplay' as <-.
  destruct (compute_update_total COURSE_ATTRS idx0 (final_index idx0 rs)) as [u Hu];
    [done|by apply final_index_wf|].
  destruct (compute_update_spec _ _ _ _ Hu) as (Hua & Hur & Hum).
  exists cd, (final_index idx0 rs), acc, d, u. split_and!; try done.
  - rewrite Hua, list_to_set_elements_L. apply (inv_added _ _ _ _ _ Hinv).
  - rewrite Hur, list_to_set_elements_L. apply (inv_removed _ _ _ _ _ Hinv).
  - intros key attrs (o & n & Ho & Hn & <- & Hne)%Hum.
    destruct (differing COURSE_ATTRS o n) as [|a0 rest] eqn:Hdiff; [done|].
    assert (a0 ∈ differing COURSE_ATTRS o n) as Ha0 by (rewrite Hdiff; left).
    apply list_elem_of_filter in Ha0 as [Hne0 Hin0].
    destruct (inv_changed _ _ _ _ _ Hinv key o n a0 Ho Hn Hin0 Hne0) as (attrs' & Hm & _).
    exists attrs'. split; [done|]. intros a Ha%elem_of_list_to_set.
    rewrite <- Hdiff in Ha. apply list_elem_of_filter in Ha as [Hnea Hina].
    destruct (inv_changed _ _ _ _ _ Hinv key o n a Ho Hn Hina Hnea) as (attrs'' & Hm' & ?).
    congruence.
  - intros key attrs' attr Hl Hattr.
    apply (Hattrs key attrs' attr Hl) in Hattr as [Htracked [Hrt|Hch]]; [by right; left|].
    assert (key ∈ dom (final_index idx0 rs)) as [n Hn]%elem_of_dom.
    { eapply changed_in_stay_last; [done|apply last_snapshot]. }
    destruct (idx0 !! key) as [o|] eqn:Ho.
    + destruct (decide (o !! attr = n !! attr)) as [Heq|Hne]; [by eauto 10|].
      left. exists (differing COURSE_ATTRS o n).
      assert (attr ∈ differing COURSE_ATTRS o n) as Hmem
        by (by apply list_elem_of_filter).
      split; [|done]. apply Hum. exists o, n. split_and!; try done.
      intros Hnil. rewrite Hnil in Hmem. by apply elem_of_nil in Hmem.
    + right. right. left. rewrite (inv_added _ _ _ _ _ Hinv).
      apply elem_of_difference. split; [apply elem_of_dom; eauto|].
      by apply not_elem_of_dom.
Qed.

(** C2 (as amended): on a store that still retains every refresh after
    [since], a key that was in the index at [since], is removed by a
    retained entry newer than [since] and is in the current index again is
    in the accumulator [modified] with every tracked attribute, and neither
    in [added] nor in [removed].  The diff itself is returned when the
    courses of the current index carry every identity and tracked
    attribute, and it then holds the current course of the key cut down to
    these attributes; when the current course of the key lacks one of
    them, [compute_diff] raises [KeyError]. *)
Theorem round_trip_is_fully_modified cd0 idx0 rs since cd idxn key t u :
  index cd0 = Some idx0 →
  Forall (λ entry : Z * update, entry.1 ≤ since) (updates cd0) →
  Forall (λ r, since < r_timestamp r) rs →
  (length rs ≤ MAX_UPDATES_SAVED)%nat →
  apply_refreshes COURSE_ATTRS rs cd0 = Ok cd →
  index cd = Some idxn →
  key ∈ dom idx0 →
  (t, u) ∈ updates cd → since < t → key ∈ u_removed u →
  key ∈ dom idxn →
  ∃ acc,
    replay COURSE_ATTRS (updates cd) since = Ok acc ∧
    modified acc !! key = Some (list_to_set COURSE_ATTRS) ∧
    key ∉ added acc ∧
    key ∉ removed acc ∧
    (wf_index COURSE_ATTRS idxn →
     ∃ d, compute_diff COURSE_ATTRS cd since = Ok d) ∧
    (∀ d, compute_diff COURSE_ATTRS cd since = Ok d →
       describes idxn acc d ∧
       ∃ course current_course,
         course ∈ modified_courses d ∧ idxn !! key = Some current_course ∧
         ∀ attr, course !! attr =
           if decide (attr ∈ COURSE_INDEX_ATTRS ∨ attr ∈ COURSE_ATTRS)
           then current_course !! attr else None) ∧
    (∀ current_course attr,
       idxn !! key = Some current_course →
       attr ∈ COURSE_INDEX_ATTRS ∨ attr ∈ COURSE_ATTRS →
       current_course !! attr = None →
       compute_diff COURSE_ATTRS cd since = Raise KeyError).
Proof.
  intros Hidx Hold Hnew Hlen Hcd Hidxn Hk0 Hentry Ht Hrem Hkn.
  destruct (replay_within_window cd0 idx0 rs since cd)
    as (log & old & acc & Hlog & Hidx' & Hsplit & Holdest & Hreplay & Hinv & _); [done..|].
  rewrite Hidxn in Hidx'. injection Hidx' as ->.
  assert (modified acc !! key = Some (list_to_set COURSE_ATTRS)) as Hfull.
  { apply (inv_round_trip _ _ _ _ _ Hinv); [|done..].
    apply removed_keys_elem. exists t, u. split; [|done].
    rewrite Hsplit in Hentry. apply elem_of_app in Hentry as [Hin|Hin]; [|done].
    rewrite Forall_forall in Holdest. apply Holdest in Hin. simpl in Hin. lia. }
  destruct (compute_diff_outcome cd _ _ _ acc since Hidxn Hreplay Hinv) as [Hcases Hwf].
  exists acc. split_and!; try done.
  - rewrite (inv_added _ _ _ _ _ Hinv). set_solver.
  - rewrite (inv_removed _ _ _ _ _ Hinv). set_solver.
  - intros Hwfn. destruct (Hwf Hwfn) as (d & Hd & _). eauto.
  - intros d Hd.
    destruct Hcases as [(d' & Hd' & Hdesc & _)|[Hraise _]]; [|congruence].
    rewrite Hd in Hd'. injection Hd' as <-. split; [done|].
    destruct Hdesc as (_ & _ & Hmod).
    assert ((key, list_to_set COURSE_ATTRS) ∈ map_to_list (modified acc)) as Hin
      by (by apply elem_of_map_to_list).
    apply list_elem_of_lookup in Hin as [i Hi].
    destruct (Forall2_lookup_l _ _ _ _ _ Hmod Hi) as (course & Hcourse & cur & Hcur & Hspec).
    exists course, cur. split_and!; [by eapply list_elem_of_lookup_2|done|].
    intros attr. rewrite Hspec. cbn [fst snd].
    destruct (decide (attr ∈ COURSE_INDEX_ATTRS ∨ attr ∈ COURSE_ATTRS)) as [Hyes|Hno].
    + rewrite decide_True; [done|]. rewrite elem_of_list_to_set. done.
    + rewrite decide_False; [done|]. rewrite elem_of_list_to_set. done.
  - intros cur attr Hcur Hattr Hnone.
    destruct Hcases as [(d & _ & _ & Hsome)|[Hraise _]]; [|done]. exfalso.
    destruct (Hsome key (list_to_set COURSE_ATTRS) cur attr Hfull Hcur) as [v Hv];
      [|congruence].
    destruct Hattr as [?|?]; [by left|right; by apply elem_of_list_to_set].
Qed.

(** ** The read operations *)



End Replay.

(** * Deduplication that fails *)

Section FailedDeduplication.

Context {Value : Type} `{!JsonValue Value}.

Local Abbreviation Course := (gmap string Value).
Local Abbreviation Key := (list Value).

(** ** The order of the groups

    [course_index] is a dictionary and iterates in insertion order: the
    groups come in the order in which their keys first occur in the
    batch. *)

(** A group that begins earlier in the batch than another. *)
Definition starts_before (g g' : Key * list nat) : Prop :=
  ∃ f f', head g.2 = Some f ∧ head g'.2 = Some f' ∧ (f < f')%nat.

(** Groups of positions below [n], none of them empty, in the order of
    their first positions. *)
Definition ordered_groups (n : nat) (groups : list (Key * list nat)) : Prop :=
  StronglySorted starts_before groups ∧
  Forall (λ g : Key * list nat, g.2 ≠ [] ∧ Forall (λ i, (i < n)%nat) g.2) groups.

Lemma group_append_Forall (P : Key * list nat → Prop) groups key n :
  Forall P groups →
  (∀ k members, P (k, members) → P (k, members ++ [n])) →
  P (key, [n]) →
  Forall P (group_append groups key n).
Proof.
  intros Hall Hgrow Hnew. induction Hall as [|[k m] rest Hkm Hrest IH]; cbn [group_append].
  { by constructor. }
  case_decide; constructor; auto.
Qed.

Lemma group_append_ordered n groups key :
  ordered_groups n groups → ordered_groups (S n) (group_append groups key n).
Proof.
  intros [Hsorted Hall]. split.
  - induction groups as [|[k m] rest IH]; cbn [group_append].
    { repeat constructor. }
    apply StronglySorted_inv in Hsorted as [Hsorted Hhead].
    apply Forall_cons in Hall as [[Hne Hbound] Hall]. cbn [snd] in Hne, Hbound.
    destruct m as [|f m]; [done|]. apply Forall_cons in Hbound as [Hf _].
    case_decide as Hk.
    + apply SSorted_cons; [done|]. eapply Forall_impl; [exact Hhead|].
      intros g' (f0 & f' & Hf0 & Hf' & Hlt). by exists f0, f'.
    + apply SSorted_cons; [by apply IH|].
      apply group_append_Forall; [done| |].
      * intros k' m' (f0 & f' & Hf0 & Hf' & Hlt). exists f0, f'.
        split_and!; [done| |done]. cbn [snd] in *. by destruct m'.
      * exists f, n. by split_and!.
  - apply group_append_Forall.
    + eapply Forall_impl; [exact Hall|]. intros g [Hne Hbound]. split; [done|].
      eapply Forall_impl; [exact Hbound|]. cbn. lia.
    + intros k m [Hne Hbound]. cbn [snd] in *. split; [by destruct m|].
      apply Forall_app. split; [done|]. constructor; [lia|constructor].
    + cbn. split; [done|]. constructor; [lia|constructor].
Qed.

Lemma group_courses_ordered (courses : list Course) :
  Forall (λ c, ∃ key, course_to_index_key c = Ok key) courses →
  ∃ groups, group_courses courses = Ok groups ∧
            ordered_groups (length courses) groups.
Proof.
  unfold group_courses.
  induction courses as [|c courses IH] using rev_ind; intros Hkeys.
  { exists []. split; [done|]. split; constructor. }
  apply Forall_app in Hkeys as [Hkeys [[kc Hkc] _]%Forall_cons].
  destruct (IH Hkeys) as (groups & Hrun & Hord).
  rewrite imap_app, for_each_app, Hrun. cbn [mbind result_bind imap for_each].
  rewrite Hkc. cbn [mbind result_bind]. rewrite Nat.add_0_r.
  eexists. split; [done|]. rewrite length_app. cbn [length]. rewrite Nat.add_1_r.
  by apply group_append_ordered.
Qed.

(** ** The second loop on a batch with an offending group

    The loop letters the groups of several courses that come before the
    first group with a suffixed member, and stops at the first suffixed
    member of that group. *)
Lemma deduplicate_loop_stops (orig : list Course) gs (heap : list Course) :
  NoDup gs.*1 →
  (∀ key members, (key, members) ∈ gs → members = positions_with_key key orig) →
  (∀ key members i, (key, members) ∈ gs → i ∈ members → heap !! i = orig !! i) →
  (∃ key members i c, (key, members) ∈ gs ∧ (1 < length members)%nat ∧
     i ∈ members ∧ orig !! i = Some c ∧ has_suffix c) →
  ∃ g1 key members g2 r n c heap',
    gs = g1 ++ (key, members) :: g2 ∧
    (1 < length members)%nat ∧
    members !! r = Some n ∧ orig !! n = Some c ∧ has_suffix c ∧
    (∀ r' m cm, (r' < r)%nat → members !! r' = Some m → orig !! m = Some cm →
       ¬ has_suffix cm) ∧
    (∀ key' members' m cm, (key', members') ∈ g1 → (1 < length members')%nat →
       m ∈ members' → orig !! m = Some cm → ¬ has_suffix cm) ∧
    for_each_mut deduplicate_group gs heap =
      (heap', code ← format_course_code c; Raise (ScrapeError (DuplicateWithSuffix c))) ∧
    (∀ m, (∀ key' members', (key', members') ∈ g1 → m ∉ members') →
       heap' !! m = heap !! m) ∧
    (∀ key' members' r' m cm, (key', members') ∈ g1 → members' !! r' = Some m →
       orig !! m = Some cm → heap' !! m = Some (lettered (length members') r' cm)).
Proof.
  revert heap. induction gs as [|[key members] gs IH]; intros heap Hnd Hpos Hsame Hbad.
  { destruct Hbad as (? & ? & ? & ? & []%elem_of_nil & _). }
  rewrite fmap_cons in Hnd. apply NoDup_cons in Hnd as [Hfresh Hnd]. cbn [fst] in Hfresh.
  assert (members = positions_with_key key orig) as Hmembers by (apply Hpos; left).
  assert (NoDup members) as Hndm.
  { rewrite Hmembers. apply NoDup_filter, NoDup_seq. }
  assert (∀ key' members' i, (key', members') ∈ gs → i ∈ members' → i ∉ members) as Hdisj.
  { intros key' members' i Hin Hi Hi'.
    rewrite (Hpos key' members') in Hi by (by right). rewrite Hmembers in Hi'.
    apply elem_of_positions_with_key in Hi as (c & Hc & Hk).
    apply elem_of_positions_with_key in Hi' as (c' & Hc' & Hk').
    rewrite Hc in Hc'. injection Hc' as <-. rewrite Hk in Hk'. injection Hk' as <-.
    apply Hfresh. apply list_elem_of_fmap. by exists (key', members'). }
  assert (∀ i, i ∈ members →
            ∃ c, heap !! i = Some c ∧ orig !! i = Some c ∧
                 is_Some (c !! "courseCodeSuffix")) as Hattr.
  { intros i Hi. rewrite (Hsame key members i) by (done || by left).
    rewrite Hmembers in Hi. apply elem_of_positions_with_key in Hi as (c & Hc & Hk).
    exists c. split_and!; [done..|]. by eapply key_has_suffix_attr. }
  assert (∀ i c, i ∈ members → (heap !! i = Some c ↔ orig !! i = Some c)) as Hheap.
  { intros i c Hi. by rewrite (Hsame key members i) by (done || by left). }
  (* the remaining groups, from a heap that differs on [members] only *)
  assert (∀ heap1 : list Course,
            (∀ n, n ∉ members → heap1 !! n = heap !! n) →
            ∀ key' members' i, (key', members') ∈ gs → i ∈ members' →
              heap1 !! i = orig !! i) as Hframe.
  { intros heap1 Hout key' members' i Hin Hi. rewrite Hout by (by eapply Hdisj).
    apply (Hsame key' members'); [by right|done]. }
  assert (∀ heap1 : list Course,
            (∀ n, n ∉ members → heap1 !! n = heap !! n) →
            (∀ r i c, members !! r = Some i → orig !! i = Some c →
               heap1 !! i = Some (lettered (length members) r c)) →
            (∀ i c, (1 < length members)%nat → i ∈ members → orig !! i = Some c →
               ¬ has_suffix c) →
            for_each_mut deduplicate_group ((key, members) :: gs) heap =
              for_each_mut deduplicate_group gs heap1 →
            ∃ g1 key0 members0 g2 r n c heap',
              (key, members) :: gs = g1 ++ (key0, members0) :: g2 ∧
              (1 < length members0)%nat ∧
              members0 !! r = Some n ∧ orig !! n = Some c ∧ has_suffix c ∧
              (∀ r' m cm, (r' < r)%nat → members0 !! r' = Some m → orig !! m = Some cm →
                 ¬ has_suffix cm) ∧
              (∀ key' members' m cm, (key', members') ∈ g1 → (1 < length members')%nat →
                 m ∈ members' → orig !! m = Some cm → ¬ has_suffix cm) ∧
              for_each_mut deduplicate_group ((key, members) :: gs) heap =
                (heap', code ← format_course_code c;
                        Raise (ScrapeError (DuplicateWithSuffix c))) ∧
              (∀ m, (∀ key' members', (key', members') ∈ g1 → m ∉ members') →
                 heap' !! m = heap !! m) ∧
              (∀ key' members' r' m cm, (key', members') ∈ g1 → members' !! r' = Some m →
                 orig !! m = Some cm →
                 heap' !! m = Some (lettered (length members') r' cm))) as Hgo_on.
  { intros heap1 Hout Hin Hclean Hstep.
    destruct (IH heap1) as (g1 & key0 & members0 & g2 & r & n & c & heap' & -> & Hmany0 &
                            Hr & Hc & Hs & Hfirst & Hclean1 & Hrun & Hout' & Hin').
    - done.
    - intros key' members' Hin0. apply Hpos. by right.
    - apply (Hframe heap1 Hout).
    - destruct Hbad as (key' & members' & i & c & [Heq|Hin0]%elem_of_cons & Hlen & Hi & Hc & Hs).
      + injection Heq as -> ->. by destruct (Hclean i c).
      + by exists key', members', i, c.
    - exists ((key, members) :: g1), key0, members0, g2, r, n, c, heap'.
      split_and!; try done.
      + intros key' members' m cm [Heq|Hin0]%elem_of_cons.
        * injection Heq as -> ->. apply Hclean.
        * by apply (Hclean1 key' members').
      + by rewrite Hstep.
      + intros m Hm. rewrite Hout'.
        * apply Hout. apply (Hm key members). left.
        * intros key' members' Hin0. apply (Hm key' members'). by right.
      + intros key' members' r' m cm [Heq|Hin0]%elem_of_cons Hr' Hcm.
        * injection Heq as -> ->. rewrite Hout'; [by apply Hin|].
          intros key' members' Hin0 Hm.
          eapply Hdisj; [apply elem_of_app; left; exact Hin0|done|].
          by eapply list_elem_of_lookup_2.
        * by eapply Hin'. }
  destruct (decide (1 < length members)%nat) as [Hmany|Hfew].
  - destruct (check_no_suffix_loop heap members)
      as [[Hok Hclean]|(r & i & c & Hr & Hc & Hs & Hfirst & Hraise)].
    { intros i Hi. destruct (Hattr i Hi) as (c & ? & _ & ?). eauto. }
    + (* a group without suffixes: it is lettered and the loop goes on *)
      destruct (assign_suffix_positions members ascii_uppercase heap) as [Hout Hin];
        [done|intros i Hi; destruct (Hattr i Hi) as (c & ? & _); eauto|].
      apply (Hgo_on (foldl assign_suffix heap (zip members ascii_uppercase))).
      * done.
      * intros r i c Hr Hc. unfold lettered. rewrite decide_True by done.
        apply Hin; [done|]. apply Hheap; [by eapply list_elem_of_lookup_2|done].
      * intros i c _ Hi Hc. apply (Hclean i c Hi). by apply Hheap.
      * cbn [for_each_mut]. unfold deduplicate_group at 1.
        rewrite decide_True by done. by rewrite Hok.
    + (* the offending group *)
      assert (i ∈ members) as Hi by (by eapply list_elem_of_lookup_2).
      exists [], key, members, gs, r, i, c, heap. split_and!; try done.
      * by apply Hheap.
      * intros r' m cm Hlt Hr' Hcm. apply (Hfirst r' m cm Hlt Hr').
        apply Hheap; [by eapply list_elem_of_lookup_2|done].
      * intros ???? []%elem_of_nil.
      * cbn [for_each_mut]. unfold deduplicate_group at 1.
        rewrite decide_True by done. rewrite Hraise.
        by destruct (format_course_code c).
      * intros ????? []%elem_of_nil.
  - (* a single course: untouched *)
    apply (Hgo_on heap).
    + done.
    + intros r i c Hr Hc. unfold lettered. rewrite decide_False by done.
      apply Hheap; [by eapply list_elem_of_lookup_2|done].
    + intros i c Hmany. lia.
    + cbn [for_each_mut]. unfold deduplicate_group at 1. by rewrite decide_False by done.
Qed.


(** C6 (as amended): on a batch in which two courses share an identity key
    and one of them carries a suffix, [deduplicate_course_keys] fails.
    Among the groups of several courses with a suffixed member take the
    one whose key occurs first in the batch, and its first suffixed
    member: the call raises the disambiguation error for that course, or
    what formatting its code raises.  By then the courses of every group
    that begins earlier have their letters, by rank; every other course
    of the batch is as it was. *)
Theorem deduplicate_fails_on_suffixed_collision courses i j ci cj key0 :
  Forall (λ c, ∃ key, course_to_index_key c = Ok key) courses →
  i ≠ j →
  courses !! i = Some ci → courses !! j = Some cj →
  course_to_index_key ci = Ok key0 → course_to_index_key cj = Ok key0 →
  has_suffix ci →
  ∃ courses' key first r n c,
    head (positions_with_key key courses) = Some first ∧
    (1 < length (positions_with_key key courses))%nat ∧
    positions_with_key key courses !! r = Some n ∧
    courses !! n = Some c ∧ has_suffix c ∧
    (∀ r' m cm, (r' < r)%nat → positions_with_key key courses !! r' = Some m →
       courses !! m = Some cm → ¬ has_suffix cm) ∧
    (∀ key' first' m cm,
       head (positions_with_key key' courses) = Some first' → (first' < first)%nat →
       (1 < length (positions_with_key key' courses))%nat →
       m ∈ positions_with_key key' courses → courses !! m = Some cm →
       ¬ has_suffix cm) ∧
    deduplicate_course_keys courses =
      (courses', code ← format_course_code c;
                 Raise (ScrapeError (DuplicateWithSuffix c))) ∧
    length courses' = length courses ∧
    ∀ key' first' r' m cm,
      head (positions_with_key key' courses) = Some first' →
      positions_with_key key' courses !! r' = Some m →
      courses !! m = Some cm →
      courses' !! m =
        Some (if decide (first' < first)%nat
              then lettered (length (positions_with_key key' courses)) r' cm
              else cm).
Proof.
  intros Hkeys Hij Hci Hcj Hki Hkj Hsuffix.
  destruct (group_courses_positions courses Hkeys) as (groups & Hgroups & Hnd & Hcomp & Hpos).
  destruct (group_courses_ordered courses Hkeys) as (groups' & Hgroups' & [Hsorted _]).
  rewrite Hgroups in Hgroups'. injection Hgroups' as <-.
  (* every key of the batch has its group *)
  assert (∀ key m, m ∈ positions_with_key key courses →
            (key, positions_with_key key courses) ∈ groups) as Hgroup.
  { intros key m (c & Hc & Hk)%elem_of_positions_with_key.
    pose proof (Hcomp _ _ _ Hc Hk) as Hin.
    apply list_elem_of_fmap in Hin as ([key' members] & Heq & Hin). cbn in Heq. subst key'.
    by rewrite <- (Hpos _ _ Hin). }
  destruct (deduplicate_loop_stops courses groups courses)
    as (g1 & key & members & g2 & r & n & c & courses' & Hsplit & Hmany & Hr & Hc & Hs &
        Hfirst & Hclean & Hrun & Hout & Hin); [done..| |].
  { exists key0, (positions_with_key key0 courses), i, ci.
    assert (i ∈ positions_with_key key0 courses) as Hi
      by (apply elem_of_positions_with_key; eauto).
    assert (j ∈ positions_with_key key0 courses) as Hj
      by (apply elem_of_positions_with_key; eauto).
    split_and!; try done; [by eapply Hgroup|].
    apply (NoDup_two_members _ i j); [apply NoDup_filter, NoDup_seq|done..]. }
  assert (members = positions_with_key key courses) as Hmembers.
  { apply Hpos. rewrite Hsplit. apply elem_of_app. right. left. }
  subst members.
  destruct (positions_with_key key courses) as [|first members] eqn:Hmem;
    [cbn in Hmany; lia|].
  rewrite <- Hmem in *.
  assert (head (positions_with_key key courses) = Some first) as Hhead by (by rewrite Hmem).
  (* where a group stands in the order *)
  assert (∀ key' first', head (positions_with_key key' courses) = Some first' →
            (key', positions_with_key key' courses) ∈ groups) as Hgroup'.
  { intros key' first' Hf. apply (Hgroup key' first').
    destruct (positions_with_key key' courses); [done|]. injection Hf as ->. left. }
  assert (∀ key' first', head (positions_with_key key' courses) = Some first' →
            ((key', positions_with_key key' courses) ∈ g1 ↔ (first' < first)%nat))
    as Hbefore.
  { intros key' first' Hf. rewrite Hsplit in Hsorted. split.
    - intros Hin1.
      destruct (StronglySorted_app_1_elem_of _ _ _ _ (key, positions_with_key key courses)
                  Hsorted Hin1) as (f & f' & Hf1 & Hf2 & Hlt); [left|].
      cbn [snd] in Hf1, Hf2. congruence.
    - intros Hlt. pose proof (Hgroup' key' first' Hf) as Hin0.
      rewrite Hsplit in Hin0.
      apply elem_of_app in Hin0 as [?|[Heq|Hin2]%elem_of_cons]; [done|..].
      + injection Heq as -> _. rewrite Hhead in Hf. injection Hf as ->. lia.
      + apply StronglySorted_app_1_r, StronglySorted_inv in Hsorted as [_ Hall].
        rewrite Forall_forall in Hall.
        destruct (Hall _ Hin2) as (f & f' & Hf1 & Hf2 & Hlt').
        cbn [snd] in Hf1, Hf2. rewrite Hhead in Hf1. rewrite Hf in Hf2.
        injection Hf1 as <-. injection Hf2 as <-. lia. }
  exists courses', key, first, r, n, c. split_and!; try done.
  - intros key' first' m cm Hf Hlt Hmany' Hm Hcm.
    apply (Hclean key' (positions_with_key key' courses) m cm); try done.
    by apply (Hbefore key' first').
  - unfold deduplicate_course_keys. by rewrite Hgroups.
  - pose proof (deduplicate_same_but_suffix courses) as [Hlen _].
    unfold deduplicate_course_keys in Hlen. rewrite Hgroups, Hrun in Hlen. done.
  - intros key' first' r' m cm Hf Hr' Hcm.
    assert (m ∈ positions_with_key key' courses) as Hm
      by (by eapply list_elem_of_lookup_2).
    apply elem_of_positions_with_key in Hm as (cm' & Hcm' & Hkm).
    rewrite Hcm in Hcm'. injection Hcm' as <-.
    destruct (decide (first' < first)%nat) as [Hlt|Hge].
    + apply (Hin key' (positions_with_key key' courses) r' m cm); try done.
      by apply (Hbefore key' first').
    + rewrite Hout; [done|]. intros key'' members'' Hin1 Hm.
      assert (members'' = positions_with_key key'' courses) as ->.
      { apply Hpos. rewrite Hsplit. apply elem_of_app. by left. }
      apply elem_of_positions_with_key in Hm as (cm' & Hcm' & Hkm').
      rewrite Hcm in Hcm'. injection Hcm' as <-.
      rewrite Hkm in Hkm'. injection Hkm' as <-.
      apply Hge. by apply (Hbefore key' first').
Qed.

End FailedDeduplication.

(** * [format_course_code]

    The course code printed in the error messages, on JSON scalars. *)

Example format_course_code_intro :
  format_course_code intro = Ok "CS 101 HM-01" ∧
  format_course_code (course "MATH" 5 "A" "x") = Ok "MATH 005A HM-01" ∧
  zero_padded 3 (-5) = "-05" ∧ zero_padded 3 12345 = "12345".
Proof. split_and!; vm_compute; reflexivity. Qed.

(** The formatted code depends on the five identity attributes only: two
    courses that agree on them have the same code, or fail alike; and a
    course that lacks one of them makes the formatting raise [KeyError]. *)
Theorem format_course_code_identity (c1 c2 : gmap string json) :
  (∀ attr, attr ∈ COURSE_INDEX_ATTRS → c1 !! attr = c2 !! attr) →
  format_course_code c1 = format_course_code c2 ∧
  (∀ attr, attr ∈ COURSE_INDEX_ATTRS → c1 !! attr = None →
     format_course_code c1 = Raise KeyError).
Proof.
  intros Hsame. unfold COURSE_INDEX_ATTRS in *. split.
  - unfold format_course_code, getitem.
    rewrite <- !Hsame by (repeat (by left) || right). done.
  - intros attr Hattr Hnone. unfold format_course_code, getitem.
    rewrite !elem_of_cons in Hattr.
    destruct Hattr as [->|[->|[->|[->|[->|Hattr]]]]];
      [..|by apply elem_of_nil in Hattr];
      rewrite Hnone;
      repeat (match goal with
              | |- context [c1 !! ?a] => destruct (c1 !! a)
              end);
      reflexivity.
Qed.

(** * The further properties on the concrete catalogue *)

Lemma pair_the_ok {A B} (fallback : B) (p : A * result (@error json) B) :
  (if p.2 is Ok _ then true else false) = true → p = (p.1, Ok (the fallback p.2)).
Proof. by destruct p as [a [b|e]]. Qed.

Lemma compute_update_same_witness :
  compute_update TRACKED (index_of [algo; intro]) (index_of [algo; intro]) =
    Ok {| u_added := []; u_removed := []; u_modified := ∅ |}.
Proof. apply (@compute_update_same json json_value TRACKED (index_of [algo; intro])). by_evaluation. Defined.

Lemma compute_update_mirror_witness :
  compute_update TRACKED (index_of [algo]) (index_of [algo; intro]) =
    Ok {| u_added := u_removed round_trip_removal;
          u_removed := u_added round_trip_removal;
          u_modified := u_modified round_trip_removal |}.
Proof.
  apply (@compute_update_mirror json json_value TRACKED (index_of [algo; intro])
           (index_of [algo])
           round_trip_removal).
  apply the_ok. vm_compute. reflexivity.
Defined.

Lemma compute_update_missing_attribute_witness :
  compute_update TRACKED (index_of [intro]) (index_of [delete "courseName" intro])
    = Raise KeyError.
Proof.
  apply (@compute_update_missing_attribute json json_value TRACKED (index_of [intro])
           (index_of [delete "courseName" intro]) (key_of "CS" 101 "")
           intro (delete "courseName" intro) "courseName").
  - by_evaluation.
  - by_evaluation.
  - by_evaluation.
  - right. by_evaluation.
Defined.

Definition round_trip_accum : @accum json _ :=
  the empty_accum (replay TRACKED (updates round_trip_store) 100).

Lemma replay_reports_only_retained_changes_witness :
  replay TRACKED (updates round_trip_store) 100 = Ok round_trip_accum ∧
  ((∀ key, key ∈ added round_trip_accum →
      ∃ t u, (t, u) ∈ updates round_trip_store ∧ 100 < t ∧ key ∈ u_added u) ∧
   (∀ key, key ∈ removed round_trip_accum →
      ∃ t u, (t, u) ∈ updates round_trip_store ∧ 100 < t ∧ key ∈ u_removed u) ∧
   (∀ key, key ∈ dom (modified round_trip_accum) →
      ∃ t u, (t, u) ∈ updates round_trip_store ∧ 100 < t ∧
             (key ∈ dom (u_modified u) ∨ key ∈ u_added u))).
Proof.
  assert (replay TRACKED (updates round_trip_store) 100 = Ok round_trip_accum) as H
    by (apply the_ok; vm_compute; reflexivity).
  split; [exact H|].
  exact (replay_reports_only_retained_changes TRACKED (updates round_trip_store) 100
           round_trip_accum H).
Defined.

Lemma replay_skips_prefix_witness :
  replay TRACKED ([(50, no_update); (100, no_update)] ++ updates round_trip_store) 100
    = replay TRACKED (updates round_trip_store) 100.
Proof.
  apply (replay_skips_prefix TRACKED [(50, no_update); (100, no_update)]
           (updates round_trip_store) 100).
  by_evaluation.
Defined.

(** A store whose history adds a course that its index does not hold. *)
Definition inconsistent_store : @course_data_t json _ :=
  {| current := Some [algo]; index := Some (index_of [algo]);
     initial_timestamp := Some 100;
     updates := [(200, {| u_added := [key_of "CS" 101 ""]; u_removed := [];
                          u_modified := ∅ |})];
     timestamp := Some 200; malformed := Some [] |}.

Lemma compute_diff_faults_witness :
  compute_diff TRACKED inconsistent_store 100 = Raise KeyError ∧
  ((KeyError : @error json) = AssertionError ∨ (KeyError : @error json) = KeyError ∨
   ((KeyError : @error json) = TypeError ∧ index inconsistent_store = None)).
Proof.
  assert (compute_diff TRACKED inconsistent_store 100 = Raise KeyError) as Hrun
    by by_evaluation.
  split; [exact Hrun|].
  exact (proj2 (compute_diff_faults TRACKED inconsistent_store 100 KeyError Hrun)).
Defined.

Lemma replay_cancels_passing_course_witness :
  ∃ cd acc,
    apply_refreshes TRACKED [refresh_of 200 [algo; intro]; refresh_of 300 [algo]]
      (store_at_100 [algo]) = Ok cd ∧
    replay TRACKED (updates cd) 100 = Ok acc ∧
    key_of "CS" 101 "" ∉ added acc ∧ key_of "CS" 101 "" ∉ removed acc ∧
    key_of "CS" 101 "" ∉ dom (modified acc).
Proof.
  apply (replay_cancels_passing_course TRACKED (store_at_100 [algo]) (index_of [algo])
           [refresh_of 200 [algo; intro]; refresh_of 300 [algo]] 100
           (key_of "CS" 101 "")).
  - reflexivity.
  - by_evaluation.
  - by_evaluation.
  - by_evaluation.
  - by_evaluation.
  - vm_compute. lia.
  - by_evaluation.
  - by_evaluation.
Defined.

Lemma store_after_refreshes_witness :
  initial_timestamp two_refreshes_store = Some 100 ∧
  timestamp two_refreshes_store = Some 200 ∧
  length (updates two_refreshes_store) = 1%nat.
Proof.
  destruct (store_after_refreshes TRACKED (refresh_of 100 [intro])
              [refresh_of 200 [intro2]] two_refreshes_store)
    as (Hinit & Hts & _ & _ & _ & Hlen & _).
  - apply the_ok. vm_compute. reflexivity.
  - split_and!; [exact Hinit|exact Hts|exact Hlen].
Defined.

Lemma deduplicate_missing_identity_attribute_witness :
  deduplicate_course_keys [algo; delete "school" intro] =
    ([algo; delete "school" intro], Raise KeyError).
Proof.
  apply (deduplicate_missing_identity_attribute [algo; delete "school" intro]
           (delete "school" intro) "school").
  - by_evaluation.
  - by_evaluation.
  - by_evaluation.
Defined.

Lemma index_courses_spec_witness :
  size (the ∅ (index_courses [intro; intro; algo]).2) = 3%nat.
Proof.
  destruct (index_courses_spec [intro; intro; algo]
              (index_courses [intro; intro; algo]).1
              (the ∅ (index_courses [intro; intro; algo]).2)) as (_ & Hsize & _).
  - apply pair_the_ok. vm_compute. reflexivity.
  - exact Hsize.
Defined.

Lemma deduplicate_assigns_letters_witness :
  ∃ courses',
    deduplicate_course_keys [intro; algo; intro] = (courses', Ok ()) ∧
    courses' !! 0%nat = Some (<["courseCodeSuffix" := JStr "A"]> intro) ∧
    courses' !! 1%nat = Some algo ∧
    courses' !! 2%nat = Some (<["courseCodeSuffix" := JStr "B"]> intro).
Proof.
  destruct (deduplicate_assigns_letters [intro; algo; intro]) as (courses' & Hrun & Hl).
  - repeat (constructor; [eexists; reflexivity|]). constructor.
  - intros i j ci cj _ Hi _ _ (v & Hv & Ht).
    destruct i as [|[|[|i]]]; cbn in Hi; [..|discriminate Hi];
      injection Hi as <-; vm_compute in Hv; injection Hv as <-; discriminate Ht.
  - exists courses'. split_and!; [exact Hrun|..].
    + rewrite (Hl (key_of "CS" 101 "") 0%nat 0%nat intro) by by_evaluation. by_evaluation.
    + rewrite (Hl (key_of "CS" 140 "") 0%nat 1%nat algo) by by_evaluation. by_evaluation.
    + rewrite (Hl (key_of "CS" 101 "") 1%nat 2%nat intro) by by_evaluation. by_evaluation.
Defined.

Lemma index_courses_distinct_keys_witness :
  ∃ idx, index_courses [intro; algo; stats] = ([intro; algo; stats], Ok idx) ∧
         size idx = 3%nat.
Proof.
  destruct (index_courses_distinct_keys [intro; algo; stats]) as (idx & Hrun & Hsize & _).
  - repeat (constructor; [eexists; reflexivity|]). constructor.
  - by_evaluation.
  - exists idx. split; [exact Hrun|exact Hsize].
Defined.

Lemma routes_match_prefixes_witness :
  do_GET TRACKED "/api/v2/courses-since/150/" (@initial_world json _) =
    (get_courses_since TRACKED "150" (course_data initial_world), initial_world).
Proof.
  apply (proj1 (routes_match_prefixes TRACKED "150" "/" initial_world));
    [discriminate|reflexivity|reflexivity].
Defined.

Lemma do_PUT_dictionaries_witness :
  do_PUT {| debug := false; use_cache := false |} "/debug/reset" 0
         (@nil (gmap string json)) initial_world
    = (SendError NOT_IMPLEMENTED, initial_world).
Proof.
  apply (proj1 (proj2 (proj2 (do_PUT_dictionaries
           {| debug := false; use_cache := false |} "/debug/reset" 0
           (@nil (gmap string json)) initial_world)))).
  reflexivity.
Defined.

Lemma reset_with_pristine_template_witness :
  course_data (do_PUT debug_server "/debug/reset" 0 (@nil (gmap string json))
                 (set_course_data (store_at_100 [intro]) initial_world)).2
    = initial_course_data.
Proof.
  destruct (reset_with_pristine_template TRACKED debug_server 0 (@nil (gmap string json))
              (set_course_data (store_at_100 [intro]) initial_world)) as [Hcd _].
  - reflexivity.
  - reflexivity.
  - exact Hcd.
Defined.

(** The state after a reset and one refresh. *)
Definition reset_refresh : @world json _ :=
  (run_single_fetch_task TRACKED 100 (Some ([intro], []))
     (do_PUT debug_server "/debug/reset" 0 [] initial_world).2).2.

Lemma refresh_after_reset_sticks_witness :
  INITIAL_COURSE_DATA reset_refresh = course_data reset_refresh ∧
  (do_PUT debug_server "/debug/reset" 0 (@nil (gmap string json)) reset_refresh).2
    = reset_refresh.
Proof.
  destruct (refresh_after_reset_sticks TRACKED debug_server 0 (@nil (gmap string json))
              100 (Some ([intro], []))
              (do_PUT debug_server "/debug/reset" 0 [] initial_world).2 reset_refresh)
    as (Htemplate & _ & Hreset).
  - reflexivity.
  - by_evaluation.
  - split; [exact Htemplate|exact Hreset].
Defined.

Lemma format_course_code_identity_witness :
  format_course_code intro = format_course_code intro2.
Proof.
  apply (format_course_code_identity intro intro2).
  intros attr Hattr. unfold COURSE_INDEX_ATTRS in Hattr. rewrite !elem_of_cons in Hattr.
  destruct Hattr as [->|[->|[->|[->|[->|Hattr]]]]]; [reflexivity..|].
  by apply elem_of_nil in Hattr.
Defined.

(** * The replay, the reads and the failed deduplication on the concrete catalogue *)

(** ** C1 *)

Lemma replay_covers_direct_diff_witness :
  ∃ cd acc d u,
    apply_refreshes TRACKED [refresh_of 200 [algo; intro2]; refresh_of 300 [intro2]]
      (store_at_100 [intro]) = Ok cd ∧
    replay TRACKED (updates cd) 100 = Ok acc ∧
    compute_diff TRACKED cd 100 = Ok d ∧
    added acc = list_to_set (u_added u) ∧
    removed acc = list_to_set (u_removed u) ∧
    (key_of "CS" 101 "" ∈ dom (modified acc) ↔
       key_of "CS" 101 "" ∈ dom (index_of [intro2]) ∧
       (round_trip (key_of "CS" 101 "") (index_of [intro])
          [index_of [algo; intro2]; index_of [intro2]] ∨
        ∃ attr, attr ∈ TRACKED ∧
          changed_in_stay (key_of "CS" 101 "") attr
            [index_of [intro]; index_of [algo; intro2]; index_of [intro2]])).
Proof.
  destruct (replay_covers_direct_diff TRACKED (store_at_100 [intro]) (index_of [intro])
              [refresh_of 200 [algo; intro2]; refresh_of 300 [intro2]] 100)
    as (cd & idxn & acc & d & u & Hcd & Hidx & Hacc & Hd & _ & _ & Ha & Hr & _ & Hkeys & _).
  - reflexivity.
  - by_evaluation.
  - by_evaluation.
  - by_evaluation.
  - by_evaluation.
  - vm_compute. lia.
  - exists cd, acc, d, u.
    assert (idxn = index_of [intro2]) as Hn.
    { apply (inj Some). rewrite <- Hidx.
      assert (cd = the initial_course_data
                (apply_refreshes TRACKED
                   [refresh_of 200 [algo; intro2]; refresh_of 300 [intro2]]
                   (store_at_100 [intro]))) as -> by (by rewrite Hcd).
      by_evaluation. }
    rewrite Hn in Hkeys.
    split_and!; [exact Hcd|exact Hacc|exact Hd|exact Ha|exact Hr|].
    exact (Hkeys (key_of "CS" 101 "")).
Defined.

(** ** C2 *)

Lemma round_trip_is_fully_modified_witness :
  ∃ acc d,
    replay TRACKED (updates round_trip_store) 100 = Ok acc ∧
    compute_diff TRACKED round_trip_store 100 = Ok d ∧
    modified acc !! key_of "CS" 101 "" = Some (list_to_set TRACKED) ∧
    key_of "CS" 101 "" ∉ added acc ∧
    key_of "CS" 101 "" ∉ removed acc.
Proof.
  destruct (round_trip_is_fully_modified TRACKED (store_at_100 [algo; intro])
              (index_of [algo; intro]) round_trip_refreshes 100 round_trip_store
              (index_of [algo; intro2]) (key_of "CS" 101 "") 200 round_trip_removal)
    as (acc & Hacc & Hm & Ha & Hr & Hwf & _).
  - reflexivity.
  - by_evaluation.
  - by_evaluation.
  - vm_compute. lia.
  - apply the_ok. vm_compute. reflexivity.
  - by_evaluation.
  - by_evaluation.
  - by_evaluation.
  - lia.
  - by_evaluation.
  - by_evaluation.
  - destruct Hwf as [d Hd]; [by_evaluation|].
    exists acc, d. repeat split; assumption.
Defined.

(** The window matters: one hundred and one refreshes after 100.  The
    course CS 101 is in the index at 100, is removed at 101 and at 103 and
    added again at 102 and at 104; the entry of 101 is no longer retained,
    and the replay since 100 reports the course as added. *)
Definition long_round_trip : list refresh :=
  [refresh_of 101 [algo]; refresh_of 102 [algo; intro]; refresh_of 103 [algo]]
  ++ ((λ n : nat, refresh_of (104 + Z.of_nat n) [algo; intro]) <$> seq 0 98).

Example round_trip_outside_window :
  length long_round_trip = 101%nat ∧
  (entries ← history_keys (apply_refreshes TRACKED long_round_trip
                              (store_at_100 [algo; intro]));
   Ok (take 3 entries))
    = Ok [(102, [key_of "CS" 101 ""], []); (103, [], [key_of "CS" 101 ""]);
          (104, [key_of "CS" 101 ""], [])] ∧
  replay_keys (apply_refreshes TRACKED long_round_trip (store_at_100 [algo; intro])) 100
    = Ok ([key_of "CS" 101 ""], [], []).
Proof. split_and!; vm_compute; reflexivity. Qed.

(** ** C4 *)


(** A course that comes back without its name: the refreshes succeed, the
    store is initialised, and the diff request since 100 fails with
    [KeyError]. *)
Definition nameless_store : course_data_t :=
  the initial_course_data
      (apply_refreshes TRACKED
         [refresh_of 100 [algo; intro]; refresh_of 200 [algo];
          refresh_of 300 [algo; delete "courseName" intro]]
         initial_course_data).

Example nameless_course_breaks_diff :
  initial_timestamp nameless_store = Some 100 ∧
  timestamp nameless_store = Some 300 ∧
  compute_diff TRACKED nameless_store 100 = Raise KeyError ∧
  get_courses_since TRACKED "100" nameless_store = Uncaught KeyError ∧
  get_courses_since TRACKED "50" nameless_store
    = SendOK (NotIncremental [algo; delete "courseName" intro] (Some 300) 0).
Proof. split_and!; by_evaluation. Qed.

(** The limit on the digits of a timestamp: 4300 digits are parsed, 4301
    are a malformed timestamp. *)
Example long_timestamp_is_malformed :
  (if @int json (zeros 4300) is Ok 0 then true else false) = true ∧
  @int json (zeros 4301) = Raise ValueError ∧
  get_courses_since TRACKED (zeros 4301) two_refreshes_store = SendError BAD_REQUEST.
Proof. split_and!; vm_compute; reflexivity. Qed.

(** ** C6 *)

(** Two courses CS 101, then MA 35 with its suffix Q twice, and CS 140
    twice: CS 101 is lettered, MA 35 stops the call, CS 140 is not reached. *)
Lemma deduplicate_fails_on_suffixed_collision_witness :
  ∃ courses' c,
    deduplicate_course_keys [intro; intro; stats; algo; stats; algo] =
      (courses', code ← format_course_code c;
                 Raise (ScrapeError (DuplicateWithSuffix c))) ∧
    has_suffix c ∧
    courses' !! 0%nat = Some (<["courseCodeSuffix" := JStr "A"]> intro) ∧
    courses' !! 1%nat = Some (<["courseCodeSuffix" := JStr "B"]> intro) ∧
    courses' !! 3%nat = Some algo.
Proof.
  destruct (deduplicate_fails_on_suffixed_collision
              [intro; intro; stats; algo; stats; algo]
              2%nat 4%nat stats stats (key_of "MA" 35 "Q"))
    as (courses' & key & first & r & n & c & _ & _ & _ & _ & Hs & _ & _ & Hrun & _ & _).
  - repeat (constructor; [eexists; reflexivity|]). constructor.
  - lia.
  - reflexivity.
  - reflexivity.
  - reflexivity.
  - reflexivity.
  - exists (JStr "Q"). split; reflexivity.
  - exists courses', c. split_and!; [exact Hrun|exact Hs|..];
      (replace courses'
         with (deduplicate_course_keys [intro; intro; stats; algo; stats; algo]).1
         by (by rewrite Hrun)); by_evaluation.
Defined.

(** When the offending group comes first nothing is lettered; and a
    suffixed duplicate whose number is a string makes the call raise the
    [ValueError] of the formatting. *)
Example deduplicate_failures :
  deduplicate_course_keys [intro; intro; stats; algo; stats; algo] =
    ([<["courseCodeSuffix" := JStr "A"]> intro;
      <["courseCodeSuffix" := JStr "B"]> intro; stats; algo; stats; algo],
     Raise (ScrapeError (DuplicateWithSuffix stats))) ∧
  deduplicate_course_keys [stats; stats; intro; intro] =
    ([stats; stats; intro; intro], Raise (ScrapeError (DuplicateWithSuffix stats))) ∧
  deduplicate_course_keys [<["courseNumber" := JStr "35"]> stats;
                           <["courseNumber" := JStr "35"]> stats] =
    ([<["courseNumber" := JStr "35"]> stats; <["courseNumber" := JStr "35"]> stats],
     Raise ValueError).
Proof. split_and!; by_evaluation. Qed.
